(** * Commit-history acquisition and metrics pipeline of the GitHub commit analyzer

    A shallow embedding of the analysis core of the multi-developer component
    (link-header parsing, commit listing with de-duplication, message-quality
    and consistency metrics, the experience scorer, the detail-fetch worker
    pool and the per-developer orchestration), together with the properties
    the specification states about them.

    Conventions.
    - A JavaScript string is a list of code units, [list ascii]; every
      character of an HTTP header value is a byte, so this is exact for
      [parseLinkHeader]; for commit messages it covers the Latin-1 range and
      [length] counts code units as [String.prototype.length] does.
    - Integers are [Z]: counts, line totals and time values are integers
      below 2^53 in magnitude, which a double holds exactly.  The numbers
      the component computes with quotients for the consistency score and
      the average commit size are doubles ([jsnum]): a finite double is the
      rational it denotes, and every operation rounds its exact result to
      the nearest double, ties to even ([to_double]); NaN and the infinities
      are explicit.  The on-time percentage and the mean message score are
      quotients of two counts of which the scorer and the result record
      take the comparisons with 30, 50 and 60 and the rounding to an
      integer; they are kept as exact rationals [Q], which gives the same
      comparisons and the same integer as the doubles do for fewer than
      2^40 commits ([figures_in_doubles]).
    - JavaScript objects used as dictionaries and [Set]s are stdpp's [gmap]
      and [gset]. *)

From Stdlib Require Import ZArith QArith Qminmax Qround Qpower List Ascii String.
From Stdlib Require Import Lia Lqa Bool.
From stdpp Require Import gmap strings list sorting pretty.

#[local] Set Warnings "-clear-no-such-hyp".

Local Open Scope Z_scope.

(** ** JavaScript numbers as far as the scorer looks at them *)

Inductive jsnum : Type :=
  | NaN
  | NegInf
  | Fin (q : Q)
  | PosInf.

Definition jsnum_of_Z (z : Z) : jsnum := Fin (inject_Z z).

(** [x >= c] for an integer literal [c]; false on NaN. *)
Definition js_ge (x : jsnum) (c : Z) : bool :=
  match x with
  | NaN => false
  | NegInf => false
  | Fin q => Qle_bool (inject_Z c) q
  | PosInf => true
  end.

(** [x > c] for an integer literal [c]; false on NaN. *)
Definition js_gt (x : jsnum) (c : Z) : bool :=
  match x with
  | NaN => false
  | NegInf => false
  | Fin q => negb (Qle_bool q (inject_Z c))
  | PosInf => true
  end.

(** ** Double-precision arithmetic

    A finite double is kept as the rational it denotes, in lowest terms;
    negative zero is not told apart from zero (no quotient of the component
    has a divisor that can be zero, and nothing else tells them apart). *)

(** The integer part of the binary logarithm of a positive rational. *)
Definition Qlog2 (q : Q) : Z :=
  let k := Z.log2 (Qnum q) - Z.log2 (Zpos (Qden q)) in
  if Qle_bool (Qpower 2 k) q then k else k - 1.

(** The nearest integer, a tie going to the even one. *)
Definition round_half_even (q : Q) : Z :=
  let f := Qfloor q in
  match Qcompare (q - inject_Z f) (1 # 2) with
  | Lt => f
  | Gt => f + 1
  | Eq => if Z.even f then f else f + 1
  end.

(** The multiple of 2^e nearest to a positive rational, a tie going to
    the even multiple, where e is the exponent of the last of the 53 bits
    of a significand, and not below -1074 (the subnormal numbers). *)
Definition nearest (a : Q) : Q :=
  let e := Z.max (Qlog2 a - 52) (-1074) in
  inject_Z (round_half_even (a / Qpower 2 e)) * Qpower 2 e.

(** IEEE 754 binary64 rounding to nearest, ties to even: the nearest
    number with a significand of 53 bits, and an infinity for what rounds
    to 2^1024 or beyond. *)
Definition to_double (q : Q) : jsnum :=
  let q := Qred q in
  match Qnum q with
  | Z0 => Fin 0
  | _ =>
      let positive := 0 <? Qnum q in
      let a := if positive then q else Qopp q in
      let r := Qred (nearest a) in
      if Qle_bool (Qpower 2 1024) r
      then (if positive then PosInf else NegInf)
      else Fin (if positive then r else Qopp r)
  end.

(** [-x]. *)
Definition jsneg (x : jsnum) : jsnum :=
  match x with
  | NaN => NaN
  | NegInf => PosInf
  | Fin q => Fin (Qopp q)
  | PosInf => NegInf
  end.

(** [x + y]. *)
Definition jsadd (x y : jsnum) : jsnum :=
  match x, y with
  | NaN, _ | _, NaN => NaN
  | PosInf, NegInf | NegInf, PosInf => NaN
  | PosInf, _ | _, PosInf => PosInf
  | NegInf, _ | _, NegInf => NegInf
  | Fin a, Fin b => to_double (a + b)
  end.

(** [x - y]. *)
Definition jssub (x y : jsnum) : jsnum := jsadd x (jsneg y).

(** The sign of a rational: -1, 0 or 1. *)
Definition Qsgn (q : Q) : Z := Z.sgn (Qnum q).

(** The infinity of a sign, NaN for no sign. *)
Definition infinity (sign : Z) : jsnum :=
  match sign with
  | Z0 => NaN
  | Zpos _ => PosInf
  | Zneg _ => NegInf
  end.

(** The sign of a number that is not NaN. *)
Definition jssgn (x : jsnum) : Z :=
  match x with
  | NaN => 0
  | NegInf => -1
  | Fin q => Qsgn q
  | PosInf => 1
  end.

(** [x * y]: an infinity times zero is NaN. *)
Definition jsmul (x y : jsnum) : jsnum :=
  match x, y with
  | NaN, _ | _, NaN => NaN
  | Fin a, Fin b => to_double (a * b)
  | _, _ => infinity (jssgn x * jssgn y)
  end.

(** [x / y]: zero by zero and an infinity by an infinity are NaN; another
    number by zero is an infinity of its sign. *)
Definition jsdiv (x y : jsnum) : jsnum :=
  match x, y with
  | NaN, _ | _, NaN => NaN
  | Fin a, Fin b =>
      if Qeq_bool b 0 then infinity (Qsgn a) else to_double (a / b)
  | Fin _, _ => Fin 0
  | _, Fin b => infinity (jssgn x * (if Qeq_bool b 0 then 1 else Qsgn b))
  | _, _ => NaN
  end.

(** [Number.isFinite(x)]. *)
Definition is_finite (x : jsnum) : bool :=
  match x with
  | Fin _ => true
  | _ => false
  end.

(** [Math.min(x, y)] and [Math.max(x, y)]: NaN when an argument is. *)
Definition Math_min (x y : jsnum) : jsnum :=
  match x, y with
  | NaN, _ | _, NaN => NaN
  | NegInf, _ | _, NegInf => NegInf
  | PosInf, z | z, PosInf => z
  | Fin a, Fin b => if Qle_bool a b then x else y
  end.

Definition Math_max (x y : jsnum) : jsnum :=
  match x, y with
  | NaN, _ | _, NaN => NaN
  | PosInf, _ | _, PosInf => PosInf
  | NegInf, z | z, NegInf => z
  | Fin a, Fin b => if Qle_bool b a then x else y
  end.

(** [Math.round(x)]: the nearest integer, a half going up; it is computed
    exactly. *)
Definition Math_round_num (x : jsnum) : jsnum :=
  match x with
  | Fin q => Fin (inject_Z (Qfloor (q + (1 # 2))))
  | other => other
  end.

(** ** ExperienceScorer: [calculateExperienceLevel] *)

Record experience : Type := mkExperience {
  level : string;
  tone : string;
  score : Z
}.

Module Experience.

(** The four tiered contributions, in the order of the source. *)

Definition volume (totalCommits : jsnum) : Z :=
  if js_gt totalCommits 200 then 40
  else if js_gt totalCommits 150 then 35
  else if js_gt totalCommits 100 then 30
  else if js_gt totalCommits 50 then 25
  else 10.

Definition pattern (onTimePercentage : jsnum) : Z :=
  if js_ge onTimePercentage 60 then 15
  else if js_ge onTimePercentage 50 then 10
  else if js_ge onTimePercentage 30 then 5
  else 2.

Definition quality (messageQuality : jsnum) : Z :=
  if js_ge messageQuality 50 then 25
  else if js_ge messageQuality 40 then 20
  else if js_ge messageQuality 30 then 15
  else 10.

Definition steadiness (consistency totalCommits : jsnum) : Z :=
  if js_ge consistency 70 && js_gt totalCommits 100 then 20
  else if js_ge consistency 60 && js_gt totalCommits 50 then 15
  else if js_ge consistency 40 && js_gt totalCommits 20 then 10
  else 5.

Definition classify (score : Z) : experience :=
  if 80 <=? score then mkExperience "Senior" "purple" score
  else if 60 <=? score then mkExperience "Mid-Level" "blue" score
  else if 40 <=? score then mkExperience "Junior" "green" score
  else mkExperience "Beginner" "yellow" score.

Definition calculateExperienceLevel
    (totalCommits onTimePercentage messageQuality consistency : jsnum)
    : experience :=
  let score := 0 in
  let score := score + volume totalCommits in
  let score := score + pattern onTimePercentage in
  let score := score + quality messageQuality in
  let score := score + steadiness consistency totalCommits in
  classify score.

End Experience.

(** The earlier revision of the component kept next to the primary one has
    another policy table: volume is capped at 35 and message quality at 30. *)
Module ExperienceAlt.

Definition volume (totalCommits : jsnum) : Z :=
  if js_gt totalCommits 200 then 35
  else if js_gt totalCommits 150 then 30
  else if js_gt totalCommits 100 then 25
  else if js_gt totalCommits 50 then 20
  else 10.

Definition quality (messageQuality : jsnum) : Z :=
  if js_ge messageQuality 50 then 30
  else if js_ge messageQuality 40 then 25
  else if js_ge messageQuality 30 then 20
  else 15.

Definition calculateExperienceLevel
    (totalCommits onTimePercentage messageQuality consistency : jsnum)
    : experience :=
  let score := 0 in
  let score := score + volume totalCommits in
  let score := score + Experience.pattern onTimePercentage in
  let score := score + quality messageQuality in
  let score := score + Experience.steadiness consistency totalCommits in
  Experience.classify score.

End ExperienceAlt.

(** ** JavaScript strings *)

Abbreviation str := (list ascii).

Definition lit (s : string) : str := list_ascii_of_string s.

Module JsString.

(** The double-quote character. *)
Definition dquote : ascii := ascii_of_N 34.

(** Truthiness of a string value: only the empty string is falsy. *)
Definition truthy (s : str) : bool :=
  match s with
  | [] => false
  | _ :: _ => true
  end.

(** [s.split(sep)] for a one-character separator. *)
Fixpoint split (sep : ascii) (s : str) : list str :=
  match s with
  | [] => [[]]
  | c :: r =>
      if Ascii.eqb c sep then [] :: split sep r
      else match split sep r with
           | p :: ps => (c :: p) :: ps
           | [] => [[c]]
           end
  end.

(** White space and line terminators among the code units below 256:
    TAB, LF, VT, FF, CR, SPACE and NBSP. *)
Definition is_space (c : ascii) : bool :=
  existsb (N.eqb (N_of_ascii c)) [9; 10; 11; 12; 13; 32; 160]%N.

(** Line terminators, which [.] of a regular expression does not match. *)
Definition is_line_terminator (c : ascii) : bool :=
  existsb (N.eqb (N_of_ascii c)) [10; 13]%N.

Fixpoint trimStart (s : str) : str :=
  match s with
  | [] => []
  | c :: r => if is_space c then trimStart r else s
  end.

Definition trimEnd (s : str) : str := rev (trimStart (rev s)).

Definition trim (s : str) : str := trimEnd (trimStart s).

(** [s.replace(/>$/, "")]. *)
Definition drop_closing (s : str) : str :=
  match rev s with
  | c :: r => if Ascii.eqb c ">" then rev r else s
  | [] => s
  end.

(** [s.replace(/^<|>$/g, "")]: an opening bracket at index 0 and a closing
    one at the end are removed, whichever are there. *)
Definition replace_angle (s : str) : str :=
  match s with
  | c :: r => if Ascii.eqb c "<" then drop_closing r else drop_closing s
  | [] => []
  end.

Fixpoint starts_with (p s : str) : bool :=
  match p, s with
  | [], _ => true
  | a :: p', b :: s' => Ascii.eqb a b && starts_with p' s'
  | _ :: _, [] => false
  end.

(** The longest prefix the greedy dot-star of a pattern can run over. *)
Fixpoint take_line (s : str) : str :=
  match s with
  | [] => []
  | c :: r => if is_line_terminator c then [] else c :: take_line r
  end.

(** What lies before the last double quote of [s], if it has one: the
    greedy capture group followed by the closing quote of the pattern. *)
Fixpoint upto_last_quote (s : str) : option str :=
  match s with
  | [] => None
  | c :: r =>
      match upto_last_quote r with
      | Some g => Some (c :: g)
      | None => if Ascii.eqb c dquote then Some [] else None
      end
  end.

(** The pattern's literal head, [rel=] and an opening double quote. *)
Definition rel_head : str := lit "rel=" ++ [dquote].

(** [s.match(re)?.[1]] for the pattern [rel=], a double quote, a greedy
    capture of any characters but line terminators, a double quote: the
    capture of the leftmost match. *)
Fixpoint match_rel (s : str) : option str :=
  match s with
  | [] => None
  | _ :: r =>
      let here :=
        if starts_with rel_head s
        then upto_last_quote (take_line (skipn 5 s))
        else None in
      match here with
      | Some g => Some g
      | None => match_rel r
      end
  end.

(** Case folding of a regular expression with the [i] flag, on the
    letters its pattern can name. *)
Definition to_lower (c : ascii) : ascii :=
  let n := N_of_ascii c in
  if ((65 <=? n) && (n <=? 90))%N then ascii_of_N (n + 32) else c.

Fixpoint starts_with_ci (p s : str) : bool :=
  match p, s with
  | [], _ => true
  | a :: p', b :: s' => Ascii.eqb (to_lower a) (to_lower b) && starts_with_ci p' s'
  | _ :: _, [] => false
  end.

(** [\d]. *)
Definition is_digit (c : ascii) : bool :=
  let n := N_of_ascii c in ((48 <=? n) && (n <=? 57))%N.

End JsString.

Import JsString.

(** ** LinkHeaderParser: [parseLinkHeader] *)

Module JsObject.

(** [o[k] = v] on an object literal whose values are strings.  Every key
    becomes an own property, but the one that names the prototype accessor:
    its setter ignores a value that is neither an object nor null, so the
    assignment leaves the object as it was. *)
Definition proto_key : str := lit "__proto__".

Definition set (o : gmap str str) (k v : str) : gmap str str :=
  if decide (k = proto_key) then o else <[k:=v]> o.

End JsObject.

(** The body of the loop over the parts of the header: [seg[0]] is always
    there, [seg[1]] only when the part holds a semicolon. *)
Definition link_url (p : str) : str :=
  let seg := split ";" p in
  replace_angle (trim (nth 0 seg [])).

Definition link_rel (p : str) : option str :=
  let seg := split ";" p in
  match nth_error seg 1 with
  | Some s => match_rel (trim s)
  | None => None
  end.

Definition link_part (links : gmap str str) (p : str) : gmap str str :=
  let url := link_url p in
  match link_rel p with
  | Some rel => if truthy url && truthy rel then JsObject.set links rel url else links
  | None => links
  end.

(** The argument is [None] for an absent header ([null]). *)
Definition parseLinkHeader (linkHeader : option str) : gmap str str :=
  match linkHeader with
  | None => ∅
  | Some h =>
      if negb (truthy h) then ∅
      else
        let parts := split "," h in
        fold_left link_part parts ∅
  end.

(** ** MetricsAggregator: message quality *)

Definition conventional_types : list str :=
  map lit ["feat"; "fix"; "docs"; "refactor"; "test"; "chore"; "style"; "perf"]%string.

(** [re.test(message)] for the anchored, case-insensitive alternation of the
    conventional types followed by a colon. *)
Definition test_conventional (message : str) : bool :=
  existsb (fun t => starts_with_ci (t ++ [":"%char]) message) conventional_types.

(** [re.test(message)] for a hash sign followed by at least one digit. *)
Fixpoint test_issue_ref (message : str) : bool :=
  match message with
  | [] => false
  | c :: r =>
      (Ascii.eqb c "#" && match r with d :: _ => is_digit d | [] => false end)
      || test_issue_ref r
  end.

Definition messageScore (message : str) : Z :=
  let messageScore := 0 in
  let messageScore :=
    if (10 <? Z.of_nat (length message)) then messageScore + 25 else messageScore in
  let messageScore :=
    if (30 <? Z.of_nat (length message)) then messageScore + 25 else messageScore in
  let messageScore :=
    if test_conventional message then messageScore + 25 else messageScore in
  let messageScore :=
    if test_issue_ref message then messageScore + 25 else messageScore in
  messageScore.

(** ** Commits *)

(** A raw item of a commit-list page, with the fields the pipeline reads:
    [c.sha], [c.commit.author.date], [c.commit.message] and [c.url]; a field
    is [None] when it is missing along its path. *)
Record commit : Type := mkCommit {
  sha : option str;
  author_date : option str;
  message : option str;
  url : str
}.

(** [String(c?.commit?.message || "")]. *)
Definition message_text (c : commit) : str :=
  match message c with
  | Some m => m
  | None => []
  end.

(** [Math.round]: to the nearest integer, a half goes up. *)
Definition Math_round (q : Q) : Z := Qfloor (q + (1 # 2)).

(** [clamp(n, min, max)]: [Math.max(min, Math.min(max, n))]. *)
Definition clamp (n lo hi : jsnum) : jsnum := Math_max lo (Math_min hi n).

Section Metrics.

(** [new Date(dateStr).getTime()], [None] when it is NaN; which strings
    parse, and the hour of an instant in the local time zone, are the
    host's business. *)
Variable Date_getTime : str -> option Z.
Variable Date_getHours : Z -> Z.

(** The work-hours window of the component. *)
Variable WORK_START WORK_END : Z.

(** The instant of a commit that has a present and parsable author date. *)
Definition commit_time (c : commit) : option Z :=
  match author_date c with
  | None => None
  | Some dateStr => if negb (truthy dateStr) then None else Date_getTime dateStr
  end.

Record base : Type := mkBase {
  onTimeCount : Z;
  lateCount : Z;
  commitDates : list Z;
  totalMessageScore : Z
}.

(** One turn of the loop over [allCommits]; a commit without a valid date
    is passed over by [continue]. The two histograms, which no later
    computation reads, are left out. *)
Definition base_step (b : base) (c : commit) : base :=
  match commit_time c with
  | None => b
  | Some date =>
      let hour := Date_getHours date in
      let onTime := (WORK_START <=? hour) && (hour <? WORK_END) in
      mkBase
        (if onTime then onTimeCount b + 1 else onTimeCount b)
        (if onTime then lateCount b else lateCount b + 1)
        (commitDates b ++ [date])
        (totalMessageScore b + messageScore (message_text c))
  end.

Definition base_pass (allCommits : list commit) : base :=
  fold_left base_step allCommits (mkBase 0 0 [] 0).

Definition onTimePercentage (allCommits : list commit) : Q :=
  let totalCommits := Z.of_nat (length allCommits) in
  if totalCommits =? 0 then 0%Q
  else (inject_Z (onTimeCount (base_pass allCommits)) / inject_Z totalCommits * 100)%Q.

Definition messageQualityScore (allCommits : list commit) : Z :=
  let totalCommits := Z.of_nat (length allCommits) in
  if totalCommits =? 0 then 0
  else Math_round
         (inject_Z (totalMessageScore (base_pass allCommits)) / inject_Z totalCommits).

End Metrics.

(** ** MetricsAggregator: consistency *)

Definition ms_per_day : Z := 1000 * 60 * 60 * 24.

(** [[...commitDates].sort((a, b) => a.getTime() - b.getTime())]. *)
Definition sortedDates (commitDates : list Z) : list Z :=
  merge_sort Z.le commitDates.

(** The loop that fills [intervals].  A time value is an integer of at
    most 8.64e15 in magnitude, which a double holds exactly; the difference
    of two of them and its quotient by the milliseconds of a day are
    rounded. *)
Fixpoint intervals (sorted : list Z) : list jsnum :=
  match sorted with
  | [] => []
  | a :: r =>
      match r with
      | [] => []
      | b :: _ =>
          let diffDays :=
            jsdiv (jssub (jsnum_of_Z b) (jsnum_of_Z a)) (jsnum_of_Z ms_per_day) in
          if is_finite diffDays && js_ge diffDays 0
          then diffDays :: intervals r else intervals r
      end
  end.

(** [intervals.length ? intervals.reduce((a, b) => a + b, 0) / intervals.length : 0]. *)
Definition avgInterval (commitDates : list Z) : jsnum :=
  let intervals := intervals (sortedDates commitDates) in
  match intervals with
  | [] => Fin 0
  | _ :: _ =>
      jsdiv (fold_left jsadd intervals (Fin 0))
        (jsnum_of_Z (Z.of_nat (length intervals)))
  end.

Definition consistencyScore (commitDates : list Z) : jsnum :=
  clamp (jssub (Fin 100) (jsmul (avgInterval commitDates) (Fin 5))) (Fin 0) (Fin 100).

(** ** CommitLister: the pagination loop of [analyzeCommits] *)

(** What a [throw] carries, as far as the handlers tell apart: the name
    [AbortError] of a cancelled fetch, or an [Error] with its message. *)
Inductive exn : Type :=
  | AbortError
  | Error (message : str).

(** A parsed body: an array of commit items, or anything else ([null] for a
    body that is not JSON, an object, a number). *)
Inductive json : Type :=
  | JArray (items : list commit)
  | JOther.

Record response : Type := mkResponse {
  ok : bool;
  status : Z;
  link : option str;              (* resp.headers.get("link") *)
  body : json;
  json_message : option str;      (* json && (json.message || json.error) *)
  rawText : str;
  ratelimit_remaining : option str;
  ratelimit_reset : option str
}.

(** [await fetchJson(...)] either resolves with a response or rejects. *)
Inductive fetched : Type :=
  | Resolved (r : response)
  | Rejected (e : exn).

Record lister : Type := mkLister {
  allCommits : list commit;
  seenShas : gset str;
  seenPageUrls : gset str;
  nextUrl : str;
  pageCount : nat
}.

(** How the loop was left. *)
Inductive listing : Type :=
  | Listed (st : lister) (rest : list fetched)
      (* the loop ended; [rest] are the responses it never asked for *)
  | Raised (e : exn)
      (* a statement of the body threw *)
  | Awaiting (st : lister).
      (* at the head of the loop, about to fetch past the end of the
         response sequence *)

(** One turn of [for (const c of json)]. *)
Definition collect (acc : list commit * gset str) (c : commit)
    : list commit * gset str :=
  let '(allCommits, seenShas) := acc in
  match sha c with
  | Some sha =>
      if truthy sha then
        if decide (sha ∈ seenShas) then acc
        else (allCommits ++ [c], {[sha]} ∪ seenShas)
      else (allCommits ++ [c], seenShas)
  | None => (allCommits ++ [c], seenShas)
  end.

(** [links.next || ""]. *)
Definition next_link (r : response) : str :=
  match parseLinkHeader (link r) !! lit "next" with
  | Some u => u
  | None => []
  end.

Section Lister.

(** [new Date(Number(resetTs) * 1000).toLocaleString()], left to the host. *)
Variable reset_text : str -> str.

Definition forbidden_message (r : response) : str :=
  let msg :=
    match json_message r with
    | Some m => if truthy m then m
                else if truthy (rawText r) then rawText r
                else lit "GitHub API rate-limited or forbidden"
    | None => if truthy (rawText r) then rawText r
              else lit "GitHub API rate-limited or forbidden"
    end in
  msg
  ++ match ratelimit_remaining r with
     | Some remaining => lit " (remaining: " ++ remaining ++ lit ")"
     | None => []
     end
  ++ match ratelimit_reset r with
     | Some resetTs =>
         if truthy resetTs then lit " (reset: " ++ reset_text resetTs ++ lit ")"
         else []
     | None => []
     end.

(** The error thrown for a response that is not ok. *)
Definition http_error (r : response) : exn :=
  if status r =? 404 then
    Error (lit "Repo not found (check owner/repo spelling and access)")
  else if status r =? 401 then
    Error (lit "Unauthorized: token invalid or missing required scopes")
  else if status r =? 403 then Error (forbidden_message r)
  else Error (lit "GitHub API error: " ++ lit (pretty (status r))).

(** [while (nextUrl) { ... }], run against the sequence of outcomes of the
    successive fetches.  Whatever a server does, it answers the k-th fetch
    with something; a sequence of answers therefore stands for every
    server, also one that looks at the requested URL.  The progress
    snapshot and the cooperative pause of every third page do not alter
    the loop state and are left out. *)
Fixpoint list_pages (responses : list fetched) (st : lister) : listing :=
  if negb (truthy (nextUrl st)) then Listed st responses
  else if decide (nextUrl st ∈ seenPageUrls st) then Listed st responses
  else
    match responses with
    | [] => Awaiting st
    | Rejected e :: _ => Raised e
    | Resolved resp :: rest =>
        let seenPageUrls := {[nextUrl st]} ∪ seenPageUrls st in
        let pageCount := S (pageCount st) in
        if negb (ok resp) then Raised (http_error resp)
        else
          match body resp with
          | JArray (c :: items) =>
              let '(allCommits, seenShas) :=
                fold_left collect (c :: items) (allCommits st, seenShas st) in
              list_pages rest
                (mkLister allCommits seenShas seenPageUrls (next_link resp) pageCount)
          | _ =>
              Listed
                (mkLister (allCommits st) (seenShas st) seenPageUrls (nextUrl st) pageCount)
                rest
          end
    end.

(** The first page: [per_page=100], followed by the parameter that pins
    the default branch when one was resolved; [owner] and [name] are
    already URI-encoded. *)
Definition first_url (owner name pin : str) : str :=
  lit "https://api.github.com/repos/" ++ owner ++ lit "/" ++ name
  ++ lit "/commits?per_page=100" ++ pin.

Definition lister_start (url : str) : lister := mkLister [] ∅ ∅ url 0.

(** Step 1 of the pipeline up to and with the check that follows the
    loop; [None] when the loop is still fetching at the end of the
    responses. *)
Definition fetch_all (url : str) (responses : list fetched)
    : option (exn + list commit) :=
  match list_pages responses (lister_start url) with
  | Awaiting _ => None
  | Raised e => Some (inl e)
  | Listed st _ =>
      match allCommits st with
      | [] => Some (inl (Error (lit "No commits found")))
      | _ :: _ => Some (inr (allCommits st))
      end
  end.

End Lister.

(** The state a run of the loop stopped in, and what it left unread. *)
Definition run_state (l : listing) : lister :=
  match l with
  | Listed st _ => st
  | Awaiting st => st
  | Raised _ => mkLister [] ∅ ∅ [] 0
  end.

Definition run_rest (l : listing) : list fetched :=
  match l with
  | Listed _ rest => rest
  | _ => []
  end.

Definition is_listed (l : listing) : bool :=
  match l with
  | Listed _ _ => true
  | _ => false
  end.

Definition is_awaiting (l : listing) : bool :=
  match l with
  | Awaiting _ => true
  | _ => false
  end.

(** ** DetailFetchPool: the workers of [analyzeCommits] *)

Record snapshot : Type := mkSnapshot {
  current : Z;
  total : Z;
  pct : Q
}.

(** [json.stats] of a commit detail, with [|| 0] applied. *)
Record stats : Type := mkStats {
  additions : Z;
  deletions : Z
}.

(** Where a worker stands between two of its suspension points. *)
Inductive worker : Type :=
  | Fetching (my : nat)    (* awaiting the detail of [allCommits[my]] *)
  | Pausing                (* awaiting [sleep(0)] after a snapshot *)
  | Finished.              (* left its loop *)

Record pool : Type := mkPool {
  idx : nat;
  workers : list worker;
  totalLinesAdded : Z;
  totalLinesDeleted : Z;
  commitSizes : list Z;
  published : list snapshot;   (* what [setProgresses] was given, oldest first *)
  settled : list nat           (* ghost: the indices whose fetch is over, in
                                  the order in which they completed *)
}.

Definition CONCURRENCY : Z := 10.

(** [clamp(CONCURRENCY, 1, 12)]. *)
Definition workerCount : nat := Z.to_nat (Z.max 1 (Z.min 12 CONCURRENCY)).

Section Pool.

(** [allCommits.length]. *)
Variable n : nat.

(** [const my = idx++; if (my >= allCommits.length) break;] and the start
    of the fetch, by worker [i]. *)
Definition claim (i : nat) (p : pool) : pool :=
  let my := idx p in
  mkPool (S my)
    (<[i := if (n <=? my)%nat then Finished else Fetching my]> (workers p))
    (totalLinesAdded p) (totalLinesDeleted p) (commitSizes p)
    (published p) (settled p).

(** [Array.from({ length: workerCount }, async () => ...)]: each worker
    runs up to its first [await] as it is created. *)
Definition pool_start (workerCount : nat) : pool :=
  fold_left (fun p i => claim i p) (seq 0 workerCount)
    (mkPool 0 (replicate workerCount Finished) 0 0 [] [] []).

(** The snapshot of the [finally] block of item [my]. *)
Definition snapshot_of (my : nat) : snapshot :=
  let done := Z.min (Z.of_nat my + 1) (Z.of_nat n) in
  let pct := (inject_Z done / inject_Z (Z.of_nat n) * 100)%Q in
  mkSnapshot done (Z.of_nat n) pct.

(** The fetch of worker [i] is over: with [Some] statistics when the
    response was ok and had them, with [None] when it had none or the
    fetch failed (a failure other than a cancellation is swallowed).
    The per-extension counts are left out. *)
Definition settle (i : nat) (o : option stats) (p : pool) : option pool :=
  match workers p !! i with
  | Some (Fetching my) =>
      let '(added, deleted, sizes) :=
        match o with
        | Some s =>
            (totalLinesAdded p + additions s, totalLinesDeleted p + deletions s,
             commitSizes p ++ [additions s + deletions s])
        | None => (totalLinesAdded p, totalLinesDeleted p, commitSizes p)
        end in
      if (my mod 6 =? 0)%nat then
        Some (mkPool (idx p) (<[i := Pausing]> (workers p)) added deleted sizes
                (published p ++ [snapshot_of my]) (settled p ++ [my]))
      else
        Some (claim i
                (mkPool (idx p) (workers p) added deleted sizes
                   (published p) (settled p ++ [my])))
  | _ => None
  end.

(** [sleep(0)] of worker [i] is over: back to the head of its loop. *)
Definition wake (i : nat) (p : pool) : option pool :=
  match workers p !! i with
  | Some Pausing => Some (claim i p)
  | _ => None
  end.

(** The scheduler resumes one worker at a time. *)
Inductive event : Type :=
  | Settle (i : nat) (o : option stats)
  | Wake (i : nat).

Definition pool_step (e : event) (p : pool) : option pool :=
  match e with
  | Settle i o => settle i o p
  | Wake i => wake i p
  end.

Fixpoint pool_run (es : list event) (p : pool) : option pool :=
  match es with
  | [] => Some p
  | e :: es' =>
      match pool_step e p with
      | Some p' => pool_run es' p'
      | None => None
      end
  end.

(** The states the pool can be in. *)
Definition reachable (workerCount : nat) (p : pool) : Prop :=
  exists es, pool_run es (pool_start workerCount) = Some p.



End Pool.

(** ** AnalysisOrchestrator: [analyzeCommits] *)

Record developer : Type := mkDeveloper {
  id : Z;
  username : str;
  repo : str;
  token : str
}.

(** The record handed to [setResults], without the chart series. *)
Record result : Type := mkResult {
  res_totalCommits : Z;
  res_onTimeCount : Z;
  res_lateCount : Z;
  res_messageQualityScore : Z;
  res_consistencyScore : jsnum;
  res_avgCommitSize : jsnum;
  res_totalLinesAdded : Z;
  res_totalLinesDeleted : Z;
  res_experienceLevel : experience
}.

(** The per-developer state bags of the component; the progress bag, which
    decides nothing, is left out. *)
Record store : Type := mkStore {
  loadingStates : gmap Z bool;
  phases : gmap Z string;
  errors : gmap Z str;
  results : gmap Z result
}.

Definition setLoadingStates (devId : Z) (b : bool) (a : store) : store :=
  mkStore (<[devId := b]> (loadingStates a)) (phases a) (errors a) (results a).

Definition setPhases (devId : Z) (ph : string) (a : store) : store :=
  mkStore (loadingStates a) (<[devId := ph]> (phases a)) (errors a) (results a).

Definition setErrors (devId : Z) (msg : str) (a : store) : store :=
  mkStore (loadingStates a) (phases a) (<[devId := msg]> (errors a)) (results a).

Definition setResults (devId : Z) (r : result) (a : store) : store :=
  mkStore (loadingStates a) (phases a) (errors a) (<[devId := r]> (results a)).

Definition deleteResults (devId : Z) (a : store) : store :=
  mkStore (loadingStates a) (phases a) (errors a) (delete devId (results a)).

(** The answer to the metadata request. *)
Record meta_response : Type := mkMeta {
  meta_ok : bool;
  meta_status : Z;
  meta_json : bool;                 (* the body parsed to a truthy value *)
  default_branch : option str;
  meta_message : option str;        (* json && (json.message || json.error) *)
  meta_rawText : str
}.

Inductive meta_fetched : Type :=
  | MetaResolved (m : meta_response)
  | MetaRejected (e : exn).

Definition could_not_read : str :=
  lit "Could not read repo metadata. Falling back to commit listing.".

(** Step 0: the default branch and the warning, or the cancellation that
    the handler lets through.  The error thrown for status 404 is raised
    inside the [try] block, so the handler of that block turns it into the
    warning of an unreadable metadata. *)
Definition probe (metaRes : meta_fetched) : exn + (str * str) :=
  match metaRes with
  | MetaRejected AbortError => inl AbortError
  | MetaRejected (Error _) => inr ([], could_not_read)
  | MetaResolved m =>
      if meta_ok m && meta_json m then
        inr (match default_branch m with Some b => b | None => [] end, [])
      else
        let msg :=
          match meta_message m with
          | Some t => if truthy t then t else meta_rawText m
          | None => meta_rawText m
          end in
        if meta_status m =? 403 then
          inr ([], lit "Repo metadata blocked (403). Falling back to commit listing."
                   ++ (if truthy msg then lit " (" ++ msg ++ lit ")" else []))
        else if meta_status m =? 404 then inr ([], could_not_read)
        else if meta_status m =? 401 then
          inr ([], lit "Token unauthorized (401). Falling back to unauthenticated commit listing.")
        else
          inr ([], lit "Repo metadata unavailable (" ++ lit (pretty (meta_status m))
                   ++ lit "). Falling back to commit listing.")
  end.

Section Orchestrator.

Variable Date_getTime : str -> option Z.
Variable Date_getHours : Z -> Z.
Variable WORK_START WORK_END : Z.
Variable reset_text : str -> str.
Variable encodeURIComponent : str -> str.

(** Step 3 as a whole: the pool once every worker has finished, or the
    cancellation that aborted it. *)
Variable fetch_details : list commit -> exn + pool.

(** Step 4 and the result record.  The consistency score and the average
    size are computed in doubles; the on-time percentage and the message
    score are the exact quotients, which give the scorer and the record
    what the doubles give them ([figures_in_doubles]). *)
Definition derive (allCommits : list commit) (p : pool) : result :=
  let b := base_pass Date_getTime Date_getHours WORK_START WORK_END allCommits in
  let totalCommits := Z.of_nat (length allCommits) in
  let onTimePercentage :=
    onTimePercentage Date_getTime Date_getHours WORK_START WORK_END allCommits in
  let messageQualityScore :=
    messageQualityScore Date_getTime Date_getHours WORK_START WORK_END allCommits in
  let consistencyScore := consistencyScore (commitDates b) in
  let avgCommitSize :=
    match commitSizes p with
    | [] => Fin 0
    | _ :: _ =>
        Math_round_num
          (jsdiv (jsnum_of_Z (fold_left Z.add (commitSizes p) 0))
             (jsnum_of_Z (Z.of_nat (length (commitSizes p)))))
    end in
  mkResult totalCommits (onTimeCount b) (lateCount b) messageQualityScore
    (Math_round_num consistencyScore) avgCommitSize
    (totalLinesAdded p) (totalLinesDeleted p)
    (Experience.calculateExperienceLevel
       (jsnum_of_Z totalCommits) (Fin onTimePercentage)
       (jsnum_of_Z messageQualityScore) (Math_round_num consistencyScore)).

(** The [try] block: the state it leaves and how it ends; [None] when the
    listing is still fetching at the end of the responses. *)
Definition pipeline (dev : developer) (metaRes : meta_fetched)
    (responses : list fetched) (a : store) : option (store * (exn + result)) :=
  let devId := id dev in
  let owner := encodeURIComponent (trim (username dev)) in
  let name := encodeURIComponent (trim (repo dev)) in
  match probe metaRes with
  | inl e => Some (a, inl e)
  | inr (defaultBranch, metaWarning) =>
      let a := if truthy metaWarning then setErrors devId metaWarning a else a in
      let url :=
        first_url owner name
          (if truthy defaultBranch
           then lit "&sha=" ++ encodeURIComponent defaultBranch else []) in
      match fetch_all reset_text url responses with
      | None => None
      | Some (inl e) => Some (a, inl e)
      | Some (inr allCommits) =>
          let a := setPhases devId "details" a in
          match fetch_details allCommits with
          | inl e => Some (a, inl e)
          | inr p => Some (a, inr (derive allCommits p))
          end
      end
  end.

(** [analyzeCommits] for the developer [dev], up to the settling of its
    promise (the timer that later turns the phase [done] into [idle] is
    not part of it). *)
Definition analyzeCommits (dev : developer) (metaRes : meta_fetched)
    (responses : list fetched) (a : store) : option store :=
  let devId := id dev in
  if negb (truthy (trim (username dev))) || negb (truthy (trim (repo dev))) then
    Some (setErrors devId (lit "Please enter both owner and repository name") a)
  else
    let a := setLoadingStates devId true a in
    let a := setPhases devId "listing" a in
    let a := setErrors devId [] a in
    let a := deleteResults devId a in
    match pipeline dev metaRes responses a with
    | None => None
    | Some (a, outcome) =>
        let a :=
          match outcome with
          | inr resultData =>
              let a := setResults devId resultData a in
              setPhases devId "done" a
          | inl AbortError =>
              let a := setErrors devId (lit "Stopped.") a in
              setPhases devId "idle" a
          | inl (Error message) =>
              let a :=
                setErrors devId
                  (if truthy message then message else lit "Something went wrong") a in
              setPhases devId "idle" a
          end in
        Some (setLoadingStates devId false a)
    end.

End Orchestrator.

(** ** Notions of the specification

    The definitions below follow the words of the specification, not the
    code; the theorems compare the code with them. *)

(** [needle] occurs in [hay]. *)
Definition occurs_in (needle hay : str) : Prop :=
  exists a b, hay = a ++ needle ++ b.

(** A part of a [Link] header: a well-formed entry, an opening bracket, the
    URL, a closing bracket, a semicolon, a space, [rel=] and the quoted
    relation name, after some white space; or such an entry without the two
    angle brackets; or a part that lacks [rel=]. *)
Inductive link_entry : Type :=
  | Entry (pad url rel : str)
  | Unbracketed (pad url rel : str)
  | NoRel (text : str).

Definition render_entry (e : link_entry) : str :=
  match e with
  | Entry pad url rel =>
      pad ++ lit "<" ++ url ++ lit ">; rel=" ++ [dquote] ++ rel ++ [dquote]
  | Unbracketed pad url rel =>
      pad ++ url ++ lit "; rel=" ++ [dquote] ++ rel ++ [dquote]
  | NoRel text => text
  end.

(** [parts.join(sep)]. *)
Fixpoint join (sep : ascii) (parts : list str) : str :=
  match parts with
  | [] => []
  | p :: ps =>
      match ps with
      | [] => p
      | _ :: _ => p ++ sep :: join sep ps
      end
  end.

Definition render_header (es : list link_entry) : str :=
  join "," (map render_entry es).

(** The (relation, URL) pairs of the entries, with or without brackets,
    in order. *)
Fixpoint relations (es : list link_entry) : list (str * str) :=
  match es with
  | [] => []
  | Entry _ url rel :: es' => (rel, url) :: relations es'
  | Unbracketed _ url rel :: es' => (rel, url) :: relations es'
  | NoRel _ :: es' => relations es'
  end.

(** The URL of the last pair of a relation name, if there is one. *)
Fixpoint last_url (rel : str) (pairs : list (str * str)) : option str :=
  match pairs with
  | [] => None
  | (r, u) :: rest =>
      match last_url rel rest with
      | Some v => Some v
      | None => if decide (r = rel) then Some u else None
      end
  end.

(** The relation names of a list of pairs. *)
Definition names (pairs : list (str * str)) : gset str := list_to_set (map fst pairs).

(** What a URL and a relation name must be for the parser to read them
    back as written: not empty, without the two separators, the name
    without a line terminator and not the prototype key. *)
Definition plain (url rel : str) : Prop :=
  url <> [] /\ rel <> []
  /\ ~ In ","%char url /\ ~ In ";"%char url
  /\ ~ In ","%char rel /\ ~ In ";"%char rel
  /\ Forall (fun c => is_line_terminator c = false) rel
  /\ rel <> JsObject.proto_key.

(** The entries the parser reads back as written: URL and name are not
    empty and hold neither of the two separators, the name holds no line
    terminator and is not the prototype key; a URL without brackets neither
    starts nor ends with white space or with a bracket of its side; a part
    without [rel=] holds no comma. *)
Definition readable (e : link_entry) : Prop :=
  match e with
  | Entry pad url rel =>
      Forall (fun c => is_space c = true) pad
      /\ url <> [] /\ rel <> []
      /\ ~ In ","%char url /\ ~ In ";"%char url
      /\ ~ In ","%char rel /\ ~ In ";"%char rel
      /\ Forall (fun c => is_line_terminator c = false) rel
      /\ rel <> JsObject.proto_key
  | Unbracketed pad url rel =>
      Forall (fun c => is_space c = true) pad
      /\ plain url rel
      /\ (exists c r, url = c :: r /\ is_space c = false /\ c <> "<"%char)
      /\ (exists r c, url = r ++ [c] /\ is_space c = false /\ c <> ">"%char)
  | NoRel text => ~ In ","%char text /\ ~ occurs_in rel_head text
  end.

(** The conventional-commit types the specification names. *)
Definition commit_types : list string :=
  ["feat"; "fix"; "docs"; "refactor"; "test"; "chore"; "style"; "perf"]%string.

(** The letters, each small one with its capital. *)
Definition small_letters : str := lit "abcdefghijklmnopqrstuvwxyz".
Definition capital_letters : str := lit "ABCDEFGHIJKLMNOPQRSTUVWXYZ".
Definition letter_pairs : list (ascii * ascii) := combine small_letters capital_letters.

(** Two characters that are the same but for the case of a letter. *)
Definition same_but_case (a b : ascii) : Prop :=
  a = b \/ In (a, b) letter_pairs \/ In (b, a) letter_pairs.

(** The message starts with one of the conventional types, its letters in
    any case, and a colon. *)
Definition conventional_prefix (message : str) : Prop :=
  exists ty p rest,
    In ty commit_types /\ message = p ++ ":"%char :: rest
    /\ Forall2 same_but_case p (lit ty).

(** The ten digits. *)
Definition digits : str := lit "0123456789".

(** The message holds a hash sign followed by a digit. *)
Definition issue_reference (message : str) : Prop :=
  exists a d b, message = a ++ "#"%char :: d :: b /\ In d digits.

Definition indicator (b : bool) : Z := if b then 25 else 0.

Section SpecMetrics.

Variable Date_getTime : str -> option Z.

(** The commits with a present and parsable author timestamp. *)
Definition dated (allCommits : list commit) : list commit :=
  List.filter (fun c => bool_decide (is_Some (commit_time Date_getTime c))) allCommits.

(** The mean of the message scores over the dated commits, rounded. *)
Definition mean_message_score (allCommits : list commit) : Z :=
  match dated allCommits with
  | [] => 0
  | _ :: _ =>
      Math_round
        (inject_Z (fold_left Z.add (map (fun c => messageScore (message_text c))
                                      (dated allCommits)) 0)
         / inject_Z (Z.of_nat (length (dated allCommits))))
  end.

End SpecMetrics.

(** The gaps, in days, between neighbours of a list of instants. *)
Definition day_gaps (instants : list Z) : list Q :=
  zip_with (fun a b => (inject_Z (b - a) / inject_Z ms_per_day)%Q)
    instants (tail instants).

(** The gap from one instant to a later one in days of 86400000
    milliseconds, as a JavaScript number. *)
Definition gap_in_days (earlier later : Z) : jsnum :=
  jsdiv (jssub (jsnum_of_Z later) (jsnum_of_Z earlier)) (Fin 86400000).

(** The gaps between the neighbours of a list of instants. *)
Definition consecutive_gaps (instants : list Z) : list jsnum :=
  zip_with gap_in_days instants (tail instants).

(** A gap that counts: a finite number that is not negative. *)
Definition valid_gap (g : jsnum) : bool :=
  match g with
  | Fin q => Qle_bool 0 q
  | _ => false
  end.

(** The average of the gaps that count, added up from the first one on;
    0 when there is none. *)
Definition average_gap (instants : list Z) : jsnum :=
  let gaps := List.filter valid_gap (consecutive_gaps instants) in
  match gaps with
  | [] => Fin 0
  | _ :: _ =>
      jsdiv (fold_left jsadd gaps (Fin 0)) (jsnum_of_Z (Z.of_nat (length gaps)))
  end.

(** A number limited to the range from 0 to 100: 0 when it is at most 0,
    100 when it is at least 100, itself otherwise. *)
Definition limited (x : jsnum) : jsnum :=
  match x with
  | NaN => NaN
  | NegInf => Fin 0
  | PosInf => Fin 100
  | Fin q => if Qle_bool q 0 then Fin 0 else if Qle_bool 100 q then Fin 100 else x
  end.

(** The identifier of a commit item, when it has one. *)
Definition identifier (c : commit) : option str :=
  match sha c with
  | Some s => if truthy s then Some s else None
  | None => None
  end.

(** Step 3 of the lister in the words of the specification: skip an item
    whose identifier was already seen, otherwise append it and mark it
    seen. *)
Fixpoint keep_first (seen : gset str) (items : list commit) : list commit :=
  match items with
  | [] => []
  | c :: r =>
      match identifier c with
      | Some s =>
          if decide (s ∈ seen) then keep_first seen r
          else c :: keep_first ({[s]} ∪ seen) r
      | None => c :: keep_first seen r
      end
  end.

(** The items a response delivers to the collecting loop. *)
Definition page_items (f : fetched) : list commit :=
  match f with
  | Resolved r => match body r with JArray items => items | JOther => [] end
  | Rejected _ => []
  end.

(** How often the identifier [s] occurs in a list of commits. *)
Definition occurrences (s : str) (l : list commit) : nat :=
  length (List.filter (fun c => bool_decide (sha c = Some s)) l).

(** The first [k] answers of a server. *)
Definition answers (server : nat -> fetched) (k : nat) : list fetched :=
  map server (seq 0 k).

(** The identifiers of a list of commits. *)
Definition ids (l : list commit) : gset str := list_to_set (omap identifier l).

(** The two segments of a well-formed entry, before and after its
    semicolon. *)
Definition url_segment (pad url : str) : str :=
  pad ++ "<"%char :: url ++ [">"%char].

Definition rel_segment (rel : str) : str :=
  " "%char :: rel_head ++ rel ++ [dquote].

(** [links[rel] = url] for a relation that is not the prototype key. *)
Definition store_relation (links : gmap str str) (ru : str * str) : gmap str str :=
  <[ru.1 := ru.2]> links.

(** ** Fixtures *)

Definition page_one_url : str :=
  lit "https://api.github.com/repos/o/r/commits?per_page=100".

Definition page_two_url : str :=
  lit "https://api.github.com/repositories/1/commits?per_page=100&page=2".

Definition page_ten_url : str :=
  lit "https://api.github.com/repositories/1/commits?per_page=100&page=10".

(** The header of the development tests of the component, and a part
    without [rel=] after it. *)
Definition github_links : list link_entry :=
  [Entry [] page_two_url (lit "next");
   Entry (lit " ") page_ten_url (lit "last");
   NoRel (lit " <https://x.test/c>")].

(** Two well-formed entries of one relation. *)
Definition same_relation_twice : list link_entry :=
  [Entry [] (lit "https://x.test/a") (lit "next");
   Entry (lit " ") (lit "https://x.test/b") (lit "next")].

(** A header with two entries of one relation, the second without angle
    brackets, an entry of another relation and a part without [rel=]. *)
Definition mixed_links : list link_entry :=
  [Entry [] (lit "https://x.test/a") (lit "next");
   Unbracketed (lit " ") (lit "https://x.test/b") (lit "next");
   Entry (lit " ") (lit "https://x.test/z") (lit "last");
   NoRel (lit " <https://x.test/c>")].

(** An entry without angle brackets. *)
Definition bare_entry : str :=
  lit "https://x.test/a; rel=" ++ [dquote] ++ lit "next" ++ [dquote].

(** A dated commit whose message scores 100, a commit without an author
    date, and a third commit. *)
Definition dated_commit : commit :=
  mkCommit (Some (lit "a1")) (Some (lit "2024-01-01T10:00:00Z"))
    (Some (lit "fix: stop paging on link cycles #42"))
    (lit "https://api.github.com/repos/o/r/commits/a1").

Definition undated_commit : commit :=
  mkCommit (Some (lit "b2")) None (Some (lit "wip"))
    (lit "https://api.github.com/repos/o/r/commits/b2").

Definition third_commit : commit :=
  mkCommit (Some (lit "c3")) (Some (lit "2024-01-03T10:00:00Z"))
    (Some (lit "docs: describe the listing"))
    (lit "https://api.github.com/repos/o/r/commits/c3").

(** An ok page of commit items, with a [next] link or without one. *)
Definition page (items : list commit) (next : option str) : response :=
  mkResponse true 200
    (option_map (fun u => render_header [Entry [] u (lit "next")]) next)
    (JArray items) None [] None None.

(** Two pages that share a commit. *)
Definition shared_pages : list fetched :=
  [Resolved (page [dated_commit; undated_commit] (Some page_two_url));
   Resolved (page [undated_commit; third_commit] None)].

(** A server whose second page links back to the first, for ever. *)
Definition cyclic_server (k : nat) : fetched :=
  match k with
  | O => Resolved (page [dated_commit] (Some page_two_url))
  | S _ => Resolved (page [undated_commit] (Some page_one_url))
  end.

(** A repository whose first page holds no commit. *)
Definition empty_listing : list fetched := [Resolved (page [] None)].

Definition some_developer : developer := mkDeveloper 1 (lit "o") (lit " r ") [].

Definition empty_store : store := mkStore ∅ ∅ ∅ ∅.


(** * Further functions of the component *)

(** ** [safeExt] *)

(** [String.prototype.toLowerCase] on a code unit below 256: the ASCII
    capitals and the accented capitals of Latin-1 (all of U+00C0 to U+00DE
    but the multiplication sign) move up by 32. *)
Definition lower_char (c : ascii) : ascii :=
  let n := N_of_ascii c in
  if (((65 <=? n) && (n <=? 90)) || ((192 <=? n) && (n <=? 214))
      || ((216 <=? n) && (n <=? 222)))%N
  then ascii_of_N (n + 32) else c.

Definition toLowerCase (s : str) : str := map lower_char s.

Definition no_ext : str := lit "(no-ext)".

(** The argument is [None] for a missing file name ([f?.filename] of an
    item without one); [parts.pop()] is the last element of a list that
    [split] never leaves empty. *)
Definition safeExt (filename : option str) : str :=
  let name := match filename with Some f => f | None => [] end in
  let base := List.last (split "/" name) [] in
  let parts := split "." base in
  if (length parts <? 2)%nat then no_ext
  else
    let ext := List.last parts [] in
    toLowerCase (if truthy ext then ext else no_ext).

(** ** The histogram of commit sizes *)

Record size_range : Type := mkRange {
  range : string;
  count : Z
}.

Definition sizeRanges : list size_range :=
  [mkRange "0-50" 0; mkRange "51-100" 0; mkRange "101-200" 0;
   mkRange "201-500" 0; mkRange "500+" 0].

(** [sizeRanges[i].count++]. *)
Definition count_up (i : nat) (ranges : list size_range) : list size_range :=
  alter (fun r => mkRange (range r) (count r + 1)) i ranges.

(** One turn of [commitSizes.forEach]. *)
Definition size_step (ranges : list size_range) (size : Z) : list size_range :=
  if size <=? 50 then count_up 0 ranges
  else if size <=? 100 then count_up 1 ranges
  else if size <=? 200 then count_up 2 ranges
  else if size <=? 500 then count_up 3 ranges
  else count_up 4 ranges.

Definition commitSizeDistribution (commitSizes : list Z) : list size_range :=
  fold_left size_step commitSizes sizeRanges.

(** ** The timeline of intervals *)

Record timeline_point : Type := mkPoint {
  commit_label : str;
  days : Q
}.

Section Timeline.

(** [Number(x.toFixed(1))], the rounding of a double to one decimal, is
    left to the host. *)
Variable toFixed1 : Q -> Q.

(** One turn of the counting loop; [None] stands for the [TypeError] of a
    read past the end of the array. *)
Definition timeline_step (sortedDates : list Z)
    (acc : option (list timeline_point)) (i : nat) : option (list timeline_point) :=
  match acc, sortedDates !! (i + 1)%nat, sortedDates !! i with
  | Some timeline, Some next, Some this =>
      let diffDays := (inject_Z (next - this) / inject_Z ms_per_day)%Q in
      Some (timeline
            ++ [mkPoint (lit "#" ++ lit (pretty (Z.of_nat i + 1))) (toFixed1 diffDays)])
  | _, _, _ => None
  end.

(** [for (let i = 0; i < Math.min(sortedDates.length - 1, 30); i++)]; the
    bound does not change while the loop runs. *)
Definition timeline_loop (sortedDates : list Z) : option (list timeline_point) :=
  let bound := Z.min (Z.of_nat (length sortedDates) - 1) 30 in
  fold_left (timeline_step sortedDates) (seq 0 (Z.to_nat bound)) (Some []).

(** The field of the result record, with its stand-in for an empty
    timeline. *)
Definition consistencyTimeline (commitDates : list Z) : option (list timeline_point) :=
  match timeline_loop (sortedDates commitDates) with
  | Some [] => Some [mkPoint (lit "#1") 0]
  | other => other
  end.

End Timeline.

(** ** [cleanDomain] *)

(** [s.replace(re, "")] for the anchored pattern of the two web schemes. *)
Definition drop_scheme (s : str) : str :=
  if starts_with (lit "https://") s then skipn 8 s
  else if starts_with (lit "http://") s then skipn 7 s
  else s.

(** [s.replace(re, "")] for the pattern of one slash at the end. *)
Definition drop_last_slash (s : str) : str :=
  match rev s with
  | c :: r => if Ascii.eqb c "/" then rev r else s
  | [] => s
  end.

Definition cleanDomain (domain : str) : str :=
  drop_last_slash (drop_scheme domain).

(** ** The CSV export *)

Definition newline : ascii := ascii_of_N 10.

(** [str.replace(re, ...)] for the global pattern of a double quote: every
    double quote is written twice. *)
Fixpoint double_quotes (s : str) : str :=
  match s with
  | [] => []
  | c :: r => if Ascii.eqb c dquote then dquote :: dquote :: double_quotes r
              else c :: double_quotes r
  end.

(** [str.includes(c)]. *)
Definition includes (c : ascii) (s : str) : bool := existsb (Ascii.eqb c) s.

(** [escapeCSV], on a value that is a string already. *)
Definition escapeCSV (value : str) : str :=
  if includes "," value || includes dquote value || includes newline value
  then dquote :: double_quotes value ++ [dquote]
  else value.

(** [[headers, ...rows].map(row => row.map(escapeCSV).join(",")).join(newline)]. *)
Definition csvContent (table : list (list str)) : str :=
  join newline (map (fun row => join "," (map escapeCSV row)) table).

Definition carriage_return : ascii := ascii_of_N 13.

(** A reader of CSV text, which the component itself does not have: the
    way the exported file is read back (it is the reading of Python's
    [csv.reader] in its default dialect).  Outside a quoted field a comma
    ends the field and a line feed, a carriage return or the two in a row
    end the record; a field that opens with a double quote runs to its
    closing double quote, two double quotes in a row standing for one; a
    blank line is a record without a field, and the end of the text ends
    the record that has begun.  The accumulators hold the current field,
    record and table in reverse. *)
Inductive csv_mode : Type :=
  | RecordStart        (* nothing of the record has been read *)
  | ReturnSeen         (* a carriage return has just ended a record *)
  | FieldStart         (* a comma has just been read *)
  | Bare               (* within a field without quotes *)
  | Quoted             (* within a quoted field *)
  | QuoteSeen.         (* after a double quote within a quoted field *)

Fixpoint csv_read (mode : csv_mode) (field : str) (row : list str)
    (table : list (list str)) (s : str) : list (list str) :=
  match s with
  | [] =>
      match mode with
      | RecordStart | ReturnSeen => rev table
      | _ => rev (rev (rev field :: row) :: table)
      end
  | c :: r =>
      match mode with
      | Quoted =>
          if Ascii.eqb c dquote then csv_read QuoteSeen field row table r
          else csv_read Quoted (c :: field) row table r
      | _ =>
          if Ascii.eqb c newline then
            match mode with
            | ReturnSeen => csv_read RecordStart [] [] table r
            | RecordStart => csv_read RecordStart [] [] ([] :: table) r
            | _ => csv_read RecordStart [] [] (rev (rev field :: row) :: table) r
            end
          else if Ascii.eqb c carriage_return then
            match mode with
            | RecordStart | ReturnSeen => csv_read ReturnSeen [] [] ([] :: table) r
            | _ => csv_read ReturnSeen [] [] (rev (rev field :: row) :: table) r
            end
          else if Ascii.eqb c dquote then
            match mode with
            | Bare => csv_read Bare (c :: field) row table r
            | QuoteSeen => csv_read Quoted (c :: field) row table r
            | _ => csv_read Quoted field row table r
            end
          else if Ascii.eqb c "," then
            csv_read FieldStart [] (rev field :: row) table r
          else csv_read Bare (c :: field) row table r
      end
  end.

Definition csv_parse (s : str) : list (list str) := csv_read RecordStart [] [] [] s.

(** ** The roster of developers *)

Definition MAX_DEVELOPERS : nat := 10.

(** The developer cards and the counter of [generateId]. *)
Record roster : Type := mkRoster {
  developers : list developer;
  nextId : Z
}.

Definition blank_developer (id : Z) : developer := mkDeveloper id [] [] [].

Definition addDeveloper (r : roster) : roster :=
  if (MAX_DEVELOPERS <=? length (developers r))%nat then r
  else mkRoster (developers r ++ [blank_developer (nextId r)]) (nextId r + 1).

(** The cards and the state bags after [removeDeveloper(id)]; the abort of
    a running analysis and the two bags the store leaves out are not
    shown. *)
Definition removeDeveloper (devId : Z) (r : roster) (a : store) : roster * store :=
  if (length (developers r) <=? 1)%nat then (r, a)
  else
    (mkRoster (List.filter (fun d => negb (id d =? devId)) (developers r)) (nextId r),
     mkStore (delete devId (loadingStates a)) (delete devId (phases a))
       (delete devId (errors a)) (delete devId (results a))).

(** The three fields the cards edit. *)
Inductive developer_field : Type :=
  | Username
  | Repo
  | Token.

Definition set_field (field : developer_field) (value : str) (d : developer)
    : developer :=
  match field with
  | Username => mkDeveloper (id d) value (repo d) (token d)
  | Repo => mkDeveloper (id d) (username d) value (token d)
  | Token => mkDeveloper (id d) (username d) (repo d) value
  end.

Definition updateDeveloper (devId : Z) (field : developer_field) (value : str)
    (r : roster) : roster :=
  mkRoster
    (map (fun d => if id d =? devId then set_field field value d else d) (developers r))
    (nextId r).

(** [loadFromHistory] for an entry of the given owner and repository: the
    identifier of the new card is drawn before the list is looked at. *)
Definition loadFromHistory (owner repository : str) (r : roster) : roster :=
  let newDev := mkDeveloper (nextId r) owner repository [] in
  let exists_ :=
    existsb (fun d => bool_decide (username d = owner)
                      && bool_decide (repo d = repository)) (developers r) in
  if exists_ then mkRoster (developers r) (nextId r + 1)
  else if (MAX_DEVELOPERS <=? length (developers r))%nat
       then mkRoster (developers r) (nextId r + 1)
  else mkRoster (developers r ++ [newDev]) (nextId r + 1).

(** What a user does to the roster. *)
Inductive roster_action : Type :=
  | AddDeveloper
  | RemoveDeveloper (devId : Z)
  | UpdateDeveloper (devId : Z) (field : developer_field) (value : str)
  | LoadFromHistory (owner repository : str).

Definition roster_step (ra : roster * store) (act : roster_action) : roster * store :=
  match act with
  | AddDeveloper => (addDeveloper ra.1, ra.2)
  | RemoveDeveloper devId => removeDeveloper devId ra.1 ra.2
  | UpdateDeveloper devId field value => (updateDeveloper devId field value ra.1, ra.2)
  | LoadFromHistory owner repository => (loadFromHistory owner repository ra.1, ra.2)
  end.

(** The component as it is mounted: one blank card, whose identifier the
    counter has passed. *)
Definition roster_start (first : Z) : roster :=
  mkRoster [blank_developer first] (first + 1).

(** ** The search history *)

Record history_entry : Type := mkEntry {
  entry_id : Z;                 (* Date.now() *)
  entry_owner : str;
  entry_repo : str;
  analyzedAt : str;
  summary : result
}.

Definition same_repository (owner repository : str) (h : history_entry) : bool :=
  bool_decide (entry_owner h = owner) && bool_decide (entry_repo h = repository).

(** The updater of [addToHistory]: the list that is stored and saved. *)
Definition addToHistory (now : Z) (iso : str) (owner repository : str) (r : result)
    (prev : list history_entry) : list history_entry :=
  let historyEntry := mkEntry now owner repository iso r in
  let filtered :=
    List.filter (fun h => negb (same_repository owner repository h)) prev in
  firstn 50 (historyEntry :: filtered).

Definition removeFromHistory (historyId : Z) (prev : list history_entry)
    : list history_entry :=
  List.filter (fun h => negb (entry_id h =? historyId)) prev.

(** ** Notions for the further properties *)

(** The sizes the i-th range of the histogram is for. *)
Definition in_size_range (i : nat) (size : Z) : bool :=
  match i with
  | 0%nat => size <=? 50
  | 1%nat => (50 <? size) && (size <=? 100)
  | 2%nat => (100 <? size) && (size <=? 200)
  | 3%nat => (200 <? size) && (size <=? 500)
  | 4%nat => 500 <? size
  | _ => false
  end.

(** The label of the i-th point of the timeline. *)
Definition point_label (i : nat) : str := lit "#" ++ lit (pretty (Z.of_nat i + 1)).

(** The index of the range the loop of the histogram picks for a size. *)
Definition range_index (size : Z) : nat :=
  if size <=? 50 then 0
  else if size <=? 100 then 1
  else if size <=? 200 then 2
  else if size <=? 500 then 3
  else 4.

(** The characters that make [escapeCSV] quote a value. *)
Definition csv_special (c : ascii) : bool :=
  Ascii.eqb c "," || Ascii.eqb c dquote || Ascii.eqb c newline.

(** A cell the export writes so that it is read back: it holds no
    carriage return, or it holds a character that makes [escapeCSV] quote
    it. *)
Definition exportable (v : str) : bool :=
  negb (includes carriage_return v) || existsb csv_special v.

(** A row the export writes so that it is read back: it has a cell, it is
    not a single empty cell (which is written as a blank line), and its
    cells are exportable. *)
Definition exportable_row (row : list str) : Prop :=
  row <> [] /\ row <> [[]] /\ Forall (fun v => exportable v = true) row.

(** A record of which something has been read, outside a quoted field. *)
Definition in_record (mode : csv_mode) : Prop :=
  mode = FieldStart \/ mode = Bare \/ mode = QuoteSeen.

(** The mode of the reader after a cell that it began to read in the
    mode [mode]. *)
Definition after_cell (mode : csv_mode) (v : str) : csv_mode :=
  if existsb csv_special v then QuoteSeen
  else match v with
       | [] => mode
       | _ :: _ => Bare
       end.

(** The text of one row of the export. *)
Definition row_text (row : list str) : str := join "," (map escapeCSV row).

(** The roster keeps between one and ten cards, of different identifiers
    that the counter has passed. *)
Definition roster_ok (r : roster) : Prop :=
  (1 <= length (developers r) <= MAX_DEVELOPERS)%nat
  /\ NoDup (map id (developers r))
  /\ Forall (fun d => id d < nextId r) (developers r).

(** The owner and repository of an entry of the history. *)
Definition entry_key (h : history_entry) : str * str := (entry_owner h, entry_repo h).

(** The index a worker is fetching, if it is fetching. *)
Definition fetching_index (w : worker) : option nat :=
  match w with
  | Fetching my => Some my
  | _ => None
  end.

(** The indices in flight. *)
Definition in_flight (p : pool) : list nat := omap fetching_index (workers p).

(** Every worker has left its loop: [Promise.all(workers)] resolves. *)
Definition all_finished (p : pool) : Prop :=
  Forall (fun w => w = Finished) (workers p).

(** The statistics a run of the pool was given, in the order of
    completion. *)
Definition outcomes (es : list event) : list stats :=
  omap (fun e => match e with Settle _ o => o | Wake _ => None end) es.

(** What the pool keeps over [n] commits with [w] workers: the finished
    and the fetched indices are the first claimed ones, each once; a worker
    that has left its loop did so on an index past the end. *)
Definition work_ok (n w : nat) (p : pool) : Prop :=
  length (workers p) = w
  /\ settled p ++ in_flight p ≡ₚ seq 0 (Nat.min (idx p) n)
  /\ Forall (fun wk => wk = Finished -> (n <= idx p)%nat /\ (0 < idx p)%nat) (workers p).

(** The state of the worker that claims index [i]. *)
Definition claimed (n i : nat) : worker :=
  if (n <=? i)%nat then Finished else Fetching i.

(** The size of a commit: its added and deleted lines. *)
Definition size_of (s : stats) : Z := additions s + deletions s.

(** The labels of the histogram of commit sizes. *)
Definition size_labels : list string :=
  ["0-50"; "51-100"; "101-200"; "201-500"; "500+"]%string.

(** What one part [p] of a [Link] header can add to the parsed object: a
    property [k] with the value [v]. *)
Definition part_entry (p k v : str) : Prop :=
  k <> [] /\ v <> [] /\ k <> JsObject.proto_key
  /\ occurs_in k p /\ occurs_in v p
  /\ ~ In ";"%char k /\ ~ In ";"%char v.

(** An instant whose local hour lies in the work-hours window. *)
Definition within_hours (Date_getHours : Z -> Z) (WORK_START WORK_END : Z)
    (date : Z) : bool :=
  (WORK_START <=? Date_getHours date) && (Date_getHours date <? WORK_END).

(** A pool as far as the result record reads it. *)
Definition same_totals (p1 p2 : pool) : Prop :=
  totalLinesAdded p1 = totalLinesAdded p2
  /\ totalLinesDeleted p1 = totalLinesDeleted p2
  /\ commitSizes p1 ≡ₚ commitSizes p2.

(** ** Analyses started in bulk *)

(** A row of the manual team form. *)
Record member : Type := mkMember {
  member_id : Z;
  member_name : str;
  member_email : str;
  member_owner : str;
  member_repo : str;
  member_token : str
}.

(** [owner.trim() && repo.trim()], as a condition. *)
Definition has_repository (owner repository : str) : bool :=
  truthy (trim owner) && truthy (trim repository).

(** [validMembers.map(m => ({ id: generateId(), ... }))]: the identifiers
    are drawn in the order of the members. *)
Fixpoint newDevelopers (next : Z) (validMembers : list member) : list developer :=
  match validMembers with
  | [] => []
  | m :: rest =>
      mkDeveloper next (trim (member_owner m)) (trim (member_repo m))
        (trim (member_token m))
      :: newDevelopers (next + 1) rest
  end.

Section Bulk.

Variable Date_getTime : str -> option Z.
Variable Date_getHours : Z -> Z.
Variable WORK_START WORK_END : Z.
Variable reset_text : str -> str.
Variable encodeURIComponent : str -> str.
Variable fetch_details : list commit -> exn + pool.

(** What the requests made for a developer are answered. *)
Variable metadata : developer -> meta_fetched.
Variable pages : developer -> list fetched.

Definition analyze (dev : developer) (a : store) : option store :=
  analyzeCommits Date_getTime Date_getHours WORK_START WORK_END reset_text
    encodeURIComponent fetch_details dev (metadata dev) (pages dev) a.

(** [await Promise.all(devs.map(dev => analyzeCommits(dev.id, dev)))].  The
    analyses run interleaved, each writing through updaters of the slots
    of its own developer; they are run here one after the other, in the
    order of the list, each up to the settling of its promise (the timers
    that turn the phase [done] into [idle] are not part of it). *)
Fixpoint analyze_each (devs : list developer) (a : store) : option store :=
  match devs with
  | [] => Some a
  | dev :: rest =>
      match analyze dev a with
      | Some a' => analyze_each rest a'
      | None => None
      end
  end.

(** The roster and the store after [applyManualMembersToDevelopers]; with
    no valid member only the error of the Jira panel is set. *)
Definition applyManualMembersToDevelopers (manualMembers : list member)
    (r : roster) (a : store) : roster * option store :=
  let validMembers :=
    List.filter (fun m => has_repository (member_owner m) (member_repo m))
      manualMembers in
  match validMembers with
  | [] => (r, Some a)
  | _ :: _ =>
      let newDevelopers := newDevelopers (nextId r) validMembers in
      (mkRoster newDevelopers (nextId r + Z.of_nat (length validMembers)),
       analyze_each newDevelopers a)
  end.

(** [analyzeCommits(d.id)] without an override: the card is looked up by
    its identifier, and nothing is done when there is none. *)
Definition analyze_by_id (r : roster) (a : option store) (devId : Z) : option store :=
  match a with
  | None => None
  | Some a =>
      match List.find (fun d => id d =? devId) (developers r) with
      | Some dev => analyze dev a
      | None => Some a
      end
  end.

Definition analyzeAllDevelopers (r : roster) (a : store) : option store :=
  let validDevs :=
    List.filter (fun d => has_repository (username d) (repo d)) (developers r) in
  fold_left (analyze_by_id r) (map id validDevs) (Some a).

End Bulk.

(** The four slots of a developer in the store. *)
Definition slot (devId : Z) (a : store)
    : option bool * option string * option str * option result :=
  (loadingStates a !! devId, phases a !! devId, errors a !! devId, results a !! devId).

(** ** The analyses and the search history *)

(** The state an analysis writes to: the four bags and the search
    history, the list that [setSearchHistory] keeps and [saveHistory]
    writes to the local storage. *)
Record session : Type := mkSession {
  bags : store;
  searchHistory : list history_entry
}.

Section Recorded.

Variable Date_getTime : str -> option Z.
Variable Date_getHours : Z -> Z.
Variable WORK_START WORK_END : Z.
Variable reset_text : str -> str.
Variable encodeURIComponent : str -> str.
Variable fetch_details : list commit -> exn + pool.

(** [analyzeCommits] for the developer [dev] with the call
    [addToHistory(resultData)] that follows [setResults], up to the
    settling of its promise; [now] and [iso] are [Date.now()] and
    [new Date().toISOString()] at that call, and the owner and the
    repository of the entry are those of [resultData], the trimmed fields
    of the card.  The timer that later turns the phase [done] into [idle]
    is not part of it. *)
Definition analyzeCommits_recorded (now : Z) (iso : str) (dev : developer)
    (metaRes : meta_fetched) (responses : list fetched) (s : session)
    : option session :=
  let devId := id dev in
  let a := bags s in
  if negb (truthy (trim (username dev))) || negb (truthy (trim (repo dev))) then
    Some (mkSession
            (setErrors devId (lit "Please enter both owner and repository name") a)
            (searchHistory s))
  else
    let a := setLoadingStates devId true a in
    let a := setPhases devId "listing" a in
    let a := setErrors devId [] a in
    let a := deleteResults devId a in
    match pipeline Date_getTime Date_getHours WORK_START WORK_END reset_text
            encodeURIComponent fetch_details dev metaRes responses a with
    | None => None
    | Some (a, outcome) =>
        match outcome with
        | inr resultData =>
            let a := setResults devId resultData a in
            let history :=
              addToHistory now iso (trim (username dev)) (trim (repo dev))
                resultData (searchHistory s) in
            let a := setPhases devId "done" a in
            Some (mkSession (setLoadingStates devId false a) history)
        | inl AbortError =>
            let a := setErrors devId (lit "Stopped.") a in
            let a := setPhases devId "idle" a in
            Some (mkSession (setLoadingStates devId false a) (searchHistory s))
        | inl (Error message) =>
            let a :=
              setErrors devId
                (if truthy message then message else lit "Something went wrong") a in
            let a := setPhases devId "idle" a in
            Some (mkSession (setLoadingStates devId false a) (searchHistory s))
        end
    end.

(** What the requests made for a developer are answered, and the time at
    which its analysis reaches [addToHistory]. *)
Variable metadata : developer -> meta_fetched.
Variable pages : developer -> list fetched.
Variable clock : developer -> Z * str.

Definition analyze_recorded (dev : developer) (s : session) : option session :=
  analyzeCommits_recorded (clock dev).1 (clock dev).2 dev (metadata dev) (pages dev) s.

(** Analyses that run together, as under [Promise.all]: [devs] lists
    them in the order in which they settle.  Each writes to the bags
    through updaters of the slots of its own developer and to the history
    in the one synchronous stretch that ends with its settling, so they
    are run here one after the other in that order. *)
Fixpoint analyze_each_recorded (devs : list developer) (s : session) : option session :=
  match devs with
  | [] => Some s
  | dev :: rest =>
      match analyze_recorded dev s with
      | Some s' => analyze_each_recorded rest s'
      | None => None
      end
  end.

(** The history after the analysis of [dev], read off the result slot
    that the analysis left in [final]: an analysis of a card with an owner
    and a repository clears the slot and fills it only at its success. *)
Definition recorded (final : store) (history : list history_entry) (dev : developer)
    : list history_entry :=
  if has_repository (username dev) (repo dev) then
    match results final !! id dev with
    | Some resultData =>
        addToHistory (clock dev).1 (clock dev).2 (trim (username dev)) (trim (repo dev))
          resultData history
    | None => history
    end
  else history.

End Recorded.

(** A pool that has fetched the details of one commit of fifteen lines. *)
Definition finished_pool : pool := mkPool 0 [] 12 3 [15] [] [].

(** An entry of the history for the repository of [some_developer]. *)
Definition earlier_entry : history_entry :=
  mkEntry 1704100000000 (lit "o") (lit "r") (lit "2024-01-01T09:06:40.000Z")
    (mkResult 5 4 1 60 (Fin 80) (Fin 12) 40 20 (Experience.classify 50)).

(** A second developer, on another repository of the same owner. *)
Definition other_developer : developer := mkDeveloper 2 (lit "o") (lit "q") [].

(** ** The Jira proxy: the handler of [POST /api/jira/proxy] *)

(** [hay.includes(needle)]. *)
Fixpoint includes_text (needle hay : str) : bool :=
  starts_with needle hay
  || match hay with
     | [] => false
     | _ :: rest => includes_text needle rest
     end.

Section Proxy.

(** The JSON values a body can hold are kept abstract, with their
    truthiness, [JSON.stringify] and [JSON.parse] ([None] for a text that
    does not parse). *)
Variable value : Type.
Variable value_truthy : value -> bool.
Variable JSON_stringify : value -> str.
Variable JSON_parse : str -> option value.

(** The fields the handler reads off the body of the request, which is a
    JSON object: [url] is [None] when it is absent, [method] and [headers]
    are [None] when they are absent and get their defaults, [body] is
    [None] when it is absent. *)
Record proxy_request : Type := mkRequest {
  req_url : option str;
  req_method : option str;
  req_headers : option (gmap str str);
  req_body : option value
}.

(** The arguments of the call of [fetch]. *)
Record fetch_call : Type := mkCall {
  call_url : str;
  call_method : str;
  call_headers : gmap str str;
  call_body : option str
}.

Record upstream_response : Type := mkUpstream {
  up_status : Z;
  up_ok : bool;
  up_content_type : option str;      (* response.headers.get('content-type') *)
  up_text : str
}.

(** [await fetch(url, fetchOptions)] resolves or rejects with an error
    that has a message. *)
Inductive upstream_outcome : Type :=
  | Answered (r : upstream_response)
  | Failed (message : str).

Variable fetch : fetch_call -> upstream_outcome.

(** The message of the error [response.json()] rejects with. *)
Variable invalid_json : upstream_response -> str.

Inductive proxy_data : Type :=
  | DataJson (v : value)
  | DataText (s : str)
  | DataNull.

(** The JSON the handler answers with. *)
Inductive proxy_payload : Type :=
  | UrlRequired                                    (* { error: 'URL is required' } *)
  | ProxyError (error : str)                       (* { ok: false, error } *)
  | Relayed (ok : bool) (status : Z) (data : proxy_data).

Definition default_headers : gmap str str :=
  <[lit "Accept" := lit "application/json"]>
    (<[lit "Content-Type" := lit "application/json"]> ∅).

Definition method_of (req : proxy_request) : str :=
  match req_method req with
  | Some m => m
  | None => lit "GET"
  end.

(** [fetchOptions]: the properties of [headers] are spread after the two
    defaults, so they win; the body is set for a truthy [body] and a method
    other than [GET]. *)
Definition fetchOptions (url : str) (req : proxy_request) : fetch_call :=
  let method := method_of req in
  let headers :=
    match req_headers req with
    | Some h => h
    | None => ∅
    end in
  mkCall url method (headers ∪ default_headers)
    (match req_body req with
     | Some body =>
         if value_truthy body && negb (bool_decide (method = lit "GET"))
         then Some (JSON_stringify body)
         else None
     | None => None
     end).

(** The call the handler makes, if it makes one. *)
Definition proxy_call (req : proxy_request) : option fetch_call :=
  match req_url req with
  | Some url => if truthy url then Some (fetchOptions url req) else None
  | None => None
  end.

(** What a handler answers with: the HTTP status and the JSON of the
    body, [None] when the answer is sent without a body. *)
Definition proxy_reply : Type := Z * option proxy_payload.

(** The statuses under which the server sends the body it is given: every
    status but the informational ones, 204 and 304, for which Node and
    Express send the head alone.  Express from 4.18 on also drops the body
    under 205; [strips_205] tells whether the installed Express does. *)
Variable strips_205 : bool.

Definition sends_body (status : Z) : bool :=
  negb ((100 <=? status) && (status <=? 199))
  && negb (status =? 204) && negb (status =? 304)
  && negb (strips_205 && (status =? 205)).

(** [res.status(status).json(payload)]: a status that is not between 100
    and 999 makes it throw a [RangeError] ([None]); the answer is sent
    otherwise. *)
Definition status_json (status : Z) (payload : proxy_payload) : option proxy_reply :=
  if (100 <=? status) && (status <=? 999)
  then Some (status, if sends_body status then Some payload else None)
  else None.

(** The message of the [RangeError] for a status. *)
Variable invalid_status : Z -> str.

(** The [catch] block: [res.status(500).json({ ok: false, error })], with
    [error.message || 'Failed to fetch from Jira API'] for the error. *)
Definition proxy_failure (message : str) : proxy_reply :=
  (500, Some (ProxyError (if truthy message then message
                          else lit "Failed to fetch from Jira API"))).

(** [contentType && contentType.includes('application/json')]. *)
Definition json_content_type (response : upstream_response) : bool :=
  match up_content_type response with
  | Some contentType =>
      truthy contentType && includes_text (lit "application/json") contentType
  | None => false
  end.

(** [res.status(response.status).json({ ok, status, data })] within the
    [try] block. *)
Definition relay (response : upstream_response) (data : proxy_data) : proxy_reply :=
  match status_json (up_status response)
          (Relayed (up_ok response) (up_status response) data) with
  | Some reply => reply
  | None => proxy_failure (invalid_status (up_status response))
  end.

(** The handler of the file's first copy.  Reading the body of the
    upstream answer is taken to succeed; parsing it may fail. *)
Definition proxy (req : proxy_request) : proxy_reply :=
  match proxy_call req with
  | None => (400, Some UrlRequired)
  | Some call =>
      match fetch call with
      | Failed message => proxy_failure message
      | Answered response =>
          if json_content_type response then
            match JSON_parse (up_text response) with
            | Some data => relay response (DataJson data)
            | None => proxy_failure (invalid_json response)
            end
          else relay response (DataText (up_text response))
      end
  end.

(** The handler of the file's second copy: it reads the text, tries to
    parse it whatever the content type is, and answers with [res.json],
    that is with the status 200. *)
Definition proxy_alt (req : proxy_request) : proxy_reply :=
  match proxy_call req with
  | None => (400, Some UrlRequired)
  | Some call =>
      match fetch call with
      | Failed message => proxy_failure message
      | Answered response =>
          let text := up_text response in
          let data :=
            if truthy text then
              match JSON_parse text with
              | Some data => DataJson data
              | None => DataText text
              end
            else DataNull in
          (200, Some (Relayed (up_ok response) (up_status response) data))
      end
  end.

End Proxy.

Arguments mkRequest {value} _ _ _ _.
Arguments req_url {value} _.
Arguments req_method {value} _.
Arguments req_headers {value} _.
Arguments req_body {value} _.
Arguments UrlRequired {value}.
Arguments ProxyError {value} _.
Arguments DataJson {value} _.
Arguments DataText {value} _.
Arguments DataNull {value}.
Arguments Relayed {value} _ _ _.
Arguments method_of {value} _.
Arguments fetchOptions {value} _ _ _ _.
Arguments proxy_call {value} _ _ _.
Arguments proxy_failure {value} _.
Arguments status_json {value} _ _ _.
Arguments relay {value} _ _ _ _.
Arguments proxy {value} _ _ _ _ _ _ _ _.
Arguments proxy_alt {value} _ _ _ _ _.

(** * Properties *)

(** ** The experience scorer *)

Module ExperienceFacts.

Import Experience.

Lemma volume_bounds t : 10 <= volume t <= 40.
Proof. unfold volume. repeat case_match; lia. Qed.

Lemma pattern_bounds p : 2 <= pattern p <= 15.
Proof. unfold pattern. repeat case_match; lia. Qed.

Lemma quality_bounds q : 10 <= quality q <= 25.
Proof. unfold quality. repeat case_match; lia. Qed.

Lemma steadiness_bounds c t : 5 <= steadiness c t <= 20.
Proof. unfold steadiness. repeat case_match; lia. Qed.

Lemma alt_volume_bounds t : 10 <= ExperienceAlt.volume t <= 35.
Proof. unfold ExperienceAlt.volume. repeat case_match; lia. Qed.

Lemma alt_quality_bounds q : 15 <= ExperienceAlt.quality q <= 30.
Proof. unfold ExperienceAlt.quality. repeat case_match; lia. Qed.

Lemma classify_score s : score (classify s) = s.
Proof. unfold classify. repeat case_match; reflexivity. Qed.

Lemma classify_level s :
  level (classify s) =
    if 80 <=? s then "Senior"%string
    else if 60 <=? s then "Mid-Level"%string
    else if 40 <=? s then "Junior"%string
    else "Beginner"%string.
Proof. unfold classify. repeat case_match; reflexivity. Qed.

Lemma classify_beginner s : level (classify s) = "Beginner"%string <-> s < 40.
Proof.
  rewrite classify_level.
  repeat case_match; split; intros; try discriminate; try reflexivity; lia.
Qed.

Lemma score_sum t p q c :
  score (calculateExperienceLevel t p q c)
  = volume t + pattern p + quality q + steadiness c t.
Proof. unfold calculateExperienceLevel. rewrite classify_score. lia. Qed.

Lemma alt_score_sum t p q c :
  score (ExperienceAlt.calculateExperienceLevel t p q c)
  = ExperienceAlt.volume t + pattern p + ExperienceAlt.quality q + steadiness c t.
Proof.
  unfold ExperienceAlt.calculateExperienceLevel. rewrite classify_score. lia.
Qed.

End ExperienceFacts.

(** C4. The experience scorer is a function of its four inputs alone; its
    score is the sum of four tiered contributions, of at most 40 (volume),
    15 (work pattern), 25 (message quality) and 20 (consistency), each cap
    being reached; the level is Senior from 80, Mid-Level from 60, Junior
    from 40 and Beginner below; 250 commits, 65% on time, quality 55 and
    consistency 75 give 40 + 15 + 25 + 20 = 100 and the level Senior. *)
Theorem experience_scorer_tiers :
  (forall t p q c,
      let e := Experience.calculateExperienceLevel t p q c in
      score e
      = Experience.volume t + Experience.pattern p
        + Experience.quality q + Experience.steadiness c t
      /\ Experience.volume t <= 40 /\ Experience.pattern p <= 15
      /\ Experience.quality q <= 25 /\ Experience.steadiness c t <= 20
      /\ level e
         = (if 80 <=? score e then "Senior"%string
            else if 60 <=? score e then "Mid-Level"%string
            else if 40 <=? score e then "Junior"%string
            else "Beginner"%string))
  /\ (let t := jsnum_of_Z 250 in
      let p := jsnum_of_Z 65 in
      let q := jsnum_of_Z 55 in
      let c := jsnum_of_Z 75 in
      Experience.volume t = 40 /\ Experience.pattern p = 15
      /\ Experience.quality q = 25 /\ Experience.steadiness c t = 20
      /\ Experience.calculateExperienceLevel t p q c
         = mkExperience "Senior" "purple" 100).
Proof.
  split.
  - intros t p q c e. subst e.
    pose proof (ExperienceFacts.volume_bounds t).
    pose proof (ExperienceFacts.pattern_bounds p).
    pose proof (ExperienceFacts.quality_bounds q).
    pose proof (ExperienceFacts.steadiness_bounds c t).
    rewrite ExperienceFacts.score_sum.
    repeat split; try lia.
    unfold Experience.calculateExperienceLevel.
    rewrite ExperienceFacts.classify_level. f_equal.
  - repeat split; reflexivity.
Qed.

(** C10. Whatever the four inputs are (NaN and the infinities included),
    the score lies between 27 and 100: the contributions are at least 10
    (volume), 2 (work pattern), 10 (message quality) and 5 (consistency);
    the level Beginner is reported exactly for the scores from 27 to 39.
    The bound 27 is reached.  The table of the earlier revision, whose
    message-quality floor is 15, keeps the score between 32 and 100. *)
Theorem experience_score_range :
  (forall t p q c,
      let e := Experience.calculateExperienceLevel t p q c in
      10 <= Experience.volume t /\ 2 <= Experience.pattern p
      /\ 10 <= Experience.quality q /\ 5 <= Experience.steadiness c t
      /\ 27 <= score e <= 100
      /\ (level e = "Beginner"%string <-> 27 <= score e < 40))
  /\ score (Experience.calculateExperienceLevel NaN NaN NaN NaN) = 27
  /\ (forall t p q c,
         32 <= score (ExperienceAlt.calculateExperienceLevel t p q c) <= 100).
Proof.
  split; [|split].
  - intros t p q c e. subst e.
    pose proof (ExperienceFacts.volume_bounds t).
    pose proof (ExperienceFacts.pattern_bounds p).
    pose proof (ExperienceFacts.quality_bounds q).
    pose proof (ExperienceFacts.steadiness_bounds c t).
    rewrite ExperienceFacts.score_sum.
    do 5 (split; [lia|]).
    unfold Experience.calculateExperienceLevel.
    rewrite ExperienceFacts.classify_beginner. lia.
  - reflexivity.
  - intros t p q c.
    pose proof (ExperienceFacts.alt_volume_bounds t).
    pose proof (ExperienceFacts.pattern_bounds p).
    pose proof (ExperienceFacts.alt_quality_bounds q).
    pose proof (ExperienceFacts.steadiness_bounds c t).
    rewrite ExperienceFacts.alt_score_sum. lia.
Qed.

(** ** Message quality *)

Module MessageFacts.

Lemma to_lower_colon c : to_lower c = ":"%char -> c = ":"%char.
Proof.
  destruct c as [[] [] [] [] [] [] [] []]; vm_compute; intros H;
    first [reflexivity | discriminate H].
Qed.

(** A character is left as it is by the case folding of the code and is
    no capital letter, or it is the capital of its folding. *)
Lemma to_lower_cases c :
  (to_lower c = c /\ forall x, ~ In (x, c) letter_pairs)
  \/ In (to_lower c, c) letter_pairs.
Proof.
  destruct c as [[] [] [] [] [] [] [] []];
    first [ right; vm_compute; tauto
          | left; split; [reflexivity|];
            intros x H; vm_compute in H;
            repeat (destruct H as [H|H]; [discriminate H|]); exact H ].
Qed.

(** A small letter and its capital fold to the small letter. *)
Lemma letter_pair_lower x c :
  In (x, c) letter_pairs -> to_lower c = x /\ to_lower x = x.
Proof.
  intros H. vm_compute in H.
  repeat (destruct H as [[= <- <-]|H]; [split; reflexivity|]). destruct H.
Qed.

(** The case folding of the code tells apart exactly the characters that
    differ by more than the case of a letter. *)
Lemma to_lower_same a b : to_lower a = to_lower b <-> same_but_case a b.
Proof.
  unfold same_but_case. split.
  - intros H.
    destruct (to_lower_cases a) as [[Ha Hna]|Ha], (to_lower_cases b) as [[Hb Hnb]|Hb].
    + left. congruence.
    + right. left. rewrite <- H, Ha in Hb. exact Hb.
    + right. right. rewrite H, Hb in Ha. exact Ha.
    + left. rewrite <- H in Hb. clear H.
      remember (to_lower a) as x eqn:Ex. clear Ex.
      vm_compute in Ha, Hb.
      repeat (destruct Ha as [[= <- <-]|Ha];
              [repeat (destruct Hb as [Hb|Hb];
                       [first [injection Hb as <-; reflexivity | discriminate Hb]|]);
               destruct Hb|]).
      destruct Ha.
  - intros [->|[H|H]]; [reflexivity|..];
      apply letter_pair_lower in H as [H1 H2]; congruence.
Qed.

Lemma same_but_case_sym a b : same_but_case a b -> same_but_case b a.
Proof.
  intros [->|[H|H]]; [left; reflexivity | right; right; exact H | right; left; exact H].
Qed.

(** The anchored, case-insensitive match of a word and a colon. *)
Lemma starts_with_ci_colon t m :
  starts_with_ci (t ++ [":"%char]) m = true
  <-> exists p rest, m = p ++ ":"%char :: rest /\ Forall2 same_but_case p t.
Proof.
  revert m. induction t as [|a t IH]; intros m; cbn [starts_with_ci app].
  - destruct m as [|b m].
    + split; [discriminate|]. intros (p & rest & H & _). destruct p; discriminate H.
    + rewrite andb_true_r, Ascii.eqb_eq. change (to_lower ":"%char) with ":"%char.
      split.
      * intros H. symmetry in H. apply to_lower_colon in H. subst b.
        exists [], m. split; [reflexivity | constructor].
      * intros (p & rest & H & Hp). inversion Hp; subst.
        cbn [app] in H. injection H as -> _. reflexivity.
  - destruct m as [|b m].
    + split; [discriminate|]. intros (p & rest & H & _). destruct p; discriminate H.
    + rewrite andb_true_iff, Ascii.eqb_eq, IH, to_lower_same. split.
      * intros (Hab & p & rest & -> & Hp).
        exists (b :: p), rest. split; [reflexivity|]. constructor; [|exact Hp].
        apply same_but_case_sym. exact Hab.
      * intros (p & rest & H & Hp). inversion Hp as [|c a' p' t' Hc Hp']; subst.
        cbn [app] in H. injection H as -> ->.
        split; [apply same_but_case_sym; assumption|].
        exists p', rest. split; [reflexivity | assumption].
Qed.

Lemma test_conventional_spec m :
  test_conventional m = true <-> conventional_prefix m.
Proof.
  unfold test_conventional, conventional_prefix. rewrite existsb_exists. split.
  - intros (t & Ht & H). apply starts_with_ci_colon in H as (p & rest & -> & Hp).
    apply in_map_iff in Ht as (ty & <- & Hty).
    exists ty, p, rest. auto.
  - intros (ty & p & rest & Hty & -> & Hp). exists (lit ty). split.
    + apply in_map. exact Hty.
    + apply starts_with_ci_colon. exists p, rest. split; [reflexivity | assumption].
Qed.

(** The digit test of the code accepts the ten digits and nothing else. *)
Lemma is_digit_spec d : is_digit d = true <-> In d digits.
Proof.
  split.
  - destruct d as [[] [] [] [] [] [] [] []]; vm_compute; intros H;
      first [discriminate H | tauto].
  - intros H. vm_compute in H.
    repeat (destruct H as [<-|H]; [reflexivity|]). destruct H.
Qed.

Lemma test_issue_ref_spec m :
  test_issue_ref m = true <-> issue_reference m.
Proof.
  unfold issue_reference. induction m as [|c m IH]; simpl.
  - split; [discriminate|]. intros (a & d & b & H & _). destruct a; discriminate H.
  - rewrite orb_true_iff, andb_true_iff, Ascii.eqb_eq, IH. split.
    + intros [[-> Hd] | (a & d & b & -> & Hd)].
      * destruct m as [|d m]; [discriminate Hd|]. exists [], d, m.
        split; [reflexivity|]. apply is_digit_spec. exact Hd.
      * exists (c :: a), d, b. auto.
    + intros (a & d & b & H & Hd). destruct a as [|c' a]; simpl in H.
      * injection H as -> ->. left. split; [reflexivity|].
        apply is_digit_spec. exact Hd.
      * injection H as -> ->. right. exists a, d, b. auto.
Qed.

Lemma messageScore_sum m :
  messageScore m
  = indicator (10 <? Z.of_nat (length m)) + indicator (30 <? Z.of_nat (length m))
    + indicator (test_conventional m) + indicator (test_issue_ref m).
Proof. unfold messageScore, indicator. repeat case_match; lia. Qed.

Lemma not_true_false (b : bool) (P : Prop) : (b = true <-> P) -> ~ P -> b = false.
Proof. destruct b; [intros [H _] HP; exfalso; auto | reflexivity]. Qed.

Lemma fix_is_conventional rest : conventional_prefix (lit "fix:" ++ rest).
Proof.
  exists "fix"%string, (lit "fix"), rest. split; [vm_compute; tauto|].
  split; [reflexivity|]. repeat constructor.
Qed.

Lemma ref42_is_reference m : occurs_in (lit "#42") m -> issue_reference m.
Proof.
  intros (a & b & ->). exists a, "4"%char, ("2"%char :: b).
  split; [reflexivity|]. vm_compute. tauto.
Qed.

End MessageFacts.

(** C8, as the code has it.  The score of a commit message is the sum of
    four checks worth 25 points each, none of which looks at another: more
    than 10 characters; more than 30 characters; a conventional-commit type
    (feat, fix, docs, refactor, test, chore, style, perf, its letters in any
    case) and a colon at the start; a hash sign followed by a digit
    anywhere.  So a message of 5 characters without such a prefix and
    without such a reference scores 0, one of 15 characters without them
    25, one of 35 characters with the prefix [fix:] and without a reference
    75, and one of 35 characters with that prefix and the reference [#42]
    100. *)
Theorem message_score_checks (m : str) :
  (test_conventional m = true <-> conventional_prefix m)
  /\ (test_issue_ref m = true <-> issue_reference m)
  /\ messageScore m
     = indicator (10 <? Z.of_nat (length m)) + indicator (30 <? Z.of_nat (length m))
       + indicator (test_conventional m) + indicator (test_issue_ref m)
  /\ (length m = 5%nat -> ~ conventional_prefix m -> ~ issue_reference m ->
      messageScore m = 0)
  /\ (length m = 15%nat -> ~ conventional_prefix m -> ~ issue_reference m ->
      messageScore m = 25)
  /\ (length m = 35%nat -> (exists rest, m = lit "fix:" ++ rest) ->
      ~ issue_reference m -> messageScore m = 75)
  /\ (length m = 35%nat -> (exists rest, m = lit "fix:" ++ rest) ->
      occurs_in (lit "#42") m -> messageScore m = 100)
  /\ messageScore (lit "typos") = 0
  /\ messageScore (lit "update the docs") = 25
  /\ messageScore (lit "fix: stop paging on a repeated link") = 75
  /\ messageScore (lit "fix: stop paging on link cycles #42") = 100.
Proof.
  pose proof (MessageFacts.test_conventional_spec m) as Hc.
  pose proof (MessageFacts.test_issue_ref_spec m) as Hi.
  pose proof (MessageFacts.messageScore_sum m) as Hs.
  split; [exact Hc|]. split; [exact Hi|]. split; [exact Hs|].
  split; [|split; [|split; [|split]]].
  - intros Hl Hnc Hni. rewrite Hs, Hl.
    rewrite (MessageFacts.not_true_false _ _ Hc Hnc).
    rewrite (MessageFacts.not_true_false _ _ Hi Hni). reflexivity.
  - intros Hl Hnc Hni. rewrite Hs, Hl.
    rewrite (MessageFacts.not_true_false _ _ Hc Hnc).
    rewrite (MessageFacts.not_true_false _ _ Hi Hni). reflexivity.
  - intros Hl [rest Hm] Hni. rewrite Hs, Hl.
    rewrite (MessageFacts.not_true_false _ _ Hi Hni).
    replace (test_conventional m) with true; [reflexivity|].
    symmetry. apply Hc. rewrite Hm. apply MessageFacts.fix_is_conventional.
  - intros Hl [rest Hm] H42. rewrite Hs, Hl.
    replace (test_conventional m) with true.
    + replace (test_issue_ref m) with true; [reflexivity|].
      symmetry. apply Hi. apply MessageFacts.ref42_is_reference. exact H42.
    + symmetry. apply Hc. rewrite Hm. apply MessageFacts.fix_is_conventional.
  - repeat split; reflexivity.
Qed.

(** C8 as stated fails: the length of a message does not settle its score.
    A message of length 5 can score 25, one of length 15 can score 50, and
    one of length 35 with the prefix [fix:] can score 100. *)
Lemma message_score_not_by_length :
  length (lit "fix:a") = 5%nat /\ messageScore (lit "fix:a") = 25
  /\ messageScore (lit "fix:a") <> 0
  /\ length (lit "see #42 please!") = 15%nat
  /\ messageScore (lit "see #42 please!") = 50
  /\ length (lit "fix: stop paging on link cycles, #7") = 35%nat
  /\ (exists rest, lit "fix: stop paging on link cycles, #7" = lit "fix:" ++ rest)
  /\ messageScore (lit "fix: stop paging on link cycles, #7") = 100.
Proof.
  split; [reflexivity|]. split; [reflexivity|]. split; [discriminate|].
  split; [reflexivity|]. split; [reflexivity|]. split; [reflexivity|].
  split; [eexists; reflexivity | reflexivity].
Qed.

(** ** Overall message quality *)

Section QualityFacts.

Variable Date_getTime : str -> option Z.
Variable Date_getHours : Z -> Z.
Variable WORK_START WORK_END : Z.

Lemma Zsum_acc l a : fold_left Z.add l a = a + fold_left Z.add l 0.
Proof.
  revert a. induction l as [|x l IH]; intros a; cbn [fold_left]; [lia|].
  rewrite (IH (a + x)), (IH (0 + x)). lia.
Qed.

Lemma dated_cons c l :
  dated Date_getTime (c :: l)
  = match commit_time Date_getTime c with
    | Some _ => c :: dated Date_getTime l
    | None => dated Date_getTime l
    end.
Proof.
  unfold dated. cbn [List.filter].
  destruct (commit_time Date_getTime c) as [t|].
  - rewrite bool_decide_eq_true_2 by (eexists; reflexivity). reflexivity.
  - rewrite bool_decide_eq_false_2 by (intros [? ?]; discriminate). reflexivity.
Qed.

(** The loop adds up the scores of the dated commits, and of no other. *)
Lemma totalMessageScore_fold l b :
  totalMessageScore
    (fold_left (base_step Date_getTime Date_getHours WORK_START WORK_END) l b)
  = totalMessageScore b
    + fold_left Z.add
        (map (fun c => messageScore (message_text c)) (dated Date_getTime l)) 0.
Proof.
  revert b. induction l as [|c l IH]; intros b; cbn [fold_left].
  - cbn. lia.
  - rewrite IH, dated_cons. unfold base_step.
    destruct (commit_time Date_getTime c) as [t|]; [|reflexivity].
    cbn [totalMessageScore map fold_left]. rewrite (Zsum_acc _ (0 + _)). lia.
Qed.

(** What the code computes: the sum over the dated commits, divided by
    the number of all commits. *)
Lemma messageQualityScore_formula l :
  messageQualityScore Date_getTime Date_getHours WORK_START WORK_END l
  = if Z.of_nat (length l) =? 0 then 0
    else Math_round
           (inject_Z (fold_left Z.add
                        (map (fun c => messageScore (message_text c))
                           (dated Date_getTime l)) 0)
            / inject_Z (Z.of_nat (length l))).
Proof.
  unfold messageQualityScore. destruct (Z.of_nat (length l) =? 0); [reflexivity|].
  unfold base_pass. rewrite totalMessageScore_fold.
  reflexivity.
Qed.

Lemma dated_all l :
  Forall (fun c => is_Some (commit_time Date_getTime c)) l ->
  dated Date_getTime l = l.
Proof.
  induction 1 as [|c l [t Ht] _ IH]; [reflexivity|].
  rewrite dated_cons, Ht, IH. reflexivity.
Qed.

(** When every commit is dated, the code computes the mean of the
    specification. *)
Lemma messageQualityScore_all_dated l :
  Forall (fun c => is_Some (commit_time Date_getTime c)) l ->
  messageQualityScore Date_getTime Date_getHours WORK_START WORK_END l
  = mean_message_score Date_getTime l.
Proof.
  intros H. rewrite messageQualityScore_formula. unfold mean_message_score.
  rewrite (dated_all l H). destruct l as [|c l]; reflexivity.
Qed.

End QualityFacts.

(** C1. The overall message-quality score should be the rounded mean of the
    scores of the commits with a valid timestamp.  On one dated commit that
    scores 100 and one commit without a date that mean is 100, and the code
    returns 50: it adds up the scores of the dated commits and divides by
    the number of all commits. *)
Theorem message_quality_divides_by_all_commits :
  let parse := fun _ : str => Some 1704103200000 in
  let hours := fun _ : Z => 10 in
  dated parse [dated_commit; undated_commit] = [dated_commit]
  /\ mean_message_score parse [dated_commit; undated_commit] = 100
  /\ messageQualityScore parse hours 1 24 [dated_commit; undated_commit] = 50.
Proof. repeat split; vm_compute; reflexivity. Qed.

(** ** Consistency *)

Module ConsistencyFacts.

Lemma sortedDates_sorted dates : Sorted Z.le (sortedDates dates).
Proof. apply (Sorted_merge_sort Z.le). Qed.

Lemma sortedDates_perm dates : sortedDates dates ≡ₚ dates.
Proof. apply merge_sort_Permutation. Qed.

(** The ascending arrangement of a list of instants is unique. *)
Lemma sortedDates_unique dates s :
  Sorted Z.le s -> s ≡ₚ dates -> sortedDates dates = s.
Proof.
  intros Hs Hp. apply (Sorted_unique Z.le).
  - apply sortedDates_sorted.
  - exact Hs.
  - rewrite sortedDates_perm. symmetry. exact Hp.
Qed.

Lemma consecutive_gaps_cons a b r :
  consecutive_gaps (a :: b :: r) = gap_in_days a b :: consecutive_gaps (b :: r).
Proof. reflexivity. Qed.

(** The test of the loop is the test of a gap that counts. *)
Lemma valid_gap_test g : is_finite g && js_ge g 0 = valid_gap g.
Proof. destruct g; reflexivity. Qed.

(** The loop of the code keeps the gaps the specification keeps. *)
Lemma intervals_filter s :
  intervals s = List.filter valid_gap (consecutive_gaps s).
Proof.
  induction s as [|a [|b r] IH]; [reflexivity | reflexivity |].
  rewrite consecutive_gaps_cons. cbn [List.filter]. rewrite <- IH.
  cbn [intervals]. rewrite valid_gap_test. reflexivity.
Qed.

Lemma avgInterval_average dates :
  avgInterval dates = average_gap (sortedDates dates).
Proof. unfold avgInterval, average_gap. rewrite intervals_filter. reflexivity. Qed.

(** Rounding reads a rational by its value. *)
Lemma to_double_value q1 q2 : (q1 == q2)%Q -> to_double q1 = to_double q2.
Proof. intros H. unfold to_double. rewrite (Qred_complete _ _ H). reflexivity. Qed.

Lemma to_double_number q : to_double q <> NaN.
Proof.
  unfold to_double. destruct (Qnum (Qred q)); [discriminate|..];
    repeat case_match; discriminate.
Qed.

(** Adding a finite number gives a number. *)
Lemma jsadd_finite x g : x <> NaN -> jsadd x (Fin g) <> NaN.
Proof.
  destruct x as [| |a|]; cbn [jsadd]; try discriminate; [contradiction|].
  intros _. apply to_double_number.
Qed.

Lemma sum_number gaps x :
  x <> NaN -> Forall (fun g => valid_gap g = true) gaps ->
  fold_left jsadd gaps x <> NaN.
Proof.
  intros Hx H. revert x Hx. induction H as [|g gaps Hg _ IH]; intros x Hx.
  - exact Hx.
  - cbn [fold_left]. apply IH. destruct g as [| |q|]; try discriminate Hg.
    apply jsadd_finite. exact Hx.
Qed.

(** A number divided by a count that is not zero is a number. *)
Lemma jsdiv_count x n : x <> NaN -> (0 < n)%nat -> jsdiv x (jsnum_of_Z (Z.of_nat n)) <> NaN.
Proof.
  intros Hx Hn. unfold jsnum_of_Z.
  assert (Qeq_bool (inject_Z (Z.of_nat n)) 0 = false) as E.
  { destruct n as [|n]; [lia|]. reflexivity. }
  assert (Qsgn (inject_Z (Z.of_nat n)) = 1) as Es
    by (destruct n as [|n]; [lia | reflexivity]).
  destruct x as [| |a|]; cbn [jsdiv jssgn]; rewrite ?E, ?Es.
  - contradiction.
  - discriminate.
  - apply to_double_number.
  - discriminate.
Qed.

Lemma average_gap_number s : average_gap s <> NaN.
Proof.
  unfold average_gap.
  assert (Forall (fun g => valid_gap g = true)
            (List.filter valid_gap (consecutive_gaps s))) as H.
  { apply List.Forall_forall. intros g Hg. apply filter_In in Hg. apply Hg. }
  destruct (List.filter valid_gap (consecutive_gaps s)) as [|g gaps] eqn:E;
    [discriminate|].
  apply jsdiv_count; [|cbn [length]; lia].
  apply sum_number; [discriminate | exact H].
Qed.

(** The formula of the score is a number whatever the average is. *)
Lemma formula_number avg :
  avg <> NaN -> jssub (Fin 100) (jsmul avg (Fin 5)) <> NaN.
Proof.
  intros H. destruct avg as [| |a|]; [contradiction|..];
    cbn [jsmul jssgn Qsgn Qnum Z.sgn Z.mul infinity]; unfold jssub; cbn [jsneg jsadd];
    try discriminate.
  destruct (to_double (a * 5)) as [| |q|] eqn:E; cbn [jsneg jsadd]; try discriminate.
  - exfalso. exact (to_double_number _ E).
  - apply to_double_number.
Qed.

(** [Math.max(0, Math.min(100, x))] limits [x] to the range. *)
Lemma clamp_limited x : clamp x (Fin 0) (Fin 100) = limited x.
Proof.
  destruct x as [| |q|]; try reflexivity.
  unfold clamp, limited. cbn [Math_min].
  destruct (Qle_bool 100 q) eqn:E100.
  - cbn [Math_max]. destruct (Qle_bool q 0) eqn:E0; [|reflexivity].
    apply Qle_bool_iff in E100, E0.
    exfalso. apply (Qle_not_lt _ _ (Qle_trans _ _ _ E100 E0)). reflexivity.
  - cbn [Math_max]. destruct (Qle_bool q 0); reflexivity.
Qed.

Lemma limited_range x :
  x <> NaN -> exists q, limited x = Fin q /\ (0 <= q <= 100)%Q.
Proof.
  destruct x as [| |q|]; [contradiction|..]; intros _; cbn [limited].
  - exists 0%Q. split; [reflexivity|]. split; discriminate.
  - destruct (Qle_bool q 0) eqn:E0; [exists 0%Q; split; [reflexivity|split; discriminate]|].
    destruct (Qle_bool 100 q) eqn:E100;
      [exists 100%Q; split; [reflexivity|split; discriminate]|].
    exists q. split; [reflexivity|]. split.
    + apply Qlt_le_weak, Qnot_le_lt. intros H. apply Qle_bool_iff in H. congruence.
    + apply Qlt_le_weak, Qnot_le_lt. intros H. apply Qle_bool_iff in H. congruence.
  - exists 100%Q. split; [reflexivity|]. split; discriminate.
Qed.

(** The gap between an instant and the same instant a day later is one
    day, whatever the instant is. *)
Lemma gap_one_day t k : gap_in_days (t + k * 86400000) (t + (k + 1) * 86400000) = Fin 1.
Proof.
  unfold gap_in_days, jssub, jsnum_of_Z. cbn [jsneg jsadd].
  rewrite (to_double_value _ 86400000).
  - vm_compute. reflexivity.
  - unfold Qeq. cbn. lia.
Qed.

End ConsistencyFacts.

(** C5. With the valid timestamps sorted ascending ([s] is that sorted
    arrangement of [dates]), the consistency score is the number
    100 - average gap in days * 5 limited to the range from 0 to 100, the
    average being taken over the gaps between neighbours that are finite
    and not negative, and every operation being the one of JavaScript
    numbers; it is a finite number between 0 and 100; no or one timestamp
    gives 100, and three timestamps exactly one day apart give the average
    gap 1 and the score 95, whatever the first timestamp is.  The
    quotients are those of doubles: three timestamps seven seconds and some
    33 days apart give 16.499999999999986, not 16.5. *)
Theorem consistency_score_spec (dates s : list Z) :
  Sorted Z.le s -> s ≡ₚ dates ->
  consistencyScore dates
  = limited (jssub (Fin 100) (jsmul (average_gap s) (Fin 5)))
  /\ (exists q, consistencyScore dates = Fin q /\ (0 <= q <= 100)%Q)
  /\ ((length dates <= 1)%nat -> consistencyScore dates = Fin 100)
  /\ (forall t, s = [t; t + 86400000; t + 2 * 86400000] ->
      average_gap s = Fin 1 /\ consistencyScore dates = Fin 95)
  /\ consistencyScore [1706952960000; 1704067207000; 1704067200000]
     = Fin (1161084278931455 # 70368744177664).
Proof.
  intros Hs Hp.
  assert (consistencyScore dates
          = limited (jssub (Fin 100) (jsmul (average_gap s) (Fin 5)))) as Heq.
  { unfold consistencyScore. rewrite ConsistencyFacts.avgInterval_average.
    rewrite (ConsistencyFacts.sortedDates_unique dates s Hs Hp).
    apply ConsistencyFacts.clamp_limited. }
  split; [exact Heq|]. split; [|split; [|split]]; [| | |vm_compute; reflexivity].
  - rewrite Heq. apply ConsistencyFacts.limited_range.
    apply ConsistencyFacts.formula_number, ConsistencyFacts.average_gap_number.
  - intros Hl. destruct dates as [|t [|u r]]; [reflexivity | reflexivity |].
    cbn [length] in Hl. lia.
  - intros t ->.
    assert (average_gap [t; t + 86400000; t + 2 * 86400000] = Fin 1) as Havg.
    { unfold average_gap, consecutive_gaps. cbn [tail zip_with].
      pose proof (ConsistencyFacts.gap_one_day t 0) as H0.
      pose proof (ConsistencyFacts.gap_one_day t 1) as H1.
      replace (t + 0 * 86400000) with t in H0 by lia.
      replace (t + (0 + 1) * 86400000) with (t + 86400000) in H0 by lia.
      replace (t + 1 * 86400000) with (t + 86400000) in H1 by lia.
      replace (t + (1 + 1) * 86400000) with (t + 2 * 86400000) in H1 by lia.
      rewrite H0, H1. vm_compute. reflexivity. }
    split; [exact Havg|]. rewrite Heq, Havg. vm_compute. reflexivity.
Qed.

(** Three commits one day apart, listed newest first as the API does. *)
Lemma consistency_score_spec_witness :
  consistencyScore [172800000; 86400000; 0]%Z = Fin 95.
Proof.
  destruct (consistency_score_spec
              [172800000; 86400000; 0] [0; 86400000; 172800000])
    as (_ & _ & _ & H & _).
  - repeat constructor; vm_compute; discriminate.
  - exact (Permutation_rev [0; 86400000; 172800000]).
  - apply (H 0). reflexivity.
Defined.

(** The rounding of the quotients shows: three commits, seven seconds and
    some 33 days apart, score 16.499999999999986, which is displayed as 16;
    the exact quotients would give 16.5, displayed as 17. *)
Example consistency_score_rounds :
  consistencyScore [1706952960000; 1704067207000; 1704067200000]
  = Fin (1161084278931455 # 70368744177664)
  /\ Math_round_num (consistencyScore [1706952960000; 1704067207000; 1704067200000])
     = Fin 16
  /\ (1161084278931455 # 70368744177664 < 33 # 2)%Q.
Proof. split; [|split]; vm_compute; reflexivity. Qed.

(** ** The link-header parser *)

Module LinkFacts.

Lemma split_nonempty sep s : split sep s <> [].
Proof.
  destruct s as [|c r]; cbn [split]; [discriminate|].
  destruct (Ascii.eqb c sep); [discriminate|].
  destruct (split sep r); discriminate.
Qed.

Lemma split_no_sep sep a : ~ In sep a -> split sep a = [a].
Proof.
  induction a as [|c a IH]; intros H; cbn [split]; [reflexivity|].
  destruct (Ascii.eqb_spec c sep) as [->|Hne].
  - exfalso. apply H. left. reflexivity.
  - rewrite IH; [reflexivity|]. intros Hin. apply H. right. exact Hin.
Qed.

Lemma split_app_sep sep a b :
  ~ In sep a -> split sep (a ++ sep :: b) = a :: split sep b.
Proof.
  induction a as [|c a IH]; intros H; cbn [split app].
  - rewrite Ascii.eqb_refl. reflexivity.
  - destruct (Ascii.eqb_spec c sep) as [->|Hne].
    + exfalso. apply H. left. reflexivity.
    + rewrite IH; [reflexivity|]. intros Hin. apply H. right. exact Hin.
Qed.

Lemma split_join sep p ps :
  Forall (fun x => ~ In sep x) (p :: ps) ->
  split sep (join sep (p :: ps)) = p :: ps.
Proof.
  revert p. induction ps as [|q ps IH]; intros p H.
  - cbn [join]. apply split_no_sep. apply Forall_inv in H. exact H.
  - change (join sep (p :: q :: ps)) with (p ++ sep :: join sep (q :: ps)).
    rewrite split_app_sep by (apply Forall_inv in H; exact H).
    f_equal. apply IH. apply Forall_inv_tail in H. exact H.
Qed.

Lemma split_head sep s : exists p ps b, split sep s = p :: ps /\ s = p ++ b.
Proof.
  induction s as [|c s (p & ps & b & Hs & Hb)]; cbn [split].
  - exists [], [], []. split; reflexivity.
  - destruct (Ascii.eqb c sep).
    + exists [], (split sep s), (c :: s). split; reflexivity.
    + rewrite Hs. exists (c :: p), ps, b. split; [reflexivity|].
      cbn [app]. f_equal. exact Hb.
Qed.

(** Every piece of a split string occurs in it. *)
Lemma split_pieces sep s x : In x (split sep s) -> occurs_in x s.
Proof.
  revert x. induction s as [|c s IH]; intros x; cbn [split].
  - intros [<-|[]]. exists [], []. reflexivity.
  - destruct (Ascii.eqb c sep).
    + intros [<-|Hin].
      * exists [], (c :: s). reflexivity.
      * destruct (IH x Hin) as (a & b & ->). exists (c :: a), b. reflexivity.
    + destruct (split_head sep s) as (p & ps & b & Hs & Hb). rewrite Hs in *.
      intros [<-|Hin].
      * exists [], b. cbn [app]. f_equal. exact Hb.
      * destruct (IH x (or_intror Hin)) as (a & b' & ->).
        exists (c :: a), b'. reflexivity.
Qed.

Lemma trimStart_pad pad s :
  Forall (fun c => is_space c = true) pad -> trimStart (pad ++ s) = trimStart s.
Proof.
  induction 1 as [|c pad Hc _ IH]; [reflexivity|].
  cbn [app trimStart]. rewrite Hc. exact IH.
Qed.

Lemma trimStart_keep c s : is_space c = false -> trimStart (c :: s) = c :: s.
Proof. intros H. cbn [trimStart]. rewrite H. reflexivity. Qed.

Lemma trimEnd_keep s c : is_space c = false -> trimEnd (s ++ [c]) = s ++ [c].
Proof.
  intros H. unfold trimEnd. rewrite rev_app_distr. cbn [rev app].
  rewrite trimStart_keep by exact H.
  change (c :: rev s) with ([c] ++ rev s). rewrite rev_app_distr, rev_involutive.
  reflexivity.
Qed.

Lemma trimStart_suffix s : exists a, s = a ++ trimStart s.
Proof.
  induction s as [|c s [a Ha]]; [exists []; reflexivity|].
  cbn [trimStart]. destruct (is_space c).
  - exists (c :: a). cbn [app]. f_equal. exact Ha.
  - exists []. reflexivity.
Qed.

Lemma trim_occurs s : occurs_in (trim s) s.
Proof.
  unfold trim, trimEnd.
  destruct (trimStart_suffix s) as [a Ha].
  destruct (trimStart_suffix (rev (trimStart s))) as [b Hb].
  exists a, (rev b). rewrite Ha at 1. f_equal.
  rewrite <- rev_app_distr, <- Hb, rev_involutive. reflexivity.
Qed.

Lemma occurs_in_trans x y z : occurs_in x y -> occurs_in y z -> occurs_in x z.
Proof.
  intros (a & b & ->) (a' & b' & ->). exists (a' ++ a), (b ++ b').
  rewrite <- !app_assoc. reflexivity.
Qed.

Lemma starts_with_prefix p s : starts_with p s = true -> exists b, s = p ++ b.
Proof.
  revert s. induction p as [|a p IH]; intros s; cbn [starts_with].
  - exists s. reflexivity.
  - destruct s as [|c s]; [discriminate|].
    intros [->%Ascii.eqb_eq H]%andb_true_iff.
    destruct (IH s H) as [b ->]. exists b. reflexivity.
Qed.

Lemma starts_with_app p s : starts_with p (p ++ s) = true.
Proof.
  induction p as [|a p IH]; [reflexivity|].
  cbn [app starts_with]. rewrite Ascii.eqb_refl. exact IH.
Qed.

(** The pattern matches only where its literal head occurs. *)
Lemma match_rel_occurs s g : match_rel s = Some g -> occurs_in rel_head s.
Proof.
  induction s as [|c s IH]; cbn [match_rel]; [discriminate|].
  destruct (starts_with rel_head (c :: s)) eqn:Hp.
  - intros _. apply starts_with_prefix in Hp as [b ->]. exists [], b. reflexivity.
  - intros H. destruct (IH H) as (a & b & ->). exists (c :: a), b. reflexivity.
Qed.

Lemma take_line_all s :
  Forall (fun c => is_line_terminator c = false) s -> take_line s = s.
Proof.
  induction 1 as [|c s Hc _ IH]; [reflexivity|].
  cbn [take_line]. rewrite Hc, IH. reflexivity.
Qed.

Lemma upto_last_quote_closing r : upto_last_quote (r ++ [dquote]) = Some r.
Proof.
  induction r as [|c r IH]; [reflexivity|].
  cbn [app upto_last_quote]. rewrite IH. reflexivity.
Qed.

(** The pattern reads a quoted name back. *)
Lemma match_rel_quoted rel :
  Forall (fun c => is_line_terminator c = false) rel ->
  match_rel (rel_head ++ rel ++ [dquote]) = Some rel.
Proof.
  intros H.
  assert (exists c s, rel_head ++ rel ++ [dquote] = c :: s) as (c & s & E)
    by (eexists _, _; reflexivity).
  rewrite E. cbn [match_rel]. rewrite <- E. rewrite starts_with_app.
  change (skipn 5 (rel_head ++ rel ++ [dquote])) with (rel ++ [dquote]).
  rewrite take_line_all.
  - rewrite upto_last_quote_closing. reflexivity.
  - apply Forall_app. split; [exact H|]. constructor; [reflexivity|constructor].
Qed.

Lemma space_excludes sep pad :
  is_space sep = false -> Forall (fun c => is_space c = true) pad -> ~ In sep pad.
Proof.
  intros Hs Hpad Hin. rewrite Forall_forall in Hpad.
  apply list_elem_of_In, Hpad in Hin. congruence.
Qed.

Lemma render_entry_segments pad url rel :
  render_entry (Entry pad url rel)
  = url_segment pad url ++ ";"%char :: rel_segment rel.
Proof.
  unfold render_entry, url_segment, rel_segment, rel_head.
  cbn [lit list_ascii_of_string]. rewrite <- !app_assoc. cbn [app].
  rewrite <- !app_assoc. reflexivity.
Qed.

Lemma url_segment_free sep pad url :
  is_space sep = false -> sep <> "<"%char -> sep <> ">"%char ->
  Forall (fun c => is_space c = true) pad -> ~ In sep url ->
  ~ In sep (url_segment pad url).
Proof.
  intros Hs Ho Hc Hpad Hurl. unfold url_segment.
  rewrite in_app_iff. cbn [In]. rewrite in_app_iff. cbn [In].
  pose proof (space_excludes sep pad Hs Hpad). intuition congruence.
Qed.

Lemma rel_segment_free sep rel :
  ~ In sep (rel_segment []) -> ~ In sep rel -> ~ In sep (rel_segment rel).
Proof.
  unfold rel_segment, rel_head. cbn [lit list_ascii_of_string app In].
  rewrite in_app_iff. cbn [In]. intuition congruence.
Qed.

Lemma split_entry pad url rel :
  Forall (fun c => is_space c = true) pad ->
  ~ In ";"%char url -> ~ In ";"%char rel ->
  split ";" (render_entry (Entry pad url rel))
  = [url_segment pad url; rel_segment rel].
Proof.
  intros Hpad Hurl Hrel. rewrite render_entry_segments.
  rewrite split_app_sep.
  - rewrite split_no_sep; [reflexivity|].
    apply rel_segment_free; [|exact Hrel].
    vm_compute. intuition discriminate.
  - apply url_segment_free; try assumption; try discriminate. reflexivity.
Qed.

Lemma trim_url_segment pad url :
  Forall (fun c => is_space c = true) pad ->
  trim (url_segment pad url) = "<"%char :: url ++ [">"%char].
Proof.
  intros Hpad. unfold trim, url_segment. rewrite trimStart_pad by exact Hpad.
  rewrite trimStart_keep by reflexivity.
  change ("<"%char :: url ++ [">"%char]) with (("<"%char :: url) ++ [">"%char]).
  apply trimEnd_keep. reflexivity.
Qed.

Lemma replace_angle_bracketed url :
  replace_angle ("<"%char :: url ++ [">"%char]) = url.
Proof.
  cbn [replace_angle]. rewrite Ascii.eqb_refl. unfold drop_closing.
  rewrite rev_app_distr. cbn [rev app]. rewrite Ascii.eqb_refl.
  apply rev_involutive.
Qed.

Lemma trim_rel_segment rel : trim (rel_segment rel) = rel_head ++ rel ++ [dquote].
Proof.
  unfold trim, rel_segment.
  change (trimStart (" "%char :: rel_head ++ rel ++ [dquote]))
    with (rel_head ++ rel ++ [dquote]).
  rewrite app_assoc. apply trimEnd_keep. reflexivity.
Qed.

(** A well-formed entry is read back as written. *)
Lemma link_part_entry links pad url rel :
  readable (Entry pad url rel) ->
  link_part links (render_entry (Entry pad url rel)) = <[rel := url]> links.
Proof.
  intros (Hpad & Hu & Hr & _ & Hus & _ & Hrs & Hlt & Hproto).
  unfold link_part, link_url, link_rel.
  rewrite split_entry by assumption. cbn [nth nth_error].
  rewrite trim_url_segment by assumption. rewrite replace_angle_bracketed.
  rewrite trim_rel_segment, match_rel_quoted by assumption.
  destruct url as [|u0 url]; [contradiction|].
  destruct rel as [|r0 rel]; [contradiction|].
  cbn [truthy andb]. unfold JsObject.set.
  rewrite decide_False by exact Hproto. reflexivity.
Qed.

(** A part in which the head of the pattern does not occur is dropped. *)
Lemma link_part_no_rel links text :
  ~ occurs_in rel_head text -> link_part links text = links.
Proof.
  intros Hno. unfold link_part, link_rel.
  destruct (nth_error (split ";" text) 1) as [s|] eqn:Hs; [|reflexivity].
  destruct (match_rel (trim s)) as [g|] eqn:Hm; [|reflexivity].
  exfalso. apply Hno.
  apply match_rel_occurs in Hm.
  apply nth_error_In, split_pieces in Hs.
  eapply occurs_in_trans; [exact Hm|].
  eapply occurs_in_trans; [apply trim_occurs | exact Hs].
Qed.

(** An entry without brackets: its two segments and how they are read. *)
Lemma render_bare_segments pad url rel :
  render_entry (Unbracketed pad url rel) = (pad ++ url) ++ ";"%char :: rel_segment rel.
Proof.
  unfold render_entry, rel_segment, rel_head.
  cbn [lit list_ascii_of_string]. rewrite <- !app_assoc. cbn [app].
  reflexivity.
Qed.

Lemma split_bare pad url rel :
  Forall (fun c => is_space c = true) pad ->
  ~ In ";"%char url -> ~ In ";"%char rel ->
  split ";" (render_entry (Unbracketed pad url rel)) = [pad ++ url; rel_segment rel].
Proof.
  intros Hpad Hurl Hrel. rewrite render_bare_segments.
  rewrite split_app_sep.
  - rewrite split_no_sep; [reflexivity|].
    apply rel_segment_free; [|exact Hrel].
    vm_compute. intuition discriminate.
  - rewrite in_app_iff. pose proof (space_excludes ";"%char pad eq_refl Hpad). tauto.
Qed.

Lemma trim_bare pad url :
  Forall (fun c => is_space c = true) pad ->
  (exists c r, url = c :: r /\ is_space c = false /\ c <> "<"%char) ->
  (exists r c, url = r ++ [c] /\ is_space c = false /\ c <> ">"%char) ->
  trim (pad ++ url) = url /\ replace_angle url = url.
Proof.
  intros Hpad (c & r & Hc & Hs & Ho) (r' & c' & Hc' & Hs' & Hcl). split.
  - unfold trim. rewrite trimStart_pad by exact Hpad.
    rewrite Hc, trimStart_keep by exact Hs. rewrite <- Hc, Hc'.
    apply trimEnd_keep. exact Hs'.
  - rewrite Hc. cbn [replace_angle].
    destruct (Ascii.eqb_spec c "<") as [->|_]; [contradiction|].
    rewrite <- Hc, Hc'. unfold drop_closing. rewrite rev_app_distr. cbn [rev app].
    destruct (Ascii.eqb_spec c' ">") as [->|_]; [contradiction | reflexivity].
Qed.

(** An entry without brackets is read back as written too. *)
Lemma link_part_bare links pad url rel :
  readable (Unbracketed pad url rel) ->
  link_part links (render_entry (Unbracketed pad url rel)) = <[rel := url]> links.
Proof.
  intros (Hpad & (Hu & Hr & _ & Hus & _ & Hrs & Hlt & Hproto) & Hfirst & Hlast).
  unfold link_part, link_url, link_rel.
  rewrite split_bare by assumption. cbn [nth nth_error].
  destruct (trim_bare pad url Hpad Hfirst Hlast) as [-> ->].
  rewrite trim_rel_segment, match_rel_quoted by assumption.
  destruct url as [|u0 url]; [contradiction|].
  destruct rel as [|r0 rel]; [contradiction|].
  cbn [truthy andb]. unfold JsObject.set.
  rewrite decide_False by exact Hproto. reflexivity.
Qed.

Lemma render_entry_free e : readable e -> ~ In ","%char (render_entry e).
Proof.
  destruct e as [pad url rel|pad url rel|text]; cbn [readable].
  - intros (Hpad & _ & _ & Huc & _ & Hrc & _).
    rewrite render_entry_segments. rewrite in_app_iff. cbn [In].
    pose proof (url_segment_free ","%char pad url eq_refl) as H1.
    pose proof (rel_segment_free ","%char rel) as H2.
    assert (~ In ","%char (rel_segment [])) by (vm_compute; intuition discriminate).
    assert (","%char <> "<"%char) by discriminate.
    assert (","%char <> ">"%char) by discriminate.
    intuition discriminate.
  - intros (Hpad & (_ & _ & Huc & _ & Hrc & _) & _).
    rewrite render_bare_segments. rewrite !in_app_iff. cbn [In].
    pose proof (space_excludes ","%char pad eq_refl Hpad) as H1.
    pose proof (rel_segment_free ","%char rel) as H2.
    assert (~ In ","%char (rel_segment [])) by (vm_compute; intuition discriminate).
    intuition discriminate.
  - intros [H _]. exact H.
Qed.

(** The loop over the parts stores the relations of the well-formed
    entries, in their order. *)
Lemma fold_link_parts es links :
  Forall readable es ->
  fold_left link_part (map render_entry es) links
  = fold_left store_relation (relations es) links.
Proof.
  intros H. revert links. induction H as [|e es He _ IH]; intros links.
  - reflexivity.
  - cbn [map fold_left]. destruct e as [pad url rel|pad url rel|text].
    + rewrite link_part_entry by exact He. cbn [relations fold_left].
      apply IH.
    + rewrite link_part_bare by exact He. cbn [relations fold_left].
      apply IH.
    + destruct He as [_ Hno]. cbn [render_entry].
      rewrite link_part_no_rel by exact Hno. cbn [relations]. apply IH.
Qed.

Lemma fold_store_relations l links :
  NoDup (map fst l) ->
  (forall r, In r (map fst l) -> links !! r = None) ->
  let links' := fold_left store_relation l links in
  size links' = (size links + length l)%nat
  /\ (forall r u, In (r, u) l -> links' !! r = Some u)
  /\ (forall r, ~ In r (map fst l) -> links' !! r = links !! r).
Proof.
  revert links. induction l as [|[r u] l IH]; intros links Hnd Hfresh links'.
  - subst links'. cbn [fold_left length].
    split; [lia|]. split; [intros ? ? []|reflexivity].
  - subst links'. cbn [fold_left map fst] in *.
    apply NoDup_cons in Hnd as [Hr Hnd].
    destruct (IH (store_relation links (r, u)) Hnd) as (Hsize & Hget & Hkeep).
    { intros r' Hr'. unfold store_relation. cbn [fst snd].
      rewrite lookup_insert_ne.
      - apply Hfresh. right. exact Hr'.
      - intros ->. apply Hr, list_elem_of_In. exact Hr'. }
    split; [|split].
    + rewrite Hsize. unfold store_relation. cbn [fst snd].
      rewrite map_size_insert_None by (apply Hfresh; left; reflexivity).
      cbn [length]. lia.
    + intros r' u' [[= <- <-]|Hin].
      * rewrite Hkeep by (intros Hin; apply Hr, list_elem_of_In; exact Hin).
        unfold store_relation. cbn [fst snd]. apply lookup_insert_eq.
      * apply Hget. exact Hin.
    + intros r' Hr'. rewrite Hkeep by (intros Hin; apply Hr'; right; exact Hin).
      unfold store_relation. cbn [fst snd]. apply lookup_insert_ne.
      intros ->. apply Hr'. left. reflexivity.
Qed.

(** Whatever the names are: each name ends with the URL of its last pair,
    and the names are the keys. *)
Lemma fold_store_last l links rel :
  fold_left store_relation l links !! rel
  = match last_url rel l with
    | Some u => Some u
    | None => links !! rel
    end.
Proof.
  revert links. induction l as [|[r u] l IH]; intros links; [reflexivity|].
  cbn [fold_left last_url]. rewrite IH. destruct (last_url rel l); [reflexivity|].
  unfold store_relation. cbn [fst snd].
  destruct (decide (r = rel)) as [->|Hne].
  - apply lookup_insert_eq.
  - apply lookup_insert_ne. exact Hne.
Qed.

Lemma fold_store_dom l links :
  dom (fold_left store_relation l links) = names l ∪ dom links.
Proof.
  unfold names. revert links. induction l as [|[r u] l IH]; intros links.
  - cbn. set_solver.
  - cbn [fold_left map fst list_to_set]. rewrite IH.
    unfold store_relation. cbn [fst snd]. rewrite dom_insert_L. set_solver.
Qed.

Lemma last_url_name l rel v : last_url rel l = Some v -> In rel (map fst l).
Proof.
  revert v. induction l as [|[r u] l IH]; intros v; [discriminate|].
  cbn [last_url map fst]. destruct (last_url rel l) as [w|].
  - intros _. right. apply (IH w). reflexivity.
  - destruct (decide (r = rel)) as [->|_]; [left; reflexivity | discriminate].
Qed.

Lemma last_url_unique l rel url :
  NoDup (map fst l) -> In (rel, url) l -> last_url rel l = Some url.
Proof.
  induction l as [|[r u] l IH]; [intros _ []|].
  cbn [map fst last_url]. intros [Hr Hnd]%NoDup_cons [[= -> ->]|Hin].
  - destruct (last_url rel l) as [v|] eqn:E.
    + exfalso. apply Hr, list_elem_of_In. exact (last_url_name _ _ _ E).
    + rewrite decide_True by reflexivity. reflexivity.
  - rewrite (IH Hnd Hin). reflexivity.
Qed.

Lemma parseLinkHeader_parts h :
  parseLinkHeader (Some h) = fold_left link_part (split "," h) ∅.
Proof.
  unfold parseLinkHeader. destruct h as [|c h]; [reflexivity|]. reflexivity.
Qed.

End LinkFacts.

Lemma absent_check (c : ascii) (l : str) :
  forallb (fun x => negb (Ascii.eqb x c)) l = true -> ~ In c l.
Proof.
  intros H Hin. rewrite forallb_forall in H. specialize (H c Hin).
  rewrite Ascii.eqb_refl in H. discriminate H.
Qed.

(** A closed list of characters does not hold a given character. *)
Ltac absent := apply absent_check; vm_compute; reflexivity.

(** A closed well-formed entry is readable. *)
Ltac readable_entry :=
  cbn [readable];
  split; [repeat constructor|];
  split; [discriminate|]; split; [discriminate|];
  split; [absent|]; split; [absent|]; split; [absent|]; split; [absent|];
  split; [repeat constructor|]; discriminate.

Lemma occurs_in_head c needle hay : occurs_in (c :: needle) hay -> In c hay.
Proof. intros (a & b & ->). apply in_or_app. right. left. reflexivity. Qed.

(** C3, as the code has it.  Take a header made of comma-separated parts:
    well-formed entries (an opening bracket, a URL, a closing bracket, a
    semicolon, [rel=] and a quoted name, possibly after white space),
    entries that lack the two angle brackets, and parts in which [rel=]
    with an opening quote does not occur; URLs and names are not empty and
    hold no comma and no semicolon, no name holds a line terminator or is
    [__proto__].  [parseLinkHeader] returns the mapping that gives every
    relation name of an entry, with or without brackets, the URL of the
    last entry of that name, and nothing else: it has one mapping entry for
    each name, so entries of one name share one, and the parts without
    [rel=] are dropped.  If the names of the N entries differ from each
    other, the mapping has exactly N entries, each from a name to its URL.
    An absent and an empty header give the empty mapping. *)
Theorem parseLinkHeader_entries (es : list link_entry) :
  Forall readable es ->
  let links := parseLinkHeader (Some (render_header es)) in
  (forall rel, links !! rel = last_url rel (relations es))
  /\ dom links = names (relations es)
  /\ size links = size (names (relations es))
  /\ (NoDup (map fst (relations es)) ->
      size links = length (relations es)
      /\ forall rel url, In (rel, url) (relations es) -> links !! rel = Some url)
  /\ parseLinkHeader None = ∅
  /\ parseLinkHeader (Some []) = ∅.
Proof.
  intros Hes links. subst links.
  assert (parseLinkHeader (Some (render_header es))
          = fold_left store_relation (relations es) ∅) as ->.
  { destruct es as [|e es]; [reflexivity|].
    rewrite LinkFacts.parseLinkHeader_parts. unfold render_header.
    cbn [map]. rewrite LinkFacts.split_join.
    - apply (LinkFacts.fold_link_parts (e :: es)). exact Hes.
    - change (e :: es) with ([e] ++ es) in Hes.
      rewrite <- (map_cons render_entry e es).
      apply Forall_forall. intros x Hx.
      apply list_elem_of_In, in_map_iff in Hx as (e' & <- & He').
      apply LinkFacts.render_entry_free.
      rewrite Forall_forall in Hes. apply Hes, list_elem_of_In. exact He'. }
  assert (dom (fold_left store_relation (relations es) ∅) = names (relations es))
    as Hdom by (rewrite LinkFacts.fold_store_dom; set_solver).
  split.
  { intros rel. rewrite LinkFacts.fold_store_last.
    destruct (last_url rel (relations es)); [reflexivity | apply lookup_empty]. }
  split; [exact Hdom|].
  split; [rewrite <- Hdom; symmetry; apply size_dom|].
  split; [|split; reflexivity].
  intros Hnd.
  destruct (LinkFacts.fold_store_relations (relations es) ∅ Hnd) as (Hsize & Hget & _).
  { intros r _. apply lookup_empty. }
  split; [rewrite Hsize, map_size_empty; reflexivity | exact Hget].
Qed.

(** Two entries of the relation [next], the second without brackets, one
    of the relation [last] and a part without [rel=]: two mapping entries,
    and [next] has the URL of the second entry. *)
Lemma parseLinkHeader_entries_witness :
  size (parseLinkHeader (Some (render_header mixed_links))) = 2%nat
  /\ parseLinkHeader (Some (render_header mixed_links)) !! lit "next"
     = Some (lit "https://x.test/b")
  /\ parseLinkHeader (Some (render_header mixed_links)) !! lit "last"
     = Some (lit "https://x.test/z").
Proof.
  destruct (parseLinkHeader_entries mixed_links) as (Hget & _ & Hsize & _).
  - unfold mixed_links.
    constructor; [|constructor; [|constructor; [|constructor; [|constructor]]]].
    + readable_entry.
    + cbn [readable]. split; [repeat constructor|]. split.
      * unfold plain.
        split; [discriminate|]. split; [discriminate|].
        split; [absent|]. split; [absent|]. split; [absent|]. split; [absent|].
        split; [repeat constructor | discriminate].
      * split.
        -- eexists _, _. split; [reflexivity|]. split; [reflexivity | discriminate].
        -- exists (lit "https://x.test/"), "b"%char.
           split; [reflexivity|]. split; [reflexivity | discriminate].
    + readable_entry.
    + cbn [readable]. split; [absent|].
      intros H. apply occurs_in_head in H. revert H. absent.
  - split; [rewrite Hsize; vm_compute; reflexivity|].
    split; rewrite Hget; reflexivity.
Defined.

(** C3 as stated fails twice: two well-formed entries of one relation give
    one mapping entry, not two, and an entry without angle brackets is not
    dropped. *)
Lemma parseLinkHeader_not_one_per_entry :
  length (relations same_relation_twice) = 2%nat
  /\ size (parseLinkHeader (Some (render_header same_relation_twice))) = 1%nat
  /\ size (parseLinkHeader (Some (render_header same_relation_twice)))
     <> length (relations same_relation_twice)
  /\ parseLinkHeader (Some bare_entry) !! lit "next" = Some (lit "https://x.test/a")
  /\ parseLinkHeader (Some bare_entry) <> ∅.
Proof.
  split; [reflexivity|]. split; [vm_compute; reflexivity|].
  split; [vm_compute; discriminate|]. split; [vm_compute; reflexivity|].
  intros H. apply (f_equal size) in H. vm_compute in H. discriminate H.
Qed.

(** The assertions of the development tests of the component. *)
Example parseLinkHeader_dev_tests :
  let links :=
    parseLinkHeader
      (Some (render_header
               [Entry [] page_two_url (lit "next");
                Entry (lit " ") page_ten_url (lit "last")])) in
  is_Some (links !! lit "next") /\ is_Some (links !! lit "last")
  /\ parseLinkHeader None !! lit "next" = None
  /\ parseLinkHeader
       (Some (render_header [Entry [] (lit "https://x.test?page=3") (lit "prev")]))
     !! lit "prev" = Some (lit "https://x.test?page=3")
  /\ size (parseLinkHeader (Some [])) = 0%nat.
Proof.
  cbv zeta. split; [|split; [|split; [|split]]].
  - eexists. vm_compute. reflexivity.
  - eexists. vm_compute. reflexivity.
  - reflexivity.
  - vm_compute. reflexivity.
  - reflexivity.
Qed.

(** ** The commit lister *)

Section DedupFacts.

Lemma ids_cons c l :
  ids (c :: l)
  = match identifier c with Some s => {[s]} ∪ ids l | None => ids l end.
Proof. unfold ids. simpl. destruct (identifier c); reflexivity. Qed.

Lemma ids_app l1 l2 : ids (l1 ++ l2) = ids l1 ∪ ids l2.
Proof. unfold ids. rewrite omap_app, list_to_set_app_L. reflexivity. Qed.

Lemma elem_of_ids s l :
  s ∈ ids l <-> exists c, In c l /\ identifier c = Some s.
Proof.
  unfold ids. rewrite elem_of_list_to_set, list_elem_of_omap.
  setoid_rewrite list_elem_of_In. reflexivity.
Qed.

(** One turn of the collecting loop is one turn of the specification. *)
Lemma collect_keep_first items all seen :
  fold_left collect items (all, seen)
  = (all ++ keep_first seen items, ids items ∪ seen).
Proof.
  revert all seen. induction items as [|c items IH]; intros all seen.
  - cbn. rewrite app_nil_r. f_equal. set_solver.
  - cbn [fold_left keep_first]. rewrite ids_cons. unfold collect at 2, identifier.
    destruct (sha c) as [s|]; [destruct (truthy s)|].
    + destruct (decide (s ∈ seen)) as [Hin|Hout].
      * rewrite IH. f_equal. set_solver.
      * rewrite IH, <- app_assoc. cbn [app]. f_equal. set_solver.
    + rewrite IH, <- app_assoc. reflexivity.
    + rewrite IH, <- app_assoc. reflexivity.
Qed.

Lemma keep_first_app seen l1 l2 :
  keep_first seen (l1 ++ l2)
  = keep_first seen l1 ++ keep_first (ids l1 ∪ seen) l2.
Proof.
  revert seen. induction l1 as [|c l1 IH]; intros seen.
  - cbn [app keep_first]. f_equal. set_solver.
  - cbn [app keep_first]. rewrite ids_cons.
    destruct (identifier c) as [s|].
    + destruct (decide (s ∈ seen)) as [Hin|Hout].
      * rewrite IH. do 2 f_equal. set_solver.
      * rewrite IH. cbn [app]. do 3 f_equal. set_solver.
    + rewrite IH. reflexivity.
Qed.

Lemma keep_first_sublist seen l : keep_first seen l `sublist_of` l.
Proof.
  revert seen. induction l as [|c l IH]; intros seen; cbn [keep_first].
  - constructor.
  - destruct (identifier c) as [s|]; [destruct (decide (s ∈ seen))|].
    + apply sublist_cons. apply IH.
    + apply sublist_skip. apply IH.
    + apply sublist_skip. apply IH.
Qed.

Lemma occurrences_cons s c l :
  occurrences s (c :: l)
  = ((if bool_decide (sha c = Some s) then 1 else 0) + occurrences s l)%nat.
Proof.
  unfold occurrences. cbn [List.filter].
  destruct (bool_decide (sha c = Some s)); reflexivity.
Qed.

Lemma sha_identifier s c : s <> [] -> sha c = Some s <-> identifier c = Some s.
Proof.
  intros Hs. unfold identifier. destruct (sha c) as [s'|]; [|split; discriminate].
  destruct s' as [|a s']; cbn [truthy].
  - split; [intros [= <-]; contradiction | discriminate].
  - reflexivity.
Qed.

(** An identifier is kept once: at its first occurrence, unless it was
    seen before. *)
Lemma occurrences_keep_first s seen l :
  s <> [] ->
  occurrences s (keep_first seen l)
  = if decide (s ∈ seen) then 0%nat
    else if decide (s ∈ ids l) then 1%nat else 0%nat.
Proof.
  intros Hs. revert seen. induction l as [|c l IH]; intros seen.
  - cbn [keep_first]. unfold occurrences. cbn.
    repeat case_decide; try reflexivity. set_solver.
  - cbn [keep_first]. rewrite ids_cons.
    pose proof (sha_identifier s c Hs) as Hsi.
    destruct (identifier c) as [s'|].
    + destruct (decide (s' ∈ seen)) as [Hin|Hout].
      * rewrite IH. repeat case_decide; try reflexivity; set_solver.
      * rewrite occurrences_cons, IH.
        destruct (bool_decide_reflect (sha c = Some s)) as [Hc|Hc].
        -- apply Hsi in Hc. injection Hc as ->.
           repeat case_decide; try reflexivity; set_solver.
        -- assert (s' <> s) by (intros ->; apply Hc, Hsi; reflexivity).
           repeat case_decide; try reflexivity; set_solver.
    + rewrite occurrences_cons, IH.
      rewrite bool_decide_eq_false_2; [reflexivity|].
      intros Hc. apply Hsi in Hc. discriminate Hc.
Qed.

End DedupFacts.

Section ListerFacts.

Variable reset_text : str -> str.

(** A run of the loop that ends: what it consumed and what it holds. *)
Lemma list_pages_listed responses st st' rest :
  list_pages reset_text responses st = Listed st' rest ->
  exists pages,
    responses = pages ++ rest
    /\ allCommits st'
       = allCommits st ++ keep_first (seenShas st) (concat (map page_items pages))
    /\ seenShas st' = ids (concat (map page_items pages)) ∪ seenShas st.
Proof.
  revert st. induction responses as [|f responses IH]; intros st; cbn [list_pages].
  - destruct (negb (truthy (nextUrl st))); [|destruct (decide _)];
      try discriminate; intros [= <- <-]; exists [];
      cbn; rewrite app_nil_r; (split; [reflexivity|split; [reflexivity|set_solver]]).
  - destruct (negb (truthy (nextUrl st))); [|destruct (decide _)].
    1,2: intros [= <- <-]; exists [];
      cbn; rewrite app_nil_r; (split; [reflexivity|split; [reflexivity|set_solver]]).
    destruct f as [resp|e]; [|discriminate].
    destruct (negb (ok resp)); [discriminate|].
    destruct (body resp) as [[|c items]|] eqn:Hb.
    + intros [= <- <-]. exists [Resolved resp]. cbn. rewrite Hb. cbn.
      rewrite app_nil_r. split; [reflexivity|split; [reflexivity|set_solver]].
    + rewrite collect_keep_first. intros H. apply IH in H as (pages & -> & Ha & Hs).
      cbn [allCommits seenShas] in Ha, Hs.
      exists (Resolved resp :: pages). cbn [map concat page_items]. rewrite Hb.
      split; [reflexivity|]. rewrite keep_first_app, ids_app, app_assoc.
      split; [exact Ha|]. rewrite Hs. set_solver.
    + intros [= <- <-]. exists [Resolved resp]. cbn. rewrite Hb. cbn.
      rewrite app_nil_r. split; [reflexivity|split; [reflexivity|set_solver]].
Qed.

(** A run that awaits a response resumes where it stood when more
    responses come. *)
Lemma list_pages_resume pre more st0 st :
  list_pages reset_text pre st0 = Awaiting st ->
  list_pages reset_text (pre ++ more) st0 = list_pages reset_text more st.
Proof.
  revert st0. induction pre as [|f pre IH]; intros st0; cbn [list_pages app].
  - destruct (negb (truthy (nextUrl st0))) eqn:Ht; [discriminate|].
    destruct (decide (nextUrl st0 ∈ seenPageUrls st0)) as [Hin|Hout]; [discriminate|].
    intros [= <-]. destruct more as [|g more]; cbn [list_pages]; rewrite Ht;
      destruct (decide (nextUrl st0 ∈ seenPageUrls st0)); try contradiction;
      reflexivity.
  - destruct (negb (truthy (nextUrl st0))); [discriminate|].
    destruct (decide (nextUrl st0 ∈ seenPageUrls st0)); [discriminate|].
    destruct f as [resp|e]; [|discriminate].
    destruct (negb (ok resp)); [discriminate|].
    destruct (body resp) as [[|c items]|]; try discriminate.
    destruct (fold_left collect (c :: items) (allCommits st0, seenShas st0)).
    apply IH.
Qed.

(** A run that awaits a response stands at the head of the loop, with an
    address it has not visited; it has fetched one page per response, each
    from another address. *)
Lemma list_pages_awaiting responses st0 st :
  list_pages reset_text responses st0 = Awaiting st ->
  truthy (nextUrl st) = true
  /\ (nextUrl st ∉ seenPageUrls st)
  /\ pageCount st = (pageCount st0 + length responses)%nat
  /\ size (seenPageUrls st) = (size (seenPageUrls st0) + length responses)%nat.
Proof.
  revert st0. induction responses as [|f responses IH]; intros st0; cbn [list_pages].
  - destruct (truthy (nextUrl st0)) eqn:Ht; [|discriminate]. cbn [negb].
    destruct (decide (nextUrl st0 ∈ seenPageUrls st0)) as [Hin|Hout]; [discriminate|].
    intros [= <-]. cbn [length]. repeat split; try assumption; lia.
  - destruct (negb (truthy (nextUrl st0))); [discriminate|].
    destruct (decide (nextUrl st0 ∈ seenPageUrls st0)) as [Hin|Hout]; [discriminate|].
    destruct f as [resp|e]; [|discriminate].
    destruct (negb (ok resp)); [discriminate|].
    destruct (body resp) as [[|c items]|]; try discriminate.
    destruct (fold_left collect (c :: items) (allCommits st0, seenShas st0)).
    intros H. apply IH in H as (H1 & H2 & H3 & H4).
    cbn [pageCount seenPageUrls] in H3, H4.
    rewrite size_union, size_singleton in H4 by set_solver.
    cbn [length]. repeat split; try assumption; lia.
Qed.

Lemma answers_split server k m :
  answers server (k + S m)
  = answers server k ++ server k :: map server (seq (S k) m).
Proof.
  unfold answers. rewrite seq_app, map_app. cbn [seq map Nat.add].
  reflexivity.
Qed.

End ListerFacts.

(** C7. When the listing ends, its commit list is what the pages it
    fetched delivered, with every item skipped whose identifier was already
    seen and every other item appended and marked seen: the items stay in
    the order of their first insertion, and an identifier that occurs on
    the pages (be it on two different pages or twice on one) occurs exactly
    once in the list. *)
Theorem dedup_keeps_first_insertion
    (reset_text : str -> str) (url : str) (responses : list fetched)
    (st : lister) (rest : list fetched) :
  list_pages reset_text responses (lister_start url) = Listed st rest ->
  exists pages,
    responses = pages ++ rest
    /\ let received := concat (map page_items pages) in
       allCommits st = keep_first ∅ received
       /\ allCommits st `sublist_of` received
       /\ forall s, s <> [] ->
            (exists c, In c received /\ sha c = Some s) ->
            occurrences s (allCommits st) = 1%nat.
Proof.
  intros H. apply list_pages_listed in H as (pages & Hr & Ha & _).
  exists pages. split; [exact Hr|]. cbn [lister_start allCommits seenShas app] in Ha.
  cbn zeta. split; [exact Ha|]. split.
  - rewrite Ha. apply keep_first_sublist.
  - intros s Hs (c & Hin & Hc). rewrite Ha, occurrences_keep_first by exact Hs.
    rewrite decide_False by set_solver. rewrite decide_True; [reflexivity|].
    apply elem_of_ids. exists c. split; [exact Hin|].
    apply sha_identifier; assumption.
Qed.

(** C6. Let a server answer the fetches of the listing one after the
    other.  If, after [k] pages, the next answer is a page whose [next]
    link names an address that was already fetched (the address of that
    very page included), the loop ends right there: however many answers
    the server has in store, the listing has fetched [k + 1] pages, each
    from another address, and asks for nothing more. *)
Theorem pagination_cycle_terminates
    (reset_text : str -> str) (server : nat -> fetched) (url : str)
    (k : nat) (st : lister) (resp : response) (c : commit) (items : list commit) :
  list_pages reset_text (answers server k) (lister_start url) = Awaiting st ->
  server k = Resolved resp ->
  ok resp = true ->
  body resp = JArray (c :: items) ->
  next_link resp ∈ ({[nextUrl st]} ∪ seenPageUrls st : gset str) ->
  forall n, (k < n)%nat ->
    exists st',
      list_pages reset_text (answers server n) (lister_start url)
      = Listed st' (map server (seq (S k) (n - S k)))
      /\ pageCount st' = S k
      /\ size (seenPageUrls st') = S k
      /\ nextUrl st' ∈ seenPageUrls st'.
Proof.
  intros Hrun Hk Hok Hb Hnext n Hn.
  remember (n - S k)%nat as m eqn:Hm.
  assert (n = k + S m)%nat as -> by lia. clear Hm Hn.
  rewrite answers_split, (list_pages_resume _ _ _ _ _ Hrun), Hk.
  apply list_pages_awaiting in Hrun as (Ht & Hout & Hc & Hs).
  unfold answers in Hc, Hs. rewrite length_map, length_seq in Hc, Hs.
  cbn [lister_start pageCount seenPageUrls] in Hc, Hs. rewrite size_empty in Hs.
  cbn [list_pages]. rewrite Ht. cbn [negb].
  rewrite decide_False by exact Hout. rewrite Hok, Hb. cbn [negb].
  destruct (fold_left collect (c :: items) (allCommits st, seenShas st))
    as [all' shas'].
  eexists. split.
  - destruct (map server (seq (S k) m)) as [|g more]; cbn [list_pages nextUrl];
      destruct (negb (truthy (next_link resp))) eqn:Hl.
    all: cbn [seenPageUrls]; try rewrite decide_True by exact Hnext; reflexivity.
  - cbn [pageCount seenPageUrls nextUrl].
    rewrite size_union, size_singleton by set_solver.
    split; [lia|]. split; [lia|]. exact Hnext.
Qed.

Section Pigeonhole.

Variable reset_text : str -> str.

(** The addresses a run visits are the first one and those the [next]
    links name. *)
Lemma list_pages_addresses (V : gset str) responses st0 st :
  Forall (fun f => forall resp, f = Resolved resp -> next_link resp ∈ V) responses ->
  seenPageUrls st0 ⊆ V -> nextUrl st0 ∈ V ->
  list_pages reset_text responses st0 = Awaiting st ->
  seenPageUrls st ⊆ V /\ nextUrl st ∈ V.
Proof.
  intros Hall. revert st0.
  induction Hall as [|f responses Hf _ IH]; intros st0 Hsub Hnext;
    cbn [list_pages].
  - destruct (negb (truthy (nextUrl st0))); [discriminate|].
    destruct (decide (nextUrl st0 ∈ seenPageUrls st0)); [discriminate|].
    intros [= <-]. split; assumption.
  - destruct (negb (truthy (nextUrl st0))); [discriminate|].
    destruct (decide (nextUrl st0 ∈ seenPageUrls st0)); [discriminate|].
    destruct f as [resp|e]; [|discriminate].
    destruct (negb (ok resp)); [discriminate|].
    destruct (body resp) as [[|c items]|]; try discriminate.
    destruct (fold_left collect (c :: items) (allCommits st0, seenShas st0)).
    apply IH; cbn [seenPageUrls nextUrl].
    + set_solver.
    + apply Hf. reflexivity.
Qed.

(** Termination on a finite stock of addresses: when the [next] links of
    a server stay within the addresses [U], the listing has ended, or has
    failed, by the time the server has given [size U + 1] answers. *)
Lemma pagination_bounded_by_addresses
    (server : nat -> fetched) (url : str) (U : gset str) (n : nat) (st : lister) :
  (forall k resp, server k = Resolved resp -> next_link resp ∈ U) ->
  list_pages reset_text (answers server n) (lister_start url) = Awaiting st ->
  (n <= size U)%nat.
Proof.
  intros HU Hrun.
  pose proof (list_pages_awaiting _ _ _ _ Hrun) as (_ & Hout & _ & Hsize).
  apply (list_pages_addresses ({[url]} ∪ U)) in Hrun as (Hsub & Hnext).
  - unfold answers in Hsize. rewrite length_map, length_seq in Hsize.
    cbn [lister_start seenPageUrls] in Hsize. rewrite size_empty in Hsize.
    assert ({[nextUrl st]} ∪ seenPageUrls st ⊆ {[url]} ∪ U) as Hall by set_solver.
    apply subseteq_size in Hall.
    rewrite size_union, size_singleton in Hall by set_solver.
    pose proof (size_union_alt ({[url]} : gset str) U) as Hu.
    rewrite size_singleton in Hu.
    assert (size (U ∖ {[url]}) <= size U)%nat
      by (apply subseteq_size; set_solver).
    lia.
  - unfold answers. apply Forall_forall. intros f Hf resp ->.
    apply list_elem_of_In, in_map_iff in Hf as (k & Hk & _).
    apply HU in Hk. set_solver.
  - cbn. set_solver.
  - cbn. set_solver.
Qed.

End Pigeonhole.

(** ** The orchestrator *)

(** C9. When the pagination is exhausted with no commit collected, the
    pipeline of that developer is aborted by the error "No commits found":
    [analyzeCommits] ends with this message in the developer's error slot,
    the phase [idle], the loading flag down, and no result record (the one
    of an earlier run was deleted at the start, none is stored). *)
Theorem no_commits_found_is_fatal
    (Date_getTime : str -> option Z) (Date_getHours : Z -> Z)
    (WORK_START WORK_END : Z) (reset_text encodeURIComponent : str -> str)
    (fetch_details : list commit -> exn + pool)
    (dev : developer) (metaRes : meta_fetched) (responses : list fetched)
    (a : store) (defaultBranch metaWarning : str) (st : lister) (rest : list fetched) :
  truthy (trim (username dev)) = true ->
  truthy (trim (repo dev)) = true ->
  probe metaRes = inr (defaultBranch, metaWarning) ->
  list_pages reset_text responses
    (lister_start
       (first_url (encodeURIComponent (trim (username dev)))
          (encodeURIComponent (trim (repo dev)))
          (if truthy defaultBranch
           then lit "&sha=" ++ encodeURIComponent defaultBranch else [])))
  = Listed st rest ->
  allCommits st = [] ->
  exists a',
    analyzeCommits Date_getTime Date_getHours WORK_START WORK_END reset_text
      encodeURIComponent fetch_details dev metaRes responses a = Some a'
    /\ errors a' !! id dev = Some (lit "No commits found")
    /\ phases a' !! id dev = Some "idle"%string
    /\ results a' !! id dev = None
    /\ loadingStates a' !! id dev = Some false.
Proof.
  intros Hu Hr Hp Hl H0.
  unfold analyzeCommits, pipeline. rewrite Hu, Hr, Hp. cbn [negb orb].
  unfold fetch_all. rewrite Hl, H0.
  change (truthy (lit "No commits found")) with true. cbv iota.
  eexists. split; [reflexivity|].
  unfold setLoadingStates, setPhases, setErrors, deleteResults.
  cbn [errors phases results loadingStates].
  split; [apply lookup_insert_eq|].
  split; [apply lookup_insert_eq|].
  split; [|apply lookup_insert_eq].
  destruct (truthy metaWarning); cbn [results]; apply lookup_delete_eq.
Qed.

(** ** The detail-fetch pool *)

Section PoolFacts.

Variable n : nat.








End PoolFacts.




(** ** The fixtures of the specification *)

Lemma listed_run l : is_listed l = true -> l = Listed (run_state l) (run_rest l).
Proof. destruct l; [reflexivity | discriminate | discriminate]. Qed.

Lemma awaiting_run l : is_awaiting l = true -> l = Awaiting (run_state l).
Proof. destruct l; [discriminate | discriminate | reflexivity]. Qed.

(** The fixture of the two pages that share a commit: the shared identifier
    is listed once, at its first place. *)
Lemma dedup_keeps_first_insertion_witness :
  exists st,
    list_pages (fun s => s) shared_pages (lister_start page_one_url) = Listed st []
    /\ allCommits st = [dated_commit; undated_commit; third_commit]
    /\ occurrences (lit "b2") (allCommits st) = 1%nat.
Proof.
  pose proof (listed_run (list_pages (fun s => s) shared_pages (lister_start page_one_url)))
    as E.
  change (run_rest _) with (@nil fetched) in E.
  specialize (E eq_refl).
  destruct (dedup_keeps_first_insertion _ _ _ _ _ E) as (pages & Hp & Ha & _ & Hocc).
  rewrite app_nil_r in Hp. subst pages.
  eexists. split; [exact E|]. split.
  - vm_compute. reflexivity.
  - apply Hocc; [discriminate|]. exists undated_commit.
    split; [|reflexivity]. vm_compute. auto.
Defined.

(** The fixture of the specification: the second page links back to the
    first one.  Whatever the number of answers the server would give, the
    listing stops after two fetches. *)
Lemma pagination_cycle_terminates_witness :
  exists st',
    list_pages (fun s => s) (answers cyclic_server 5) (lister_start page_one_url)
    = Listed st' (map cyclic_server (seq 2 3))
    /\ pageCount st' = 2%nat
    /\ size (seenPageUrls st') = 2%nat
    /\ nextUrl st' ∈ seenPageUrls st'.
Proof.
  pose proof (awaiting_run
                (list_pages (fun s => s) (answers cyclic_server 1)
                   (lister_start page_one_url)) eq_refl) as E.
  apply (pagination_cycle_terminates (fun s => s) cyclic_server page_one_url 1 _
           (page [undated_commit] (Some page_one_url)) undated_commit [] E).
  - reflexivity.
  - reflexivity.
  - reflexivity.
  - apply elem_of_union_r.
    match goal with |- ?G => apply (bool_decide_unpack G) end.
    vm_compute. exact I.
  - lia.
Defined.

(** A developer whose repository lists no commit, with unreadable
    metadata. *)
Lemma no_commits_found_is_fatal_witness :
  exists a',
    analyzeCommits (fun _ => None) (fun _ => 0) 1 24 (fun s => s) (fun s => s)
      (fun _ => inl AbortError) some_developer (MetaRejected (Error []))
      empty_listing empty_store = Some a'
    /\ errors a' !! 1 = Some (lit "No commits found")
    /\ phases a' !! 1 = Some "idle"%string
    /\ results a' !! 1 = None
    /\ loadingStates a' !! 1 = Some false.
Proof.
  pose proof (listed_run
                (list_pages (fun s => s) empty_listing (lister_start page_one_url))
                eq_refl) as E.
  eapply (no_commits_found_is_fatal (fun _ => None) (fun _ => 0) 1 24
            (fun s => s) (fun s => s) (fun _ => inl AbortError)
            some_developer (MetaRejected (Error [])) empty_listing empty_store
            [] could_not_read).
  - reflexivity.
  - reflexivity.
  - reflexivity.
  - exact E.
  - vm_compute. reflexivity.
Defined.

(** ** File extensions *)

Module ExtFacts.

(** Splitting what stands before and after a separator. *)
Lemma split_app sep a b :
  split sep (a ++ sep :: b) = split sep a ++ split sep b.
Proof.
  induction a as [|c a IH]; cbn [split app].
  - rewrite Ascii.eqb_refl. reflexivity.
  - destruct (Ascii.eqb c sep).
    + rewrite IH. reflexivity.
    + rewrite IH. pose proof (LinkFacts.split_nonempty sep a) as Hne.
      destruct (split sep a) as [|p ps]; [contradiction|]. reflexivity.
Qed.

(** No piece of a split string holds the separator. *)
Lemma split_piece_free sep s x : In x (split sep s) -> ~ In sep x.
Proof.
  revert x. induction s as [|c s IH]; intros x; cbn [split].
  - intros [<-|[]] [].
  - destruct (Ascii.eqb_spec c sep) as [->|Hne].
    + intros [<-|Hin]; [intros []|]. apply IH. exact Hin.
    + pose proof (LinkFacts.split_nonempty sep s) as Hnil.
      destruct (split sep s) as [|p ps]; [contradiction|].
      intros [<-|Hin].
      * intros [Hc|Hin]; [congruence|].
        apply (IH p); [left; reflexivity | exact Hin].
      * apply IH. right. exact Hin.
Qed.

Lemma last_in {A} (l : list A) d : l <> [] -> In (List.last l d) l.
Proof.
  induction l as [|x [|y l] IH]; intros H; [contradiction | left; reflexivity |].
  right. apply IH. discriminate.
Qed.

Lemma lower_char_idem c : lower_char (lower_char c) = lower_char c.
Proof. destruct c as [[] [] [] [] [] [] [] []]; reflexivity. Qed.

Lemma lower_char_slash c : lower_char c = "/"%char -> c = "/"%char.
Proof.
  destruct c as [[] [] [] [] [] [] [] []]; vm_compute; intros H;
    first [reflexivity | discriminate H].
Qed.

Lemma lower_char_dot c : lower_char c = "."%char -> c = "."%char.
Proof.
  destruct c as [[] [] [] [] [] [] [] []]; vm_compute; intros H;
    first [reflexivity | discriminate H].
Qed.

Lemma toLowerCase_idem s : toLowerCase (toLowerCase s) = toLowerCase s.
Proof.
  unfold toLowerCase. rewrite map_map. apply map_ext. apply lower_char_idem.
Qed.

Lemma toLowerCase_free (sep : ascii) s :
  (forall c, lower_char c = sep -> c = sep) ->
  ~ In sep s -> ~ In sep (toLowerCase s).
Proof.
  intros Hsep Hs Hin. apply in_map_iff in Hin as (c & Hc & Hin).
  apply Hsep in Hc. subst c. contradiction.
Qed.

(** The last path segment and its pieces. *)
Lemma safeExt_base dir base :
  dir = [] \/ (exists d, dir = d ++ ["/"%char]) ->
  ~ In "/"%char base ->
  List.last (split "/" (dir ++ base)) [] = base.
Proof.
  intros [->|[d ->]] Hb.
  - cbn [app]. rewrite LinkFacts.split_no_sep by exact Hb. reflexivity.
  - rewrite <- app_assoc. cbn [app]. rewrite split_app.
    rewrite (LinkFacts.split_no_sep _ base) by exact Hb.
    apply last_last.
Qed.

End ExtFacts.

(** X1. Whatever the file name, missing or empty included, the extension
    is never empty, holds neither a slash nor a dot, and is in lower
    case. *)
Theorem safeExt_shape (filename : option str) :
  safeExt filename <> []
  /\ ~ In "/"%char (safeExt filename)
  /\ ~ In "."%char (safeExt filename)
  /\ toLowerCase (safeExt filename) = safeExt filename.
Proof.
  unfold safeExt.
  set (name := match filename with Some f => f | None => [] end).
  set (base := List.last (split "/" name) []).
  assert (~ In "/"%char base) as Hbase.
  { apply (ExtFacts.split_piece_free "/" name).
    apply ExtFacts.last_in, LinkFacts.split_nonempty. }
  destruct (length (split "." base) <? 2)%nat.
  { split; [discriminate|]. split; [vm_compute; intuition discriminate|].
    split; [vm_compute; intuition discriminate | reflexivity]. }
  pose proof (ExtFacts.last_in (split "." base) []
                (LinkFacts.split_nonempty "." base)) as Hin.
  destruct (List.last (split "." base) []) as [|c ext]; cbn [truthy].
  { split; [discriminate|]. split; [vm_compute; intuition discriminate|].
    split; [vm_compute; intuition discriminate | reflexivity]. }
  split; [discriminate|]. split; [|split].
  - apply ExtFacts.toLowerCase_free; [apply ExtFacts.lower_char_slash|].
    intros Hs. apply Hbase.
    apply LinkFacts.split_pieces in Hin as (a & b & ->).
    apply in_or_app. right. apply in_or_app. left. exact Hs.
  - apply ExtFacts.toLowerCase_free; [apply ExtFacts.lower_char_dot|].
    apply (ExtFacts.split_piece_free "." base). exact Hin.
  - apply ExtFacts.toLowerCase_idem.
Qed.

(** X2. The extension is read off the last path segment alone: what
    follows its last dot, in lower case; a segment without a dot, or one
    that ends with its last dot, has the extension [(no-ext)]. *)
Theorem safeExt_last_dot (dir stem ext base : str) :
  dir = [] \/ (exists d, dir = d ++ ["/"%char]) ->
  ~ In "/"%char stem -> ~ In "/"%char ext -> ~ In "."%char ext ->
  ~ In "/"%char base -> ~ In "."%char base ->
  safeExt (Some (dir ++ stem ++ "."%char :: ext))
  = (if truthy ext then toLowerCase ext else no_ext)
  /\ safeExt (Some (dir ++ base)) = no_ext.
Proof.
  intros Hdir Hstem Hext Hdot Hbase Hbdot. unfold safeExt. split.
  - rewrite (ExtFacts.safeExt_base dir (stem ++ "."%char :: ext) Hdir).
    + rewrite ExtFacts.split_app, (LinkFacts.split_no_sep _ ext) by exact Hdot.
      rewrite last_last, length_app. cbn [length].
      pose proof (LinkFacts.split_nonempty "." stem) as Hne.
      destruct (split "." stem) as [|p ps]; [contradiction|].
      replace (length (p :: ps) + 1 <? 2)%nat with false
        by (symmetry; apply Nat.ltb_ge; cbn [length]; lia).
      destruct ext; reflexivity.
    + intros Hin. apply in_app_or in Hin as [Hin|[Hin|Hin]];
        [contradiction | discriminate | contradiction].
  - rewrite (ExtFacts.safeExt_base dir base Hdir Hbase).
    rewrite (LinkFacts.split_no_sep _ base) by exact Hbdot. reflexivity.
Qed.

Lemma safeExt_last_dot_witness :
  safeExt (Some (lit "src/components/App.test.JSX")) = lit "jsx"
  /\ safeExt (Some (lit "src/components/Makefile")) = no_ext.
Proof.
  apply (safeExt_last_dot (lit "src/components/") (lit "App.test") (lit "JSX")
           (lit "Makefile")).
  - right. exists (lit "src/components"). reflexivity.
  - apply absent_check. vm_compute. reflexivity.
  - apply absent_check. vm_compute. reflexivity.
  - apply absent_check. vm_compute. reflexivity.
  - apply absent_check. vm_compute. reflexivity.
  - apply absent_check. vm_compute. reflexivity.
Defined.

(** The assertions of the development tests of the component, and three
    edge cases: a missing name, a hidden file and a trailing dot. *)
Example safeExt_dev_tests :
  safeExt (Some (lit "src/index.tsx")) = lit "tsx"
  /\ safeExt (Some (lit "README")) = lit "(no-ext)"
  /\ safeExt (Some (lit "a.b.C")) = lit "c"
  /\ safeExt (Some (lit "a/b/c")) = lit "(no-ext)"
  /\ safeExt (Some (lit "src/App.jsx")) = lit "jsx"
  /\ safeExt (Some (lit "src/styles.css")) = lit "css"
  /\ safeExt None = lit "(no-ext)"
  /\ safeExt (Some (lit ".gitignore")) = lit "gitignore"
  /\ safeExt (Some (lit "notes.")) = lit "(no-ext)"
  /\ safeExt (Some (lit "v1.2/notes")) = lit "(no-ext)".
Proof. repeat split; reflexivity. Qed.

(** ** Commit sizes *)

Module SizeFacts.

Lemma count_up_lookup k rs i :
  count_up k rs !! i
  = (fun r => if decide (i = k) then mkRange (range r) (count r + 1) else r)
      <$> rs !! i.
Proof.
  unfold count_up. destruct (decide (i = k)) as [->|Hne].
  - rewrite list_lookup_alter_eq. reflexivity.
  - rewrite list_lookup_alter_ne by congruence.
    destruct (rs !! i); reflexivity.
Qed.

Lemma size_step_index rs size : size_step rs size = count_up (range_index size) rs.
Proof. unfold size_step, range_index. repeat case_match; reflexivity. Qed.

Ltac decide_order :=
  repeat match goal with
         | |- context [(?a <=? ?b)] =>
             first [rewrite (proj2 (Z.leb_le a b)) by lia
                   |rewrite (proj2 (Z.leb_gt a b)) by lia]
         | |- context [(?a <? ?b)] =>
             first [rewrite (proj2 (Z.ltb_lt a b)) by lia
                   |rewrite (proj2 (Z.ltb_ge a b)) by lia]
         end.

(** The loop picks the range a size lies in. *)
Lemma in_size_range_index i size :
  in_size_range i size = Nat.eqb i (range_index size).
Proof.
  unfold range_index.
  destruct (Z.leb_spec size 50); [|destruct (Z.leb_spec size 100);
    [|destruct (Z.leb_spec size 200); [|destruct (Z.leb_spec size 500)]]];
    do 5 (destruct i as [|i]; [cbn [in_size_range Nat.eqb]; decide_order; reflexivity|]);
    reflexivity.
Qed.

Lemma size_step_lookup rs size i :
  size_step rs size !! i
  = (fun r => mkRange (range r) (count r + (if in_size_range i size then 1 else 0)))
      <$> rs !! i.
Proof.
  rewrite size_step_index, count_up_lookup, in_size_range_index.
  destruct (rs !! i) as [[l c]|]; cbn [fmap option_fmap option_map]; [|reflexivity].
  f_equal. case_decide as Hi.
  - subst i. rewrite Nat.eqb_refl. reflexivity.
  - apply Nat.eqb_neq in Hi. rewrite Hi. cbn [range count]. f_equal. lia.
Qed.

Lemma distribution_lookup sizes rs i :
  fold_left size_step sizes rs !! i
  = (fun r =>
       mkRange (range r)
         (count r + Z.of_nat (length (List.filter (in_size_range i) sizes))))
      <$> rs !! i.
Proof.
  revert rs. induction sizes as [|size sizes IH]; intros rs; cbn [fold_left].
  - destruct (rs !! i) as [[l c]|]; cbn; [do 2 f_equal; lia | reflexivity].
  - rewrite IH, size_step_lookup. cbn [List.filter].
    destruct (rs !! i) as [r|]; cbn [fmap option_fmap option_map]; [|reflexivity].
    do 2 f_equal. cbn [range count].
    destruct (in_size_range i size); cbn [length]; lia.
Qed.

Lemma range_index_bound size : (range_index size < 5)%nat.
Proof. unfold range_index. repeat case_match; lia. Qed.

(** The histogram in closed form. *)
Lemma distribution_formula (commitSizes : list Z) :
  commitSizeDistribution commitSizes
  = map (fun i =>
           mkRange (nth i size_labels ""%string)
             (Z.of_nat (length (List.filter (in_size_range i) commitSizes))))
      (seq 0 5).
Proof.
  apply list_eq. intros i. unfold commitSizeDistribution.
  rewrite distribution_lookup.
  do 5 (destruct i as [|i]; [reflexivity|]). reflexivity.
Qed.

Lemma filter_length_perm {A} (f : A -> bool) (l1 l2 : list A) :
  l1 ≡ₚ l2 -> length (List.filter f l1) = length (List.filter f l2).
Proof.
  induction 1 as [|x l1 l2 _ IH|x y l|l1 l2 l3 _ IH1 _ IH2]; cbn [List.filter].
  - reflexivity.
  - destruct (f x); cbn [length]; congruence.
  - destruct (f x), (f y); reflexivity.
  - congruence.
Qed.

(** The histogram does not depend on the order of the sizes. *)
Lemma distribution_perm (l1 l2 : list Z) :
  l1 ≡ₚ l2 -> commitSizeDistribution l1 = commitSizeDistribution l2.
Proof.
  intros H. rewrite !distribution_formula. apply map_ext. intros i.
  rewrite (filter_length_perm _ l1 l2 H). reflexivity.
Qed.

End SizeFacts.

(** X3. The histogram of commit sizes counts every size once, in the
    range it lies in: at most 50, 51 to 100, 101 to 200, 201 to 500, more
    than 500 (a size of exactly 500 counts for the fourth range, a
    negative one for the first).  The labels stay, and the five counts add
    up to the number of sizes. *)
Theorem commitSizeDistribution_counts (commitSizes : list Z) :
  map range (commitSizeDistribution commitSizes) = size_labels
  /\ map count (commitSizeDistribution commitSizes)
     = map (fun i => Z.of_nat (length (List.filter (in_size_range i) commitSizes)))
         (seq 0 5)
  /\ fold_left Z.add (map count (commitSizeDistribution commitSizes)) 0
     = Z.of_nat (length commitSizes)
  /\ (forall size, exists i, (i < 5)%nat /\ in_size_range i size = true
                           /\ forall j, in_size_range j size = true -> j = i).
Proof.
  pose proof (SizeFacts.distribution_formula commitSizes) as Heq.
  split; [rewrite Heq; reflexivity|]. split; [rewrite Heq; reflexivity|].
  split.
  - rewrite Heq. clear Heq. cbn [seq map fold_left count].
    induction commitSizes as [|size sizes IH]; [reflexivity|].
    cbn [List.filter length]. rewrite !SizeFacts.in_size_range_index.
    pose proof (SizeFacts.range_index_bound size) as Hb.
    destruct (range_index size) as [|[|[|[|[|k]]]]]; cbn [Nat.eqb length]; lia.
  - intros size. exists (range_index size).
    split; [apply SizeFacts.range_index_bound|]. split.
    + rewrite SizeFacts.in_size_range_index. apply Nat.eqb_refl.
    + intros j Hj. rewrite SizeFacts.in_size_range_index in Hj.
      apply Nat.eqb_eq. exact Hj.
Qed.

(** ** The timeline of intervals *)

Section TimelineFacts.

Variable toFixed1 : Q -> Q.

Lemma day_gaps_len (l : list Z) : length (day_gaps l) = (length l - 1)%nat.
Proof.
  unfold day_gaps. rewrite length_zip_with, length_tl. lia.
Qed.

Lemma day_gaps_lookup (l : list Z) i a b :
  l !! i = Some a -> l !! S i = Some b ->
  day_gaps l !! i = Some (inject_Z (b - a) / inject_Z ms_per_day)%Q.
Proof.
  intros Ha Hb. unfold day_gaps. rewrite lookup_zip_with, Ha. cbn.
  rewrite lookup_tail, Hb. reflexivity.
Qed.

(** The counting loop reads inside the array and collects the gaps in
    order. *)
Lemma timeline_fold (sorted : list Z) k :
  (k <= length (day_gaps sorted))%nat ->
  fold_left (timeline_step toFixed1 sorted) (seq 0 k) (Some [])
  = Some (imap (fun i g => mkPoint (point_label i) (toFixed1 g))
            (take k (day_gaps sorted))).
Proof.
  induction k as [|k IH]; intros Hk; [reflexivity|].
  rewrite seq_S, fold_left_app, IH by lia. cbn [fold_left Nat.add].
  rewrite day_gaps_len in Hk.
  destruct (lookup_lt_is_Some_2 sorted k) as [a Ha]; [lia|].
  destruct (lookup_lt_is_Some_2 sorted (S k)) as [b Hb]; [lia|].
  unfold timeline_step. rewrite Nat.add_1_r, Ha, Hb.
  rewrite (take_S_r _ _ _ (day_gaps_lookup sorted k a b Ha Hb)).
  rewrite imap_app. cbn [imap]. rewrite length_take, day_gaps_len.
  replace (k `min` (length sorted - 1) + 0)%nat with k by lia.
  reflexivity.
Qed.

Lemma timeline_loop_gaps (sorted : list Z) :
  timeline_loop toFixed1 sorted
  = Some (imap (fun i g => mkPoint (point_label i) (toFixed1 g))
            (take 30 (day_gaps sorted))).
Proof.
  unfold timeline_loop.
  replace (Z.to_nat (Z.min (Z.of_nat (length sorted) - 1) 30))
    with (Nat.min 30 (length (day_gaps sorted)))
    by (rewrite day_gaps_len; lia).
  rewrite timeline_fold by lia.
  rewrite <- take_take, firstn_all. reflexivity.
Qed.

End TimelineFacts.

(** X4. The timeline of the result never fails and never reads past the
    end of the sorted timestamps: it holds the first 30 gaps between
    neighbours, in order and each rounded to one decimal, labelled from
    [#1] on; with fewer than two timestamps it holds the single stand-in
    point.  So it has at least one and at most 30 points. *)
Theorem consistencyTimeline_points (toFixed1 : Q -> Q) (commitDates : list Z) :
  exists timeline,
    consistencyTimeline toFixed1 commitDates = Some timeline
    /\ (1 <= length timeline <= 30)%nat
    /\ ((length commitDates < 2)%nat -> timeline = [mkPoint (lit "#1") 0])
    /\ ((2 <= length commitDates)%nat ->
        timeline
        = imap (fun i g => mkPoint (point_label i) (toFixed1 g))
            (take 30 (day_gaps (sortedDates commitDates)))
        /\ length timeline = Nat.min (length commitDates - 1) 30).
Proof.
  unfold consistencyTimeline. rewrite timeline_loop_gaps.
  pose proof (day_gaps_len (sortedDates commitDates)) as Hlen.
  rewrite (Permutation_length (ConsistencyFacts.sortedDates_perm commitDates)) in Hlen.
  set (gaps := take 30 (day_gaps (sortedDates commitDates))).
  assert (length gaps = Nat.min 30 (length commitDates - 1)) as Hg
    by (unfold gaps; rewrite length_take, Hlen; reflexivity).
  destruct (imap _ gaps) as [|p ps] eqn:E.
  - eexists. split; [reflexivity|]. split; [cbn [length]; lia|].
    apply (f_equal length) in E. rewrite length_imap, Hg in E. cbn [length] in E.
    split; [reflexivity|]. intros H. lia.
  - eexists. split; [reflexivity|].
    apply (f_equal length) in E. rewrite length_imap, Hg in E.
    cbn [length] in *.
    split; [lia|]. split.
    + intros H. lia.
    + intros _. split; [reflexivity|]. lia.
Qed.

(** ** [cleanDomain] *)

Module DomainFacts.

Lemma drop_last_slash_app host :
  drop_last_slash (host ++ ["/"%char]) = host.
Proof.
  unfold drop_last_slash. rewrite rev_app_distr. cbn [rev app].
  rewrite Ascii.eqb_refl. apply rev_involutive.
Qed.

Lemma drop_last_slash_keep host :
  (forall h, host <> h ++ ["/"%char]) -> drop_last_slash host = host.
Proof.
  intros H. unfold drop_last_slash. destruct (rev host) as [|c r] eqn:E; [reflexivity|].
  destruct (Ascii.eqb_spec c "/"); [|reflexivity]. subst c. exfalso.
  apply (H (rev r)). rewrite <- (rev_involutive host), E. reflexivity.
Qed.

End DomainFacts.

(** X5. [cleanDomain] takes one web scheme off the front of its argument
    and one slash off its end: a host written after [https://] or
    [http://], or after nothing when what is written does not begin with
    one of them, and before a slash, or before nothing when it does not
    itself end with a slash, is given back as the host. *)
Theorem cleanDomain_host (scheme host tail : str) :
  In scheme [lit "https://"; lit "http://"]
  \/ (scheme = [] /\ starts_with (lit "https://") (host ++ tail) = false
      /\ starts_with (lit "http://") (host ++ tail) = false) ->
  tail = ["/"%char] \/ (tail = [] /\ forall h, host <> h ++ ["/"%char]) ->
  cleanDomain (scheme ++ host ++ tail) = host.
Proof.
  intros Hs Ht. unfold cleanDomain.
  assert (drop_scheme (scheme ++ host ++ tail) = host ++ tail) as ->.
  { unfold drop_scheme. destruct Hs as [[<-|[<-|[]]]|(-> & H1 & H2)].
    - rewrite LinkFacts.starts_with_app. reflexivity.
    - change (starts_with (lit "https://") (lit "http://" ++ host ++ tail))
        with false.
      rewrite LinkFacts.starts_with_app. reflexivity.
    - cbn [app]. rewrite H1, H2. reflexivity. }
  destruct Ht as [->|[-> Hh]].
  - apply DomainFacts.drop_last_slash_app.
  - rewrite app_nil_r. apply DomainFacts.drop_last_slash_keep. exact Hh.
Qed.

Lemma cleanDomain_host_witness :
  cleanDomain (lit "https://your-company.atlassian.net/")
  = lit "your-company.atlassian.net".
Proof.
  apply (cleanDomain_host (lit "https://") (lit "your-company.atlassian.net")
           ["/"%char]).
  - left. left. reflexivity.
  - left. reflexivity.
Defined.

(** Only one of each is taken off. *)
Example cleanDomain_once :
  cleanDomain (lit "https://http://jira.test//") = lit "http://jira.test/"
  /\ cleanDomain (lit "jira.test") = lit "jira.test"
  /\ cleanDomain (lit "https://") = [].
Proof. repeat split; reflexivity. Qed.

(** ** The CSV export *)

Module CsvFacts.

Lemma special_includes v :
  existsb csv_special v = includes "," v || includes dquote v || includes newline v.
Proof.
  unfold includes. induction v as [|c v IH]; [reflexivity|].
  cbn [existsb]. rewrite IH. unfold csv_special.
  rewrite (Ascii.eqb_sym "," c), (Ascii.eqb_sym dquote c), (Ascii.eqb_sym newline c).
  destruct (Ascii.eqb c ","), (Ascii.eqb c dquote), (Ascii.eqb c newline),
    (existsb (Ascii.eqb ",") v), (existsb (Ascii.eqb dquote) v),
    (existsb (Ascii.eqb newline) v); reflexivity.
Qed.

Lemma escapeCSV_cases v :
  escapeCSV v
  = if existsb csv_special v then dquote :: double_quotes v ++ [dquote] else v.
Proof. unfold escapeCSV. rewrite special_includes. reflexivity. Qed.

(** The characters of a cell that is written without quotes. *)
Lemma plain_chars v :
  exportable v = true -> existsb csv_special v = false ->
  Forall (fun x => csv_special x = false /\ Ascii.eqb x carriage_return = false) v.
Proof.
  unfold exportable. intros He Hs. rewrite Hs, orb_false_r in He.
  apply negb_true_iff in He. unfold includes in He.
  induction v as [|c v IH]; [constructor|].
  cbn [existsb] in He, Hs.
  apply orb_false_iff in He as [Hc He]. apply orb_false_iff in Hs as [Hcs Hs].
  constructor; [|apply IH; assumption].
  split; [exact Hcs|]. rewrite Ascii.eqb_sym. exact Hc.
Qed.

(** A character of a field without quotes is added to the field,
    whatever was read of the record before. *)
Lemma read_plain_char mode c field row table rest :
  mode <> Quoted -> csv_special c = false -> Ascii.eqb c carriage_return = false ->
  csv_read mode field row table (c :: rest) = csv_read Bare (c :: field) row table rest.
Proof.
  intros Hm Hs Hr. unfold csv_special in Hs.
  apply orb_false_iff in Hs as [[H1 H2]%orb_false_iff H3].
  cbn [csv_read]. rewrite H1, H2, H3, Hr.
  destruct mode; first [contradiction | reflexivity].
Qed.

Lemma read_plain s field row table rest :
  Forall (fun x => csv_special x = false /\ Ascii.eqb x carriage_return = false) s ->
  csv_read Bare field row table (s ++ rest)
  = csv_read Bare (rev s ++ field) row table rest.
Proof.
  intros H. revert field. induction H as [|c s [Hc Hr] _ IH]; intros field; [reflexivity|].
  cbn [app]. rewrite read_plain_char by first [discriminate | assumption].
  rewrite IH. cbn [rev]. rewrite <- app_assoc. reflexivity.
Qed.

(** A quoted field is read up to its closing quote, a doubled quote giving
    one. *)
Lemma read_quoted s field row table rest :
  csv_read Quoted field row table (double_quotes s ++ dquote :: rest)
  = csv_read QuoteSeen (rev s ++ field) row table rest.
Proof.
  revert field. induction s as [|c s IH]; intros field.
  - cbn [double_quotes app csv_read]. rewrite Ascii.eqb_refl. reflexivity.
  - cbn [double_quotes]. destruct (Ascii.eqb_spec c dquote) as [->|Hc].
    + change (csv_read Quoted field row table
                ((dquote :: dquote :: double_quotes s) ++ dquote :: rest))
        with (csv_read Quoted (dquote :: field) row table
                (double_quotes s ++ dquote :: rest)).
      rewrite IH. cbn [rev]. rewrite <- app_assoc. reflexivity.
    + cbn [app csv_read]. apply Ascii.eqb_neq in Hc. rewrite Hc, IH.
      cbn [rev]. rewrite <- app_assoc. reflexivity.
Qed.

(** An exported cell is read back as the cell. *)
Lemma read_cell mode v row table rest :
  mode = RecordStart \/ mode = FieldStart ->
  exportable v = true ->
  csv_read mode [] row table (escapeCSV v ++ rest)
  = csv_read (after_cell mode v) (rev v) row table rest.
Proof.
  intros Hm He. rewrite escapeCSV_cases. unfold after_cell.
  destruct (existsb csv_special v) eqn:Hs.
  - cbn [app]. rewrite <- app_assoc. cbn [app].
    assert (csv_read mode [] row table
              (dquote :: double_quotes v ++ dquote :: rest)
            = csv_read Quoted [] row table (double_quotes v ++ dquote :: rest)) as E
      by (destruct Hm as [-> | ->]; reflexivity).
    rewrite E, read_quoted, app_nil_r. reflexivity.
  - pose proof (plain_chars v He Hs) as Hv.
    destruct Hv as [|c v [Hc Hr] Hv]; [reflexivity|].
    cbn [app]. rewrite read_plain_char;
      [|destruct Hm as [-> | ->]; discriminate|exact Hc|exact Hr].
    rewrite (read_plain v) by exact Hv. reflexivity.
Qed.

Lemma read_comma mode field row table rest :
  mode <> Quoted ->
  csv_read mode field row table (","%char :: rest)
  = csv_read FieldStart [] (rev field :: row) table rest.
Proof. intros H. destruct mode; first [contradiction | reflexivity]. Qed.

Lemma read_newline mode field row table rest :
  in_record mode ->
  csv_read mode field row table (newline :: rest)
  = csv_read RecordStart [] [] (rev (rev field :: row) :: table) rest.
Proof. intros [-> | [-> | ->]]; reflexivity. Qed.

Lemma read_end mode field row table :
  in_record mode ->
  csv_read mode field row table [] = rev (rev (rev field :: row) :: table).
Proof. intros [-> | [-> | ->]]; reflexivity. Qed.

Lemma after_cell_mode mode v :
  mode = FieldStart \/ v <> [] -> mode = RecordStart \/ mode = FieldStart ->
  in_record (after_cell mode v).
Proof.
  unfold after_cell, in_record. intros H Hm.
  destruct (existsb csv_special v); [tauto|].
  destruct v as [|c v]; [|tauto]. destruct H as [->|H]; [tauto | contradiction].
Qed.

Lemma after_cell_open mode v :
  mode = RecordStart \/ mode = FieldStart -> after_cell mode v <> Quoted.
Proof.
  unfold after_cell. intros [-> | ->];
    destruct (existsb csv_special v); try discriminate;
    destruct v; discriminate.
Qed.

(** A row is read back cell by cell. *)
Lemma read_row v vs mode row table rest :
  mode = RecordStart \/ mode = FieldStart ->
  mode = FieldStart \/ v <> [] \/ vs <> [] ->
  Forall (fun v => exportable v = true) (v :: vs) ->
  exists mode',
    in_record mode'
    /\ csv_read mode [] row table (row_text (v :: vs) ++ rest)
       = csv_read mode' (rev (List.last (v :: vs) []))
           (rev (removelast (v :: vs)) ++ row) table rest.
Proof.
  intros Hm Hne Hall. revert v mode row Hm Hne Hall.
  induction vs as [|w vs IH]; intros v mode row Hm Hne Hall.
  - exists (after_cell mode v). split.
    + apply after_cell_mode; [|exact Hm]. destruct Hne as [H|[H|H]]; tauto.
    + unfold row_text. cbn [map join removelast List.last rev app].
      apply read_cell; [exact Hm|]. inversion Hall; assumption.
  - inversion Hall as [|? ? Hv Hrest]; subst.
    destruct (IH w FieldStart (v :: row)) as (mode' & Hin & E);
      [right; reflexivity | left; reflexivity | exact Hrest |].
    exists mode'. split; [exact Hin|].
    unfold row_text. cbn [map].
    change (join "," (escapeCSV v :: escapeCSV w :: map escapeCSV vs))
      with (escapeCSV v ++ ","%char :: row_text (w :: vs)).
    rewrite <- app_assoc. cbn [app].
    rewrite read_cell by assumption.
    rewrite read_comma by (apply after_cell_open; exact Hm).
    rewrite rev_involutive, E.
    change (List.last (v :: w :: vs) []) with (List.last (w :: vs) []).
    change (removelast (v :: w :: vs)) with (v :: removelast (w :: vs)).
    cbn [rev]. rewrite <- app_assoc. reflexivity.
Qed.

Lemma row_done (v : str) vs row :
  rev (List.last (v :: vs) [] :: rev (removelast (v :: vs)) ++ row)
  = rev row ++ v :: vs.
Proof.
  cbn [rev]. rewrite rev_app_distr, rev_involutive, <- app_assoc.
  f_equal. symmetry. apply app_removelast_last. discriminate.
Qed.

(** A table is read back row by row. *)
Lemma read_table rows table :
  Forall exportable_row rows ->
  csv_read RecordStart [] [] table (join newline (map row_text rows))
  = rev table ++ rows.
Proof.
  intros Hrows. revert table.
  induction Hrows as [|row rows (Hne & Hblank & Hcells) Hrows IH]; intros table.
  - cbn. rewrite app_nil_r. reflexivity.
  - destruct row as [|v vs]; [contradiction|].
    assert (RecordStart = FieldStart \/ v <> [] \/ vs <> []) as Hstart.
    { destruct v as [|c v]; [|right; left; discriminate].
      destruct vs as [|w vs]; [contradiction | right; right; discriminate]. }
    destruct rows as [|row' rows].
    + cbn [map join].
      destruct (read_row v vs RecordStart [] table [] (or_introl eq_refl) Hstart Hcells)
        as (mode' & Hin & E).
      rewrite app_nil_r in E. rewrite E, read_end by exact Hin.
      rewrite rev_involutive, row_done. cbn [rev app]. reflexivity.
    + change (join newline (map row_text ((v :: vs) :: row' :: rows)))
        with (row_text (v :: vs)
              ++ newline :: join newline (map row_text (row' :: rows))).
      destruct (read_row v vs RecordStart [] table
                  (newline :: join newline (map row_text (row' :: rows)))
                  (or_introl eq_refl) Hstart Hcells) as (mode' & Hin & E).
      rewrite E, read_newline by exact Hin.
      rewrite rev_involutive, row_done, IH.
      cbn [rev app]. rewrite <- app_assoc. reflexivity.
Qed.

End CsvFacts.

(** X6. What the CSV export writes is read back cell for cell by the
    usual reading of CSV text (commas part fields; a line feed, a carriage
    return or both part records; a quoted field runs to its closing quote,
    doubled quotes standing for one), for every table whose rows have a
    cell and are not a single empty cell, and whose cells hold a carriage
    return only together with a comma, a double quote or a line feed:
    commas, double quotes and line feeds in the cells are recovered.  The
    condition on the carriage return is needed: the export does not quote a
    cell for a carriage return alone, and such a cell is read back as two
    records. *)
Theorem csv_export_round_trip (table : list (list str)) :
  (Forall exportable_row table -> csv_parse (csvContent table) = table)
  /\ exportable (lit "a" ++ [carriage_return] ++ lit "b") = false
  /\ csv_parse (csvContent [[lit "a" ++ [carriage_return] ++ lit "b"; lit "c"]])
     = [[lit "a"]; [lit "b"; lit "c"]].
Proof.
  split; [|split; reflexivity].
  intros Hrows. unfold csv_parse, csvContent.
  apply (CsvFacts.read_table table [] Hrows).
Qed.

(** Two rows whose cells hold a comma, double quotes, a line feed and a
    carriage return next to a comma. *)
Lemma csv_export_round_trip_witness :
  csv_parse
    (csvContent
       [[lit "Owner"; lit "Top File Types"];
        [lit "o, inc" ++ [carriage_return];
         dquote :: lit "ts" ++ [dquote; newline] ++ lit "js; css"]])
  = [[lit "Owner"; lit "Top File Types"];
     [lit "o, inc" ++ [carriage_return];
      dquote :: lit "ts" ++ [dquote; newline] ++ lit "js; css"]].
Proof.
  apply (proj1 (csv_export_round_trip _)).
  repeat constructor; discriminate.
Defined.

(** ** The roster of developers *)

Module RosterFacts.

Lemma start_ok first : roster_ok (roster_start first).
Proof.
  unfold roster_ok, roster_start, MAX_DEVELOPERS. cbn.
  split; [lia|]. split; [repeat constructor; set_solver|].
  repeat constructor. cbn. lia.
Qed.

Lemma ids_below_next (r : roster) :
  Forall (fun d => id d < nextId r) (developers r) ->
  nextId r ∉ map id (developers r).
Proof.
  intros H Hin. apply list_elem_of_In, in_map_iff in Hin as (d & Hd & Hin).
  rewrite Forall_forall in H. apply list_elem_of_In, H in Hin. lia.
Qed.

Lemma append_ok r d :
  roster_ok r -> (length (developers r) < MAX_DEVELOPERS)%nat -> id d = nextId r ->
  roster_ok (mkRoster (developers r ++ [d]) (nextId r + 1)).
Proof.
  intros (Hlen & Hnd & Hlt) Hroom Hid. unfold roster_ok. cbn [developers nextId].
  split; [rewrite length_app; cbn; lia|]. split.
  - rewrite map_app. cbn [map]. apply NoDup_app. split; [exact Hnd|].
    split; [|repeat constructor; set_solver].
    intros x Hx [<-|[]]%list_elem_of_In. rewrite Hid in Hx.
    apply (ids_below_next r Hlt). exact Hx.
  - apply Forall_app. split.
    + eapply Forall_impl; [exact Hlt|]. cbn. intros; lia.
    + repeat constructor. lia.
Qed.

Lemma skip_id_ok r :
  roster_ok r -> roster_ok (mkRoster (developers r) (nextId r + 1)).
Proof.
  intros (Hlen & Hnd & Hlt). unfold roster_ok. cbn [developers nextId].
  split; [exact Hlen|]. split; [exact Hnd|].
  eapply Forall_impl; [exact Hlt|]. cbn. intros; lia.
Qed.

Lemma addDeveloper_ok r : roster_ok r -> roster_ok (addDeveloper r).
Proof.
  intros H. unfold addDeveloper.
  destruct (Nat.leb_spec MAX_DEVELOPERS (length (developers r))); [exact H|].
  apply append_ok; [exact H | assumption | reflexivity].
Qed.

Lemma loadFromHistory_ok owner repository r :
  roster_ok r -> roster_ok (loadFromHistory owner repository r).
Proof.
  intros H. unfold loadFromHistory.
  destruct (existsb _ _); [apply skip_id_ok; exact H|].
  destruct (Nat.leb_spec MAX_DEVELOPERS (length (developers r)));
    [apply skip_id_ok; exact H|].
  apply append_ok; [exact H | assumption | reflexivity].
Qed.

Lemma map_id_update devId field value (l : list developer) :
  map id (map (fun d => if id d =? devId then set_field field value d else d) l)
  = map id l.
Proof.
  rewrite map_map. apply map_ext. intros d.
  destruct (id d =? devId); [destruct field|]; reflexivity.
Qed.

Lemma updateDeveloper_ok devId field value r :
  roster_ok r -> roster_ok (updateDeveloper devId field value r).
Proof.
  intros (Hlen & Hnd & Hlt). unfold roster_ok, updateDeveloper.
  cbn [developers nextId]. rewrite length_map, map_id_update.
  split; [exact Hlen|]. split; [exact Hnd|].
  rewrite Forall_forall in *. intros d Hd.
  apply list_elem_of_In, in_map_iff in Hd as (d0 & <- & Hd0).
  apply list_elem_of_In, Hlt in Hd0.
  destruct (id d0 =? devId); [destruct field|]; exact Hd0.
Qed.

(** Taking away the cards of one identifier takes away at most one card. *)
Lemma filter_id_length (devId : Z) (l : list developer) :
  NoDup (map id l) ->
  (length l - 1 <= length (List.filter (fun d => negb (id d =? devId)%Z) l)
   /\ length (List.filter (fun d => negb (id d =? devId)%Z) l) <= length l)%nat.
Proof.
  induction l as [|d l IH]; intros Hnd; [cbn; lia|].
  cbn [map] in Hnd. apply NoDup_cons in Hnd as [Hd Hnd].
  cbn [List.filter]. destruct (Z.eqb_spec (id d) devId) as [He|He]; cbn [negb length].
  - rewrite forallb_filter_id; [lia|].
    apply forallb_forall. intros x Hx. apply negb_true_iff, Z.eqb_neq.
    intros Hx'. apply Hd. rewrite He, <- Hx'.
    apply list_elem_of_In, in_map. exact Hx.
  - specialize (IH Hnd). lia.
Qed.

Lemma removeDeveloper_ok devId r a :
  roster_ok r -> roster_ok (removeDeveloper devId r a).1.
Proof.
  intros H. unfold removeDeveloper.
  destruct (Nat.leb_spec (length (developers r)) 1); [exact H|].
  destruct H as (Hlen & Hnd & Hlt). unfold roster_ok. cbn [fst developers nextId].
  pose proof (filter_id_length devId (developers r) Hnd) as Hf.
  split; [lia|]. split.
  - apply (sublist_NoDup _ (map id (developers r))); [exact Hnd|].
    apply (fmap_sublist id). clear. induction (developers r) as [|d l IH]; [constructor|].
    cbn [List.filter]. destruct (negb _); [apply sublist_skip | apply sublist_cons];
      exact IH.
  - rewrite Forall_forall in *. intros d Hd.
    apply list_elem_of_In, filter_In in Hd as [Hd _].
    apply Hlt, list_elem_of_In. exact Hd.
Qed.

Lemma step_ok ra act : roster_ok ra.1 -> roster_ok (roster_step ra act).1.
Proof.
  destruct ra as [r a]. cbn [fst snd]. intros H. destruct act; cbn [roster_step fst snd].
  - apply addDeveloper_ok, H.
  - apply removeDeveloper_ok, H.
  - apply updateDeveloper_ok, H.
  - apply loadFromHistory_ok, H.
Qed.

End RosterFacts.

(** X7. Whatever a user does with the cards (add one, remove one, edit a
    field, load one from the history), in any order and from the mounted
    component on, there is at least one card and there are at most ten, no
    two cards have the same identifier, and the counter of identifiers is
    ahead of all of them. *)
Theorem roster_stays_ok (first : Z) (a : store) (actions : list roster_action) :
  roster_ok (fold_left roster_step actions (roster_start first, a)).1.
Proof.
  assert (forall ra, roster_ok ra.1 -> roster_ok (fold_left roster_step actions ra).1)
    as H.
  { induction actions as [|act actions IH]; intros ra Hra; [exact Hra|].
    cbn [fold_left]. apply IH, RosterFacts.step_ok, Hra. }
  apply H. apply RosterFacts.start_ok.
Qed.

Module HistoryFacts.

Lemma has_card_spec owner repository (l : list developer) :
  existsb (fun d => bool_decide (username d = owner)
                    && bool_decide (repo d = repository)) l = true
  <-> exists d, In d l /\ username d = owner /\ repo d = repository.
Proof.
  rewrite existsb_exists. split.
  - intros (d & Hd & [Hu Hr]%andb_true_iff).
    apply bool_decide_eq_true in Hu, Hr. eauto.
  - intros (d & Hd & Hu & Hr). exists d. split; [exact Hd|].
    rewrite !bool_decide_eq_true_2 by assumption. reflexivity.
Qed.

Lemma filter_sublist {A} (f : A -> bool) (l : list A) :
  List.filter f l `sublist_of` l.
Proof.
  induction l as [|x l IH]; [constructor|]. cbn [List.filter].
  destruct (f x); [apply sublist_skip | apply sublist_cons]; exact IH.
Qed.

Lemma sublist_In {A} (l1 l2 : list A) x : l1 `sublist_of` l2 -> In x l1 -> In x l2.
Proof.
  intros Hs Hin. apply list_elem_of_In. apply list_elem_of_In in Hin.
  apply (elem_of_sublist l1 l2 x Hin Hs).
Qed.

End HistoryFacts.

(** X8. Loading an entry of the history adds one card for its owner and
    repository unless such a card is there already or the roster is full:
    afterwards such a card exists or ten cards are in use, the cards that
    were there are untouched, and loading the same entry again changes no
    card.  An identifier is drawn in every case, also when no card is
    added. *)
Theorem loadFromHistory_once (owner repository : str) (r : roster) :
  let r' := loadFromHistory owner repository r in
  ((exists d, In d (developers r') /\ username d = owner /\ repo d = repository)
   \/ (MAX_DEVELOPERS <= length (developers r))%nat)
  /\ (exists added, developers r' = developers r ++ added /\ (length added <= 1)%nat)
  /\ developers (loadFromHistory owner repository r') = developers r'
  /\ nextId r' = nextId r + 1.
Proof.
  cbn zeta. unfold loadFromHistory.
  destruct (existsb _ (developers r)) eqn:Hex; cbn [developers nextId].
  { rewrite Hex. cbn [developers].
    split; [left; apply HistoryFacts.has_card_spec; exact Hex|].
    split; [exists []; rewrite app_nil_r; split; [reflexivity|cbn; lia]|].
    split; reflexivity. }
  destruct (Nat.leb_spec MAX_DEVELOPERS (length (developers r))) as [Hfull|Hroom];
    cbn [developers nextId].
  { rewrite Hex. apply Nat.leb_le in Hfull. rewrite Hfull. cbn [developers].
    split; [right; apply Nat.leb_le; exact Hfull|].
    split; [exists []; rewrite app_nil_r; split; [reflexivity|cbn; lia]|].
    split; reflexivity. }
  assert (existsb
            (fun d => bool_decide (username d = owner)
                      && bool_decide (repo d = repository))
            (developers r ++ [mkDeveloper (nextId r) owner repository []]) = true)
    as Hnow.
  { apply HistoryFacts.has_card_spec. eexists. split.
    - apply in_or_app. right. left. reflexivity.
    - split; reflexivity. }
  rewrite Hnow. cbn [developers].
  split; [left; apply HistoryFacts.has_card_spec; exact Hnow|].
  split; [eexists; split; [reflexivity|cbn; lia]|].
  split; reflexivity.
Qed.

(** X9. Recording a result in the history puts its entry first, drops
    every earlier entry of the same owner and repository, keeps the other
    entries in their order and cuts the list at 50 entries; if no two
    entries were of the same repository before, none are afterwards. *)
Theorem addToHistory_keeps (now : Z) (iso owner repository : str) (r : result)
    (prev : list history_entry) :
  let updated := addToHistory now iso owner repository r prev in
  (1 <= length updated <= 50)%nat
  /\ head updated = Some (mkEntry now owner repository iso r)
  /\ tail updated `sublist_of` prev
  /\ (forall h, In h (tail updated) -> entry_key h <> (owner, repository))
  /\ (forall h, In h prev -> entry_key h <> (owner, repository) ->
      (length prev < 50)%nat -> In h updated)
  /\ (NoDup (map entry_key prev) -> NoDup (map entry_key updated)).
Proof.
  cbn zeta. unfold addToHistory.
  set (filtered := List.filter _ prev).
  assert (forall h, In h filtered -> entry_key h <> (owner, repository)) as Hkey.
  { intros h [_ Hh]%filter_In [= Ho Hr]. unfold same_repository in Hh.
    rewrite !bool_decide_eq_true_2 in Hh by assumption. discriminate Hh. }
  change (firstn 50 (?x :: filtered)) with (x :: firstn 49 filtered).
  cbn [head tail length].
  split; [rewrite length_take; lia|]. split; [reflexivity|]. split.
  { etransitivity; [apply sublist_take | apply HistoryFacts.filter_sublist]. }
  split.
  { intros h Hh. apply Hkey.
    apply (HistoryFacts.sublist_In (take 49 filtered) filtered); [apply sublist_take|].
    exact Hh. }
  split.
  { intros h Hh Hk Hlen. right.
    assert (In h filtered) as Hf.
    { apply filter_In. split; [exact Hh|]. apply negb_true_iff.
      unfold same_repository. destruct (bool_decide_reflect (entry_owner h = owner));
        [|reflexivity].
      destruct (bool_decide_reflect (entry_repo h = repository)); [|reflexivity].
      exfalso. apply Hk. unfold entry_key. congruence. }
    rewrite firstn_all2; [exact Hf|].
    pose proof (sublist_length _ _ (HistoryFacts.filter_sublist
                  (fun h => negb (same_repository owner repository h)) prev)).
    fold filtered in H. lia. }
  intros Hnd. cbn [map]. apply NoDup_cons. split.
  - intros Hin. apply list_elem_of_In, in_map_iff in Hin as (h & Hh & Hin).
    apply (Hkey h); [|exact Hh].
    apply (HistoryFacts.sublist_In (take 49 filtered) filtered); [apply sublist_take | exact Hin].
  - apply (sublist_NoDup _ (map entry_key prev)); [exact Hnd|].
    apply (fmap_sublist entry_key).
    etransitivity; [apply sublist_take | apply HistoryFacts.filter_sublist].
Qed.

(** ** The detail-fetch pool: work distribution *)

Section PoolWork.

Variable n : nat.

Lemma omap_insert_perm {A B} (f : A -> option B) (l : list A) i x y :
  l !! i = Some x ->
  omap f (<[i := y]> l) ++ option_list (f x) ≡ₚ omap f l ++ option_list (f y).
Proof.
  intros Hi. rewrite (insert_take_drop l i y) by (eapply lookup_lt_Some; exact Hi).
  rewrite <- (take_drop_middle l i x Hi) at 3.
  rewrite !omap_app. cbn [omap list_omap].
  change (list_omap A B f) with (omap f).
  destruct (f x) as [b|], (f y) as [c|]; cbn [option_list app];
    rewrite ?app_nil_r; solve_Permutation.
Qed.

Lemma seq_claim k :
  seq 0 (Nat.min (S k) n) = seq 0 (Nat.min k n) ++ option_list (fetching_index (claimed n k)).
Proof.
  unfold claimed. destruct (Nat.leb_spec n k) as [H|H]; cbn [fetching_index option_list].
  - rewrite app_nil_r. f_equal. lia.
  - replace (Nat.min (S k) n) with (S k) by lia.
    replace (Nat.min k n) with k by lia. apply seq_S.
Qed.

Lemma claim_workers i p : workers (claim n i p) = <[i := claimed n (idx p)]> (workers p).
Proof. reflexivity. Qed.

(** A claim hands out the next index, to a worker that holds none. *)
Lemma claim_ok w i p old :
  workers p !! i = Some old ->
  length (workers p) = w ->
  settled p ++ in_flight p
  ≡ₚ seq 0 (Nat.min (idx p) n) ++ option_list (fetching_index old) ->
  Forall (fun wk => wk = Finished -> (n <= idx p)%nat /\ (0 < idx p)%nat)
    (<[i := Pausing]> (workers p)) ->
  work_ok n w (claim n i p).
Proof.
  intros Hi Hlen Hperm Hfin. unfold work_ok.
  rewrite claim_workers. cbn [idx settled claim].
  split; [rewrite length_insert; exact Hlen|]. split.
  - unfold in_flight. rewrite claim_workers, seq_claim.
    apply (Permutation_app_inv_r (option_list (fetching_index old))).
    rewrite <- app_assoc, (omap_insert_perm fetching_index _ i old _ Hi).
    fold (in_flight p). rewrite app_assoc, Hperm. solve_Permutation.
  - apply Forall_forall. intros wk Hwk.
    apply list_elem_of_lookup in Hwk as [j Hj].
    destruct (decide (i = j)) as [->|Hne].
    + rewrite list_lookup_insert_eq in Hj by (eapply lookup_lt_Some; exact Hi).
      injection Hj as <-. unfold claimed.
      destruct (Nat.leb_spec n (idx p)); [lia | discriminate].
    + rewrite list_lookup_insert_ne in Hj by exact Hne.
      rewrite Forall_forall in Hfin. intros Hf.
      assert (wk ∈ <[i := Pausing]> (workers p)) as Hin.
      { apply list_elem_of_lookup. exists j.
        rewrite list_lookup_insert_ne by exact Hne. exact Hj. }
      specialize (Hfin wk Hin Hf). lia.
Qed.

Lemma weaken_finished p i :
  Forall (fun wk => wk = Finished -> (n <= idx p)%nat /\ (0 < idx p)%nat) (workers p) ->
  Forall (fun wk => wk = Finished -> (n <= idx p)%nat /\ (0 < idx p)%nat)
    (<[i := Pausing]> (workers p)).
Proof.
  intros H. apply Forall_insert; [exact H | discriminate].
Qed.

Lemma wake_ok w i p p' :
  work_ok n w p -> wake n i p = Some p' -> work_ok n w p'.
Proof.
  intros (Hlen & Hperm & Hfin). unfold wake.
  destruct (workers p !! i) as [[| |]|] eqn:Hi; try discriminate.
  intros [= <-]. apply (claim_ok w i p Pausing Hi Hlen).
  - cbn [fetching_index option_list]. rewrite app_nil_r. exact Hperm.
  - apply weaken_finished. exact Hfin.
Qed.

Lemma settle_ok w i o p p' :
  work_ok n w p -> settle n i o p = Some p' -> work_ok n w p'.
Proof.
  intros (Hlen & Hperm & Hfin). unfold settle.
  destruct (workers p !! i) as [[my| |]|] eqn:Hi; try discriminate.
  pose proof (omap_insert_perm fetching_index _ i _ Pausing Hi) as Hins.
  cbn [fetching_index option_list] in Hins. rewrite app_nil_r in Hins.
  destruct o as [s|]; destruct (my mod 6 =? 0)%nat; intros [= <-].
  1,3: unfold work_ok; cbn [workers settled idx]; unfold in_flight; cbn [workers];
    (split; [rewrite length_insert; exact Hlen|]);
    (split; [rewrite <- app_assoc, (Permutation_app_comm [my]), Hins; exact Hperm
            |apply weaken_finished; exact Hfin]).
  1,2: apply (claim_ok w i _ (Fetching my)); cbn [workers settled idx];
    [exact Hi | exact Hlen
    |unfold in_flight at 1; cbn [workers fetching_index option_list];
     fold (in_flight p); rewrite <- Hperm; solve_Permutation
    |apply weaken_finished; exact Hfin].
Qed.

Lemma run_ok w es p p' :
  work_ok n w p -> pool_run n es p = Some p' -> work_ok n w p'.
Proof.
  revert p. induction es as [|e es IH]; intros p Hp; cbn [pool_run].
  - intros [= <-]. exact Hp.
  - destruct (pool_step n e p) as [q|] eqn:Hq; [|discriminate].
    apply IH. destruct e as [i o|i]; cbn [pool_step] in Hq.
    + apply (settle_ok w i o p q Hp Hq).
    + apply (wake_ok w i p q Hp Hq).
Qed.

(** The pool as it starts: worker [i] has claimed index [i]. *)
Lemma start_claims w k :
  (k <= w)%nat ->
  let p := fold_left (fun p i => claim n i p) (seq 0 k)
             (mkPool 0 (replicate w Finished) 0 0 [] [] []) in
  idx p = k /\ settled p = []
  /\ workers p = map (claimed n) (seq 0 k) ++ replicate (w - k) Finished.
Proof.
  induction k as [|k IH]; intros Hk; cbn zeta.
  - cbn. rewrite Nat.sub_0_r. auto.
  - rewrite seq_S, fold_left_app. cbn [fold_left Nat.add].
    destruct IH as (Hidx & Hset & Hw); [lia|].
    rewrite claim_workers, Hw, Hidx. cbn [idx settled claim].
    split; [rewrite Hidx; reflexivity|]. split; [exact Hset|].
    rewrite map_app. cbn [map].
    replace (w - k)%nat with (S (w - S k)) by lia. cbn [replicate].
    rewrite <- app_assoc. cbn [app].
    replace k with (length (map (claimed n) (seq 0 k)) + 0)%nat at 1
      by (rewrite length_map, length_seq; lia).
    rewrite insert_app_r. reflexivity.
Qed.

Lemma pool_start_ok w : work_ok n w (pool_start n w).
Proof.
  destruct (start_claims w w (le_n w)) as (Hidx & Hset & Hw).
  fold (pool_start n w) in Hidx, Hset, Hw.
  rewrite Nat.sub_diag in Hw. cbn [replicate] in Hw. rewrite app_nil_r in Hw.
  unfold work_ok. rewrite Hidx, Hset. unfold in_flight. rewrite Hw.
  split; [rewrite length_map, length_seq; reflexivity|]. split.
  - cbn [app]. clear. induction w as [|w IH]; [reflexivity|].
    rewrite seq_S, map_app, omap_app, seq_claim, IH. cbn [map omap list_omap Nat.add].
    destruct (fetching_index (claimed n w)); reflexivity.
  - apply Forall_forall. intros wk Hin Hf.
    apply list_elem_of_In, in_map_iff in Hin as (i & Hi & Hin).
    apply in_seq in Hin. subst wk. unfold claimed in Hf.
    destruct (Nat.leb_spec n i); [lia | discriminate].
Qed.

End PoolWork.

(** X10. The workers share the commits without loss and without
    repetition: at every moment the finished indices and the indices being
    fetched are exactly the indices handed out so far, 0 up to the cursor
    (or the number of commits), each once; once every worker has left its
    loop, with at least one worker, the finished indices are all the
    commits, each fetched exactly once. *)
Theorem pool_fetches_each_once (n w : nat) (p : pool) :
  reachable n w p ->
  length (workers p) = w
  /\ settled p ++ in_flight p ≡ₚ seq 0 (Nat.min (idx p) n)
  /\ NoDup (settled p ++ in_flight p)
  /\ ((0 < w)%nat -> all_finished p -> settled p ≡ₚ seq 0 n).
Proof.
  intros [es Hrun].
  pose proof (run_ok n w es _ p (pool_start_ok n w) Hrun) as (Hlen & Hperm & Hfin).
  split; [exact Hlen|]. split; [exact Hperm|]. split.
  - rewrite Hperm. apply NoDup_ListNoDup, seq_NoDup.
  - intros Hw Hall. unfold all_finished in Hall.
    assert (in_flight p = []) as Hnone.
    { unfold in_flight. clear -Hall. induction Hall as [|wk l -> _ IH]; [reflexivity|].
      cbn. exact IH. }
    rewrite Hnone, app_nil_r in Hperm. rewrite Hperm.
    destruct (workers p) as [|wk l] eqn:E; [cbn in Hlen; lia|].
    apply Forall_inv in Hall, Hfin. specialize (Hfin Hall).
    replace (Nat.min (idx p) n) with n by lia. reflexivity.
Qed.

Lemma pool_fetches_each_once_witness :
  match pool_run 2 [Settle 1 None; Settle 0 None; Wake 0] (pool_start 2 workerCount) with
  | Some p => settled p ≡ₚ seq 0 2
  | None => False
  end.
Proof.
  destruct (pool_run 2 [Settle 1 None; Settle 0 None; Wake 0]
              (pool_start 2 workerCount)) as [p|] eqn:E.
  - destruct (pool_fetches_each_once 2 workerCount p) as (_ & _ & _ & H).
    + exists [Settle 1 None; Settle 0 None; Wake 0]. exact E.
    + apply H; [vm_compute; lia|].
      vm_compute in E. injection E as <-. repeat constructor.
  - vm_compute in E. discriminate E.
Defined.

(** ** The detail-fetch pool: totals *)

Section PoolTotals.

Variable n : nat.

Lemma claim_totals i p :
  totalLinesAdded (claim n i p) = totalLinesAdded p
  /\ totalLinesDeleted (claim n i p) = totalLinesDeleted p
  /\ commitSizes (claim n i p) = commitSizes p.
Proof. repeat split. Qed.

Lemma step_totals e p p' :
  pool_step n e p = Some p' ->
  totalLinesAdded p'
  = totalLinesAdded p + fold_left Z.add (map additions (outcomes [e])) 0
  /\ totalLinesDeleted p'
     = totalLinesDeleted p + fold_left Z.add (map deletions (outcomes [e])) 0
  /\ commitSizes p' = commitSizes p ++ map size_of (outcomes [e]).
Proof.
  destruct e as [i o|i]; cbn [pool_step].
  - unfold settle. destruct (workers p !! i) as [[my| |]|]; try discriminate.
    destruct o as [s|]; destruct (my mod 6 =? 0)%nat; intros [= <-];
      cbn; rewrite ?app_nil_r; repeat split; lia.
  - unfold wake. destruct (workers p !! i) as [[| |]|]; try discriminate.
    intros [= <-]. cbn. rewrite app_nil_r. repeat split; lia.
Qed.

Lemma run_totals es p p' :
  pool_run n es p = Some p' ->
  totalLinesAdded p'
  = totalLinesAdded p + fold_left Z.add (map additions (outcomes es)) 0
  /\ totalLinesDeleted p'
     = totalLinesDeleted p + fold_left Z.add (map deletions (outcomes es)) 0
  /\ commitSizes p' = commitSizes p ++ map size_of (outcomes es).
Proof.
  revert p. induction es as [|e es IH]; intros p; cbn [pool_run].
  - intros [= <-]. cbn. rewrite app_nil_r. repeat split; lia.
  - destruct (pool_step n e p) as [q|] eqn:Hq; [|discriminate].
    intros Hrun. destruct (IH q Hrun) as (Ha & Hd & Hs).
    destruct (step_totals e p q Hq) as (Ha' & Hd' & Hs').
    change (e :: es) with ([e] ++ es). unfold outcomes in *.
    rewrite omap_app, !map_app, !fold_left_app.
    rewrite Ha, Hd, Hs, Ha', Hd', Hs', <- app_assoc.
    rewrite (Zsum_acc _ (fold_left _ _ _)), (Zsum_acc (map deletions _) (fold_left _ _ _)).
    repeat split; lia.
Qed.

End PoolTotals.

Lemma Zsum_perm (l1 l2 : list Z) :
  l1 ≡ₚ l2 -> fold_left Z.add l1 0 = fold_left Z.add l2 0.
Proof.
  induction 1 as [|x l1 l2 _ IH|x y l|l1 l2 l3 _ IH1 _ IH2]; cbn [fold_left].
  - reflexivity.
  - rewrite (Zsum_acc l1), (Zsum_acc l2). lia.
  - rewrite (Zsum_acc l (0 + y + x)), (Zsum_acc l (0 + x + y)). lia.
  - congruence.
Qed.

Lemma Zsum_sizes (l : list stats) :
  fold_left Z.add (map size_of l) 0
  = fold_left Z.add (map additions l) 0 + fold_left Z.add (map deletions l) 0.
Proof.
  induction l as [|s l IH]; [reflexivity|]. cbn [map fold_left].
  rewrite (Zsum_acc (map size_of l)), (Zsum_acc (map additions l)),
    (Zsum_acc (map deletions l)), IH.
  unfold size_of. lia.
Qed.

Lemma start_totals n w :
  totalLinesAdded (pool_start n w) = 0
  /\ totalLinesDeleted (pool_start n w) = 0
  /\ commitSizes (pool_start n w) = [].
Proof.
  unfold pool_start.
  assert (forall l p,
             totalLinesAdded (fold_left (fun p i => claim n i p) l p) = totalLinesAdded p
             /\ totalLinesDeleted (fold_left (fun p i => claim n i p) l p)
                = totalLinesDeleted p
             /\ commitSizes (fold_left (fun p i => claim n i p) l p) = commitSizes p)
    as H.
  { induction l as [|i l IH]; intros p; [repeat split|].
    cbn [fold_left]. destruct (IH (claim n i p)) as (-> & -> & ->). repeat split. }
  apply H.
Qed.

(** X11. The totals of the detail phase do not depend on the order in
    which the fetches complete, nor on the number of workers: two runs over
    the same commits that are given the same statistics, in whatever order,
    end with the same lines added and lines deleted, with the same sizes up
    to their order, and so with the same histogram of sizes; the sizes add
    up to the lines added plus the lines deleted. *)
Theorem pool_totals_order_free (n w1 w2 : nat) (es1 es2 : list event) (p1 p2 : pool) :
  pool_run n es1 (pool_start n w1) = Some p1 ->
  pool_run n es2 (pool_start n w2) = Some p2 ->
  outcomes es1 ≡ₚ outcomes es2 ->
  totalLinesAdded p1 = totalLinesAdded p2
  /\ totalLinesDeleted p1 = totalLinesDeleted p2
  /\ commitSizes p1 ≡ₚ commitSizes p2
  /\ commitSizeDistribution (commitSizes p1) = commitSizeDistribution (commitSizes p2)
  /\ fold_left Z.add (commitSizes p1) 0 = totalLinesAdded p1 + totalLinesDeleted p1.
Proof.
  intros H1 H2 Hperm.
  destruct (run_totals n es1 _ p1 H1) as (Ha1 & Hd1 & Hs1).
  destruct (run_totals n es2 _ p2 H2) as (Ha2 & Hd2 & Hs2).
  destruct (start_totals n w1) as (A1 & D1 & S1).
  destruct (start_totals n w2) as (A2 & D2 & S2).
  rewrite A1, D1, S1 in *. rewrite A2, D2, S2 in *. cbn [app] in Hs1, Hs2.
  assert (commitSizes p1 ≡ₚ commitSizes p2) as Hsizes
    by (rewrite Hs1, Hs2; apply Permutation_map; exact Hperm).
  split; [rewrite Ha1, Ha2; f_equal; apply Zsum_perm, Permutation_map; exact Hperm|].
  split; [rewrite Hd1, Hd2; f_equal; apply Zsum_perm, Permutation_map; exact Hperm|].
  split; [exact Hsizes|].
  split; [apply SizeFacts.distribution_perm; exact Hsizes|].
  rewrite Hs1, Ha1, Hd1. apply Zsum_sizes.
Qed.

(** Three commits fetched by one worker in order and by the ten workers
    in another order. *)
Lemma pool_totals_order_free_witness :
  match pool_run 3 [Settle 0 (Some (mkStats 10 2)); Wake 0;
                    Settle 0 None; Settle 0 (Some (mkStats 300 400))]
          (pool_start 3 1),
        pool_run 3 [Settle 2 (Some (mkStats 300 400)); Settle 1 None;
                    Settle 0 (Some (mkStats 10 2))]
          (pool_start 3 workerCount) with
  | Some p1, Some p2 =>
      totalLinesAdded p1 = totalLinesAdded p2 /\ commitSizes p1 ≡ₚ commitSizes p2
  | _, _ => False
  end.
Proof.
  destruct (pool_run 3 _ (pool_start 3 1)) as [p1|] eqn:E1;
    [|vm_compute in E1; discriminate E1].
  destruct (pool_run 3 _ (pool_start 3 workerCount)) as [p2|] eqn:E2;
    [|vm_compute in E2; discriminate E2].
  destruct (pool_totals_order_free 3 1 workerCount _ _ p1 p2 E1 E2) as (H & _ & H' & _).
  - cbn. apply Permutation_swap.
  - split; assumption.
Defined.

(** ** The metadata probe and the settling of an analysis *)

Section OrchestratorFacts.

Variable Date_getTime : str -> option Z.
Variable Date_getHours : Z -> Z.
Variable WORK_START WORK_END : Z.
Variable reset_text encodeURIComponent : str -> str.
Variable fetch_details : list commit -> exn + pool.

(** The [try] block writes to the error and phase slots of its developer
    and to nothing else. *)
Lemma pipeline_frame dev metaRes responses a a1 outcome :
  pipeline Date_getTime Date_getHours WORK_START WORK_END reset_text
    encodeURIComponent fetch_details dev metaRes responses a = Some (a1, outcome) ->
  loadingStates a1 = loadingStates a
  /\ results a1 = results a
  /\ (forall j, j <> id dev ->
        phases a1 !! j = phases a !! j /\ errors a1 !! j = errors a !! j).
Proof.
  unfold pipeline. intros H.
  destruct (probe metaRes) as [e|[defaultBranch metaWarning]].
  { injection H as <- _. repeat split. }
  destruct (fetch_all _ _ _) as [[e|commits]|]; [| |discriminate H].
  - injection H as <- _.
    destruct (truthy metaWarning); cbn; repeat split.
    apply lookup_insert_ne. congruence.
  - assert (a1 = setPhases (id dev) "details"
                   (if truthy metaWarning then setErrors (id dev) metaWarning a else a))
      as -> by (destruct (fetch_details commits); injection H as <- _; reflexivity).
    destruct (truthy metaWarning); cbn; repeat split;
      apply lookup_insert_ne; congruence.
Qed.

(** How the [try] block ends, and what it leaves in the two slots it
    writes to, does not depend on the store it starts from. *)
Lemma pipeline_local dev metaRes responses a a1 outcome b :
  pipeline Date_getTime Date_getHours WORK_START WORK_END reset_text
    encodeURIComponent fetch_details dev metaRes responses a = Some (a1, outcome) ->
  phases a !! id dev = phases b !! id dev ->
  errors a !! id dev = errors b !! id dev ->
  exists b1,
    pipeline Date_getTime Date_getHours WORK_START WORK_END reset_text
      encodeURIComponent fetch_details dev metaRes responses b = Some (b1, outcome)
    /\ phases a1 !! id dev = phases b1 !! id dev
    /\ errors a1 !! id dev = errors b1 !! id dev.
Proof.
  unfold pipeline. intros H Hph Her.
  destruct (probe metaRes) as [e|[defaultBranch metaWarning]].
  { injection H as <- <-. eexists. repeat split; assumption. }
  destruct (fetch_all _ _ _) as [[e|commits]|]; [| |discriminate H].
  - injection H as <- <-. eexists. split; [reflexivity|].
    destruct (truthy metaWarning); cbn; [|split; assumption].
    rewrite !lookup_insert_eq. split; [assumption | reflexivity].
  - destruct (fetch_details commits); injection H as <- <-;
      (eexists; split; [reflexivity|]);
      destruct (truthy metaWarning); cbn; rewrite !lookup_insert_eq;
      split; first [reflexivity | assumption].
Qed.

(** An analysis writes to the slots of its own developer only. *)
Lemma analyzeCommits_frame dev metaRes responses a a' j :
  analyzeCommits Date_getTime Date_getHours WORK_START WORK_END reset_text
    encodeURIComponent fetch_details dev metaRes responses a = Some a' ->
  j <> id dev ->
  loadingStates a' !! j = loadingStates a !! j
  /\ phases a' !! j = phases a !! j
  /\ errors a' !! j = errors a !! j
  /\ results a' !! j = results a !! j.
Proof.
  unfold analyzeCommits. intros H Hj.
  destruct (negb (truthy (trim (username dev))) || negb (truthy (trim (repo dev)))).
  { injection H as <-. cbn. repeat split. apply lookup_insert_ne. congruence. }
  destruct (pipeline _ _ _ _ _ _ _ _ _ _ _) as [[a1 outcome]|] eqn:Hp;
    [|discriminate H].
  apply pipeline_frame in Hp as (Hl & Hres & Hother).
  cbn [loadingStates results phases errors setLoadingStates setPhases setErrors
         deleteResults] in Hl, Hres, Hother.
  injection H as <-.
  destruct (Hother j Hj) as [Hph Her].
  rewrite !lookup_insert_ne in Hph by congruence.
  rewrite !lookup_insert_ne in Her by congruence.
  destruct outcome as [[|msg]|r]; cbn; rewrite ?Hl, ?Hres;
    rewrite ?lookup_insert_ne, ?lookup_delete_ne by congruence; tauto.
Qed.

(** What an analysis leaves in the slots of its developer depends on the
    store it starts from through these slots only. *)
Lemma analyzeCommits_local dev metaRes responses a a' b :
  analyzeCommits Date_getTime Date_getHours WORK_START WORK_END reset_text
    encodeURIComponent fetch_details dev metaRes responses a = Some a' ->
  slot (id dev) a = slot (id dev) b ->
  exists b',
    analyzeCommits Date_getTime Date_getHours WORK_START WORK_END reset_text
      encodeURIComponent fetch_details dev metaRes responses b = Some b'
    /\ slot (id dev) a' = slot (id dev) b'.
Proof.
  unfold analyzeCommits, slot. intros H [= Hl Hph Her Hres].
  destruct (negb (truthy (trim (username dev))) || negb (truthy (trim (repo dev)))).
  { injection H as <-. eexists. split; [reflexivity|]. cbn.
    rewrite !lookup_insert_eq, Hl, Hph, Hres. reflexivity. }
  destruct (pipeline _ _ _ _ _ _ _ _ _ _ _) as [[a1 outcome]|] eqn:Hp;
    [|discriminate H].
  injection H as <-.
  pose proof (pipeline_frame _ _ _ _ _ _ Hp) as (_ & Hr1 & _).
  eapply (pipeline_local _ _ _ _ _ _
            (deleteResults (id dev)
               (setErrors (id dev) []
                  (setPhases (id dev) "listing"
                     (setLoadingStates (id dev) true b))))) in Hp
    as (b1 & Hq & Hph1 & Her1);
    [|cbn; rewrite !lookup_insert_eq; reflexivity..].
  pose proof (pipeline_frame _ _ _ _ _ _ Hq) as (_ & Hr2 & _).
  rewrite Hq. eexists. split; [reflexivity|].
  cbn [results deleteResults] in Hr1, Hr2.
  destruct outcome as [[|msg]|r]; cbn; rewrite ?Hr1, ?Hr2;
    rewrite ?lookup_insert_eq, ?lookup_delete_eq, ?Her1, ?Hph1; reflexivity.
Qed.

(** The bags that the analysis with its call of [addToHistory] leaves are
    those that [analyzeCommits] leaves. *)
Lemma recorded_bags now iso dev metaRes responses s s' :
  analyzeCommits_recorded Date_getTime Date_getHours WORK_START WORK_END reset_text
    encodeURIComponent fetch_details now iso dev metaRes responses s = Some s' ->
  analyzeCommits Date_getTime Date_getHours WORK_START WORK_END reset_text
    encodeURIComponent fetch_details dev metaRes responses (bags s) = Some (bags s').
Proof.
  unfold analyzeCommits_recorded, analyzeCommits. cbv zeta.
  destruct (negb (truthy (trim (username dev))) || negb (truthy (trim (repo dev)))).
  { intros [= <-]. reflexivity. }
  destruct (pipeline _ _ _ _ _ _ _ _ _ _ _) as [[a1 [[|msg]|r]]|];
    intros [= <-]; reflexivity.
Qed.

Lemma recorded_settles now iso dev metaRes responses s a' :
  analyzeCommits Date_getTime Date_getHours WORK_START WORK_END reset_text
    encodeURIComponent fetch_details dev metaRes responses (bags s) = Some a' ->
  exists s',
    analyzeCommits_recorded Date_getTime Date_getHours WORK_START WORK_END reset_text
      encodeURIComponent fetch_details now iso dev metaRes responses s = Some s'
    /\ bags s' = a'.
Proof.
  unfold analyzeCommits_recorded, analyzeCommits. cbv zeta.
  destruct (negb (truthy (trim (username dev))) || negb (truthy (trim (repo dev)))).
  { intros [= <-]. eexists. split; reflexivity. }
  destruct (pipeline _ _ _ _ _ _ _ _ _ _ _) as [[a1 [[|msg]|r]]|];
    intros [= <-]; eexists; split; reflexivity.
Qed.

(** The history after an analysis, read off the result slot it leaves. *)
Lemma recorded_history now iso dev metaRes responses s s' :
  analyzeCommits_recorded Date_getTime Date_getHours WORK_START WORK_END reset_text
    encodeURIComponent fetch_details now iso dev metaRes responses s = Some s' ->
  searchHistory s'
  = if has_repository (username dev) (repo dev) then
      match results (bags s') !! id dev with
      | Some resultData =>
          addToHistory now iso (trim (username dev)) (trim (repo dev)) resultData
            (searchHistory s)
      | None => searchHistory s
      end
    else searchHistory s.
Proof.
  unfold analyzeCommits_recorded, has_repository. cbv zeta.
  rewrite <- negb_andb.
  destruct (truthy (trim (username dev)) && truthy (trim (repo dev))); cbn [negb].
  2: { intros [= <-]. reflexivity. }
  destruct (pipeline _ _ _ _ _ _ _ _ _ _ _) as [[a1 outcome]|] eqn:Hp;
    [|discriminate].
  apply pipeline_frame in Hp as (_ & Hres & _).
  cbn [results setLoadingStates setPhases setErrors deleteResults] in Hres.
  destruct outcome as [[|msg]|r]; intros [= <-]; cbn; rewrite ?Hres.
  - rewrite lookup_delete_eq. reflexivity.
  - rewrite lookup_delete_eq. reflexivity.
  - rewrite lookup_insert_eq. reflexivity.
Qed.

End OrchestratorFacts.

(** X12. The metadata probe stops the analysis only for a cancellation:
    it throws exactly when the metadata request was aborted.  In every
    other case it goes on to the listing, with no warning exactly when the
    request was answered ok with a body that parsed, and without a branch
    to pin whenever there is a warning.  So a repository the metadata
    request does not find (404) is still listed. *)
Theorem probe_only_cancels (metaRes : meta_fetched) :
  (forall e, probe metaRes = inl e <-> metaRes = MetaRejected AbortError /\ e = AbortError)
  /\ (forall defaultBranch metaWarning,
        probe metaRes = inr (defaultBranch, metaWarning) ->
        (truthy metaWarning = false <->
         exists m, metaRes = MetaResolved m /\ meta_ok m = true /\ meta_json m = true)
        /\ (truthy metaWarning = true -> defaultBranch = [])).
Proof.
  split.
  - intros e. split.
    + destruct metaRes as [m|[|msg]]; cbn [probe].
      * destruct (meta_ok m && meta_json m); [discriminate|].
        destruct (meta_status m =? 403); [discriminate|].
        destruct (meta_status m =? 404); [discriminate|].
        destruct (meta_status m =? 401); discriminate.
      * intros [= <-]. split; reflexivity.
      * discriminate.
    + intros [-> ->]. reflexivity.
  - intros defaultBranch metaWarning H.
    destruct metaRes as [m|[|msg]]; cbn [probe] in H.
    + destruct (meta_ok m) eqn:Hok, (meta_json m) eqn:Hjson; cbn [andb] in H.
      1: { injection H as <- <-. split; [|discriminate].
           split; [|reflexivity]. intros _. exists m. repeat split; assumption. }
      all: assert (truthy metaWarning = true /\ defaultBranch = []) as [Hw ->]
        by (destruct (meta_status m =? 403);
            [|destruct (meta_status m =? 404); [|destruct (meta_status m =? 401)]];
            injection H as <- <-; split; reflexivity).
      all: rewrite Hw; split; [|reflexivity].
      all: split; [discriminate|].
      all: intros (m' & [= <-] & Hok' & Hjson'); congruence.
    + discriminate H.
    + injection H as <- <-. split; [|reflexivity].
      split; [discriminate|]. intros (m & [=] & _).
Qed.

(** X13. An analysis that settles has written, among the four bags,
    to the slots of its own developer only, and to the search history only
    when it ended with a result.  With an owner or a repository that is
    blank it has written the error slot alone: an earlier result stays, and
    so does the history.  Otherwise the loading flag is down and the
    analysis ended in one of two ways: phase [done] with a result stored,
    and the history is what [addToHistory] makes of the earlier one for that
    result, with the entry of the time of the call, of the trimmed owner and
    repository and of that result in front; or phase [idle] with no result,
    an error message that is not empty, and the history as before. *)
Theorem analyzeCommits_settles
    (Date_getTime : str -> option Z) (Date_getHours : Z -> Z)
    (WORK_START WORK_END : Z) (reset_text encodeURIComponent : str -> str)
    (fetch_details : list commit -> exn + pool) (now : Z) (iso : str)
    (dev : developer) (metaRes : meta_fetched) (responses : list fetched)
    (s s' : session) :
  analyzeCommits_recorded Date_getTime Date_getHours WORK_START WORK_END reset_text
    encodeURIComponent fetch_details now iso dev metaRes responses s = Some s' ->
  let a := bags s in
  let a' := bags s' in
  (forall j, j <> id dev ->
     loadingStates a' !! j = loadingStates a !! j
     /\ phases a' !! j = phases a !! j
     /\ errors a' !! j = errors a !! j
     /\ results a' !! j = results a !! j)
  /\ (truthy (trim (username dev)) && truthy (trim (repo dev)) = false ->
      loadingStates a' = loadingStates a /\ phases a' = phases a
      /\ results a' = results a
      /\ errors a' !! id dev = Some (lit "Please enter both owner and repository name")
      /\ searchHistory s' = searchHistory s)
  /\ (truthy (trim (username dev)) && truthy (trim (repo dev)) = true ->
      loadingStates a' !! id dev = Some false
      /\ ((phases a' !! id dev = Some "done"%string
           /\ exists resultData,
               results a' !! id dev = Some resultData
               /\ searchHistory s'
                  = addToHistory now iso (trim (username dev)) (trim (repo dev))
                      resultData (searchHistory s)
               /\ exists rest,
                   searchHistory s'
                   = mkEntry now (trim (username dev)) (trim (repo dev)) iso resultData
                     :: rest)
          \/ (phases a' !! id dev = Some "idle"%string
              /\ results a' !! id dev = None
              /\ (exists msg, errors a' !! id dev = Some msg /\ truthy msg = true)
              /\ searchHistory s' = searchHistory s))).
Proof.
  intros H a a'. subst a a'. split.
  { intros j Hj. eapply analyzeCommits_frame; [|exact Hj].
    apply recorded_bags in H. exact H. }
  unfold analyzeCommits_recorded in H. cbv zeta in H.
  destruct (truthy (trim (username dev))) eqn:Hu;
    [destruct (truthy (trim (repo dev))) eqn:Hr|]; cbn [negb orb andb] in *.
  2,3: injection H as <-; split; [|discriminate].
  2,3: intros _; cbn; repeat split; apply lookup_insert_eq.
  destruct (pipeline _ _ _ _ _ _ _ _ _ _ _) as [[a1 outcome]|] eqn:Hp;
    [|discriminate H].
  apply pipeline_frame in Hp as (Hl & Hres & Hother).
  cbn [loadingStates results phases errors setLoadingStates setPhases setErrors
         deleteResults] in Hl, Hres, Hother.
  split; [discriminate|].
  intros _.
  destruct outcome as [[|msg]|r]; injection H as <-; cbn; rewrite ?Hres.
  - split; [apply lookup_insert_eq|]. right.
    split; [apply lookup_insert_eq|]. split; [apply lookup_delete_eq|].
    split; [|reflexivity].
    eexists. split; [apply lookup_insert_eq|reflexivity].
  - split; [apply lookup_insert_eq|]. right.
    split; [apply lookup_insert_eq|]. split; [apply lookup_delete_eq|].
    split; [|reflexivity].
    eexists. split; [apply lookup_insert_eq|].
    destruct msg; reflexivity.
  - split; [apply lookup_insert_eq|]. left.
    split; [apply lookup_insert_eq|]. exists r.
    split; [apply lookup_insert_eq|]. split; [reflexivity|].
    eexists. reflexivity.
Qed.

(** A developer whose repository lists two commits, one of them dated,
    analysed at the time 1704200000000 with an entry of the same
    repository in the history: the new entry replaces it. *)
Lemma analyzeCommits_settles_witness :
  exists s',
    analyzeCommits_recorded (fun _ => None) (fun _ => 0) 1 24 (fun s => s) (fun s => s)
      (fun _ => inr finished_pool) 1704200000000 (lit "2024-01-02T12:53:20.000Z")
      some_developer (MetaRejected (Error [])) shared_pages
      (mkSession empty_store [earlier_entry]) = Some s'
    /\ phases (bags s') !! 1 = Some "done"%string
    /\ map entry_id (searchHistory s') = [1704200000000].
Proof.
  destruct (analyzeCommits_recorded (fun _ => None) (fun _ => 0) 1 24 (fun s => s)
              (fun s => s) (fun _ => inr finished_pool) 1704200000000
              (lit "2024-01-02T12:53:20.000Z") some_developer
              (MetaRejected (Error [])) shared_pages
              (mkSession empty_store [earlier_entry])) as [s'|] eqn:E;
    [|vm_compute in E; discriminate E].
  exists s'.
  destruct (analyzeCommits_settles _ _ _ _ _ _ _ _ _ _ _ _ _ _ E) as (_ & _ & H).
  destruct (H eq_refl) as [_ [(Hdone & r & _ & Hh & _)|(Hidle & Hnone & _)]].
  - split; [reflexivity|]. split; [exact Hdone|].
    rewrite Hh. reflexivity.
  - exfalso. vm_compute in E. injection E as <-. discriminate Hnone.
Defined.

(** ** The parser on an arbitrary header *)

Module HeaderFacts.

Lemma occurs_free (c : ascii) x y : occurs_in x y -> ~ In c y -> ~ In c x.
Proof.
  intros (a & b & ->) Hy Hx. apply Hy.
  apply in_or_app. right. apply in_or_app. left. exact Hx.
Qed.

Lemma occurs_refl x : occurs_in x x.
Proof. exists [], []. rewrite app_nil_r. reflexivity. Qed.

Lemma drop_closing_occurs s : occurs_in (drop_closing s) s.
Proof.
  unfold drop_closing. destruct (rev s) as [|c r] eqn:E; [apply occurs_refl|].
  destruct (Ascii.eqb c ">"); [|apply occurs_refl].
  exists [], [c]. cbn [app].
  rewrite <- (rev_involutive s), E. reflexivity.
Qed.

Lemma replace_angle_occurs s : occurs_in (replace_angle s) s.
Proof.
  destruct s as [|c r]; [apply occurs_refl|]. cbn [replace_angle].
  destruct (Ascii.eqb c "<"); [|apply drop_closing_occurs].
  destruct (drop_closing_occurs r) as (a & b & E).
  exists (c :: a), b. cbn [app]. f_equal. exact E.
Qed.

Lemma take_line_prefix s : exists b, s = take_line s ++ b.
Proof.
  induction s as [|c s [b Hb]]; [exists []; reflexivity|].
  cbn [take_line]. destruct (is_line_terminator c).
  - exists (c :: s). reflexivity.
  - exists b. cbn [app]. f_equal. exact Hb.
Qed.

Lemma upto_last_quote_prefix s g : upto_last_quote s = Some g -> exists b, s = g ++ b.
Proof.
  revert g. induction s as [|c s IH]; intros g; cbn [upto_last_quote]; [discriminate|].
  destruct (upto_last_quote s) as [g'|].
  - intros [= <-]. destruct (IH g' eq_refl) as [b ->]. exists b. reflexivity.
  - destruct (Ascii.eqb c dquote); [|discriminate].
    intros [= <-]. exists (c :: s). reflexivity.
Qed.

(** The captured relation name is a piece of the text matched against. *)
Lemma match_rel_capture s g : match_rel s = Some g -> occurs_in g s.
Proof.
  induction s as [|c s IH]; cbn [match_rel]; [discriminate|].
  destruct (starts_with rel_head (c :: s)) eqn:Hp.
  - destruct (upto_last_quote (take_line (skipn 5 (c :: s)))) as [g'|] eqn:Hq.
    + intros [= <-].
      apply LinkFacts.starts_with_prefix in Hp as [b Hb]. rewrite Hb in Hq |- *.
      change (skipn 5 (rel_head ++ b)) with b in Hq.
      apply upto_last_quote_prefix in Hq as [b1 Hb1].
      destruct (take_line_prefix b) as [b2 Hb2].
      exists rel_head, (b1 ++ b2). apply (f_equal (app rel_head)).
      rewrite app_assoc, <- Hb1. exact Hb2.
    + intros H. destruct (IH H) as (a & b & ->). exists (c :: a), b. reflexivity.
  - intros H. destruct (IH H) as (a & b & ->). exists (c :: a), b. reflexivity.
Qed.

Lemma nth_split_in sep p : In (nth 0 (split sep p) []) (split sep p).
Proof.
  pose proof (LinkFacts.split_nonempty sep p) as H.
  destruct (split sep p) as [|x xs]; [contradiction|]. left. reflexivity.
Qed.

Lemma link_part_lookup links p k v :
  link_part links p !! k = Some v -> links !! k = Some v \/ part_entry p k v.
Proof.
  unfold link_part.
  destruct (link_rel p) as [rel|] eqn:Hrel; [|left; assumption].
  destruct (truthy (link_url p)) eqn:Hu; [|left; assumption].
  destruct (truthy rel) eqn:Hr; [|left; assumption]. cbn [andb].
  unfold JsObject.set. destruct (decide (rel = JsObject.proto_key)) as [|Hproto];
    [left; assumption|].
  destruct (decide (rel = k)) as [<-|Hne].
  2: { rewrite lookup_insert_ne by exact Hne. left. assumption. }
  rewrite lookup_insert_eq. intros [= <-]. right.
  unfold link_rel in Hrel.
  destruct (nth_error (split ";" p) 1) as [s|] eqn:Hs; [|discriminate Hrel].
  apply nth_error_In in Hs.
  assert (occurs_in rel s) as Hrs.
  { eapply LinkFacts.occurs_in_trans;
      [apply match_rel_capture; exact Hrel | apply LinkFacts.trim_occurs]. }
  assert (occurs_in (link_url p) (nth 0 (split ";" p) [])) as Hus.
  { unfold link_url. eapply LinkFacts.occurs_in_trans;
      [apply replace_angle_occurs | apply LinkFacts.trim_occurs]. }
  pose proof (nth_split_in ";" p) as H0.
  repeat split.
  - intros ->. discriminate Hr.
  - intros E. rewrite E in Hu. discriminate Hu.
  - exact Hproto.
  - eapply LinkFacts.occurs_in_trans; [exact Hrs|].
    apply (LinkFacts.split_pieces ";"). exact Hs.
  - eapply LinkFacts.occurs_in_trans; [exact Hus|].
    apply (LinkFacts.split_pieces ";"). exact H0.
  - eapply occurs_free; [exact Hrs|]. apply (ExtFacts.split_piece_free ";" p). exact Hs.
  - eapply occurs_free; [exact Hus|]. apply (ExtFacts.split_piece_free ";" p). exact H0.
Qed.

Lemma fold_link_part_lookup parts links k v :
  fold_left link_part parts links !! k = Some v ->
  links !! k = Some v \/ exists p, In p parts /\ part_entry p k v.
Proof.
  revert links. induction parts as [|p parts IH]; intros links; cbn [fold_left].
  - left. assumption.
  - intros H. destruct (IH _ H) as [H1|(q & Hq & He)].
    + destruct (link_part_lookup _ _ _ _ H1) as [H2|H2]; [left; exact H2|].
      right. exists p. split; [left; reflexivity | exact H2].
    + right. exists q. split; [right; exact Hq | exact He].
Qed.

Lemma link_part_size links p : (size (link_part links p) <= S (size links))%nat.
Proof.
  unfold link_part. destruct (link_rel p) as [rel|]; [|lia].
  destruct (truthy (link_url p) && truthy rel); [|lia].
  unfold JsObject.set. destruct (decide (rel = JsObject.proto_key)); [lia|].
  destruct (links !! rel) as [u|] eqn:E.
  - rewrite map_size_insert_Some by eauto. lia.
  - rewrite map_size_insert_None by exact E. lia.
Qed.

Lemma fold_link_part_size parts links :
  (size (fold_left link_part parts links) <= length parts + size links)%nat.
Proof.
  revert links. induction parts as [|p parts IH]; intros links; cbn [fold_left length].
  - lia.
  - pose proof (IH (link_part links p)). pose proof (link_part_size links p). lia.
Qed.

End HeaderFacts.

(** X14. Whatever the header is, every property of the object the parser
    returns has a name and a value that are not empty, that are both pieces
    of the header and hold neither a comma nor a semicolon; no property is
    named [__proto__]; and the object has at most one property for each
    comma-separated part of the header. *)
Theorem parseLinkHeader_properties (linkHeader : option str) (k v : str) :
  (parseLinkHeader linkHeader !! k = Some v ->
   exists h, linkHeader = Some h
     /\ k <> [] /\ v <> [] /\ k <> JsObject.proto_key
     /\ occurs_in k h /\ occurs_in v h
     /\ (forall c, c = ","%char \/ c = ";"%char -> ~ In c k /\ ~ In c v))
  /\ (size (parseLinkHeader linkHeader)
      <= match linkHeader with
         | Some h => S (length (List.filter (Ascii.eqb ",") h))
         | None => 0
         end)%nat.
Proof.
  split.
  - destruct linkHeader as [h|]; cbn [parseLinkHeader]; [|rewrite lookup_empty; discriminate].
    destruct (truthy h); cbn [negb]; [|rewrite lookup_empty; discriminate].
    intros H. exists h. split; [reflexivity|].
    apply HeaderFacts.fold_link_part_lookup in H as [H|(p & Hp & He)];
      [rewrite lookup_empty in H; discriminate H|].
    destruct He as (Hk & Hv & Hproto & Hkp & Hvp & Hks & Hvs).
    pose proof (LinkFacts.split_pieces _ _ _ Hp) as Hph.
    pose proof (ExtFacts.split_piece_free _ _ _ Hp) as Hfree.
    do 3 (split; [assumption|]).
    split; [eapply LinkFacts.occurs_in_trans; eassumption|].
    split; [eapply LinkFacts.occurs_in_trans; eassumption|].
    intros c [->| ->]; [|split; assumption].
    split; eapply HeaderFacts.occurs_free; eassumption.
  - destruct linkHeader as [h|]; cbn [parseLinkHeader];
      [|rewrite map_size_empty; lia].
    destruct (truthy h); cbn [negb]; [|rewrite map_size_empty; lia].
    pose proof (HeaderFacts.fold_link_part_size (split "," h) ∅) as H.
    rewrite map_size_empty in H.
    assert (length (split "," h) = S (length (List.filter (Ascii.eqb ",") h))) as E.
    { clear H. induction h as [|c h IH]; [reflexivity|].
      cbn [split List.filter]. rewrite (Ascii.eqb_sym "," c).
      destruct (Ascii.eqb c ","); cbn [length].
      - rewrite IH. reflexivity.
      - pose proof (LinkFacts.split_nonempty "," h) as Hne.
        destruct (split "," h) as [|x xs]; [contradiction|].
        cbn [length] in *. exact IH. }
    lia.
Qed.

(** The header of a single [next] link. *)
Lemma parseLinkHeader_properties_witness :
  exists h, Some bare_entry = Some h
    /\ lit "next" <> [] /\ lit "https://x.test/a" <> []
    /\ lit "next" <> JsObject.proto_key
    /\ occurs_in (lit "next") h /\ occurs_in (lit "https://x.test/a") h
    /\ (forall c, c = ","%char \/ c = ";"%char ->
        ~ In c (lit "next") /\ ~ In c (lit "https://x.test/a")).
Proof.
  apply (proj1 (parseLinkHeader_properties (Some bare_entry) (lit "next")
                  (lit "https://x.test/a"))).
  vm_compute. reflexivity.
Defined.

(** ** The base pass over the commits *)

Section BaseFacts.

Variable Date_getTime : str -> option Z.
Variable Date_getHours : Z -> Z.
Variable WORK_START WORK_END : Z.

Lemma messageScore_bounds m : 0 <= messageScore m <= 100.
Proof.
  rewrite MessageFacts.messageScore_sum. unfold indicator.
  repeat case_match; lia.
Qed.

(** What the loop has counted, in terms of the instants of the dated
    commits. *)
Lemma base_fold l b :
  let r := fold_left (base_step Date_getTime Date_getHours WORK_START WORK_END) l b in
  commitDates r = commitDates b ++ omap (commit_time Date_getTime) l
  /\ onTimeCount r
     = onTimeCount b
       + Z.of_nat (length (List.filter (within_hours Date_getHours WORK_START WORK_END)
                             (omap (commit_time Date_getTime) l)))
  /\ lateCount r
     = lateCount b
       + Z.of_nat (length (List.filter
                             (fun t => negb (within_hours Date_getHours WORK_START
                                               WORK_END t))
                             (omap (commit_time Date_getTime) l))).
Proof.
  revert b. induction l as [|c l IH]; intros b; cbn [fold_left].
  - cbn. rewrite app_nil_r, !Z.add_0_r. repeat split.
  - destruct (IH (base_step Date_getTime Date_getHours WORK_START WORK_END b c))
      as (Hd & Ho & Hl). cbn zeta.
    rewrite Hd, Ho, Hl. clear IH Hd Ho Hl.
    unfold base_step.
    change (omap (commit_time Date_getTime) (c :: l))
      with (match commit_time Date_getTime c with
            | Some t => t :: omap (commit_time Date_getTime) l
            | None => omap (commit_time Date_getTime) l
            end).
    destruct (commit_time Date_getTime c) as [date|]; [|repeat split].
    cbn [commitDates onTimeCount lateCount List.filter].
    fold (within_hours Date_getHours WORK_START WORK_END date).
    rewrite <- app_assoc.
    destruct (within_hours Date_getHours WORK_START WORK_END date);
      cbn [negb length app]; repeat split; lia.
Qed.

Lemma filter_split {A} (f : A -> bool) (l : list A) :
  (length (List.filter f l) + length (List.filter (fun x => negb (f x)) l)
   = length l)%nat.
Proof.
  induction l as [|x l IH]; [reflexivity|]. cbn [List.filter].
  destruct (f x); cbn [negb length]; lia.
Qed.

Lemma times_length l : (length (omap (commit_time Date_getTime) l) <= length l)%nat.
Proof.
  induction l as [|c l IH]; [reflexivity|].
  change (omap (commit_time Date_getTime) (c :: l))
    with (match commit_time Date_getTime c with
          | Some t => t :: omap (commit_time Date_getTime) l
          | None => omap (commit_time Date_getTime) l
          end).
  destruct (commit_time Date_getTime c); cbn [length]; lia.
Qed.

Lemma times_dated l : length (omap (commit_time Date_getTime) l) = length (dated Date_getTime l).
Proof.
  induction l as [|c l IH]; [reflexivity|].
  rewrite (dated_cons Date_getTime).
  change (omap (commit_time Date_getTime) (c :: l))
    with (match commit_time Date_getTime c with
          | Some t => t :: omap (commit_time Date_getTime) l
          | None => omap (commit_time Date_getTime) l
          end).
  destruct (commit_time Date_getTime c); cbn [length]; congruence.
Qed.

Lemma score_sum_bounds (l : list commit) :
  0 <= fold_left Z.add (map (fun c => messageScore (message_text c)) l) 0
    <= 100 * Z.of_nat (length l).
Proof.
  induction l as [|c l IH]; [cbn; lia|].
  cbn [map fold_left length]. rewrite Zsum_acc.
  pose proof (messageScore_bounds (message_text c)). lia.
Qed.

Lemma Math_round_bounds q : (0 <= q <= 100)%Q -> 0 <= Math_round q <= 100.
Proof.
  intros [H0 H1]. unfold Math_round. split.
  - change 0 with (Qfloor (0 + (1 # 2))). apply Qfloor_resp_le.
    apply Qplus_le_l. exact H0.
  - change 100 with (Qfloor (100 + (1 # 2))). apply Qfloor_resp_le.
    apply Qplus_le_l. exact H1.
Qed.

Lemma ratio_bounds (x n k : Z) :
  0 < n -> 0 <= x -> x <= k * n ->
  (0 <= inject_Z x / inject_Z n <= inject_Z k)%Q.
Proof.
  intros Hn H0 H1.
  assert (0 < inject_Z n)%Q as Hq by (change 0%Q with (inject_Z 0); rewrite <- Zlt_Qlt; lia).
  split.
  - apply Qle_shift_div_l; [exact Hq|]. rewrite Qmult_0_l.
    change 0%Q with (inject_Z 0). rewrite <- Zle_Qle. exact H0.
  - apply Qle_shift_div_r; [exact Hq|]. rewrite <- inject_Z_mult, <- Zle_Qle. exact H1.
Qed.

(** The loop treats the commits one by one: the order in which it meets
    them moves the instants about and nothing else. *)
Lemma base_pass_perm l1 l2 :
  l1 ≡ₚ l2 ->
  let b1 := base_pass Date_getTime Date_getHours WORK_START WORK_END l1 in
  let b2 := base_pass Date_getTime Date_getHours WORK_START WORK_END l2 in
  onTimeCount b1 = onTimeCount b2 /\ lateCount b1 = lateCount b2
  /\ commitDates b1 ≡ₚ commitDates b2
  /\ totalMessageScore b1 = totalMessageScore b2.
Proof.
  intros Hp b1 b2. subst b1 b2. unfold base_pass.
  destruct (base_fold l1 (mkBase 0 0 [] 0)) as (Hd1 & Ho1 & Hl1).
  destruct (base_fold l2 (mkBase 0 0 [] 0)) as (Hd2 & Ho2 & Hl2).
  cbn zeta in *. rewrite Hd1, Ho1, Hl1, Hd2, Ho2, Hl2.
  assert (omap (commit_time Date_getTime) l1 ≡ₚ omap (commit_time Date_getTime) l2)
    as Ht by (rewrite Hp; reflexivity).
  rewrite (SizeFacts.filter_length_perm (within_hours Date_getHours WORK_START WORK_END) _ _ Ht).
  rewrite (SizeFacts.filter_length_perm
             (fun t => negb (within_hours Date_getHours WORK_START WORK_END t)) _ _ Ht).
  do 2 (split; [reflexivity|]). split; [exact Ht|].
  rewrite !(totalMessageScore_fold Date_getTime). f_equal.
  apply Zsum_perm. apply Permutation_map.
  clear -Hp. induction Hp as [|x l1 l2 _ IH|x y l|l1 l2 l3 _ IH1 _ IH2].
  - reflexivity.
  - rewrite !(dated_cons Date_getTime). destruct (commit_time Date_getTime x);
      [constructor|]; exact IH.
  - rewrite !(dated_cons Date_getTime).
    destruct (commit_time Date_getTime x), (commit_time Date_getTime y);
      try reflexivity. apply Permutation_swap.
  - etransitivity; eassumption.
Qed.

End BaseFacts.

(** X15. The base pass counts each commit that has a valid author date
    once, as on time when its local hour lies in the work-hours window and
    as late otherwise, and keeps the instants in the order of the commits;
    a commit without a valid date is counted in neither.  So the two
    counts add up to the number of dated commits, which is at most the
    number of commits, and the two overall percentages lie between 0 and
    100. *)
Theorem base_pass_counts
    (Date_getTime : str -> option Z) (Date_getHours : Z -> Z)
    (WORK_START WORK_END : Z) (allCommits : list commit) :
  let b := base_pass Date_getTime Date_getHours WORK_START WORK_END allCommits in
  let dates := omap (commit_time Date_getTime) allCommits in
  commitDates b = dates
  /\ onTimeCount b
     = Z.of_nat (length (List.filter (within_hours Date_getHours WORK_START WORK_END)
                           dates))
  /\ lateCount b
     = Z.of_nat (length (List.filter
                           (fun t => negb (within_hours Date_getHours WORK_START
                                             WORK_END t)) dates))
  /\ onTimeCount b + lateCount b = Z.of_nat (length dates)
  /\ (length dates <= length allCommits)%nat
  /\ (0 <= onTimePercentage Date_getTime Date_getHours WORK_START WORK_END allCommits
      <= 100)%Q
  /\ 0 <= messageQualityScore Date_getTime Date_getHours WORK_START WORK_END allCommits
     <= 100.
Proof.
  intros b dates. subst b dates. unfold base_pass.
  destruct (base_fold Date_getTime Date_getHours WORK_START WORK_END allCommits
              (mkBase 0 0 [] 0)) as (Hd & Ho & Hl).
  cbn zeta in Hd, Ho, Hl. cbn [commitDates onTimeCount lateCount app] in Hd, Ho, Hl.
  pose proof (filter_split (within_hours Date_getHours WORK_START WORK_END)
                (omap (commit_time Date_getTime) allCommits)) as Hs.
  pose proof (times_length Date_getTime allCommits) as Hlen. cbn zeta in Hlen.
  split; [exact Hd|]. split; [rewrite Ho; lia|]. split; [rewrite Hl; lia|].
  split; [rewrite Ho, Hl; lia|]. split; [exact Hlen|]. split.
  - unfold onTimePercentage, base_pass.
    destruct (Z.of_nat (length allCommits) =? 0) eqn:E; [split; discriminate|].
    apply Z.eqb_neq in E. rewrite Ho.
    destruct (ratio_bounds
                (0 + Z.of_nat (length (List.filter
                   (within_hours Date_getHours WORK_START WORK_END)
                   (omap (commit_time Date_getTime) allCommits))))
                (Z.of_nat (length allCommits)) 1) as [H0 H1]; [lia | lia | lia |].
    split.
    + apply Qmult_le_0_compat; [exact H0 | discriminate].
    + apply Qle_trans with (inject_Z 1 * 100)%Q; [|discriminate].
      apply Qmult_le_compat_r; [exact H1 | discriminate].
  - rewrite (messageQualityScore_formula Date_getTime).
    destruct (Z.of_nat (length allCommits) =? 0) eqn:E; [lia|].
    apply Z.eqb_neq in E. apply Math_round_bounds.
    pose proof (score_sum_bounds (dated Date_getTime allCommits)) as Hb.
    pose proof (times_dated Date_getTime allCommits) as Ht. cbn zeta in Ht.
    apply (ratio_bounds _ _ 100); lia.
Qed.

(** X16. The figures of the result record (the counts, the scores, the
    average size, the line totals and the experience level), the
    consistency score and the average size being computed in doubles as the
    code computes them, do not depend on the order in which the commits
    were listed, nor on the order in which their sizes were collected: the
    same commits in another order, with the same line totals and the same
    sizes in another order, give the same figures. *)
Theorem derive_order_free
    (Date_getTime : str -> option Z) (Date_getHours : Z -> Z)
    (WORK_START WORK_END : Z) (allCommits1 allCommits2 : list commit)
    (p1 p2 : pool) :
  allCommits1 ≡ₚ allCommits2 ->
  same_totals p1 p2 ->
  derive Date_getTime Date_getHours WORK_START WORK_END allCommits1 p1
  = derive Date_getTime Date_getHours WORK_START WORK_END allCommits2 p2.
Proof.
  intros Hp (Ha & Hd & Hs).
  destruct (base_pass_perm Date_getTime Date_getHours WORK_START WORK_END _ _ Hp)
    as (Ho & Hl & Hdates & Hm).
  cbn zeta in Ho, Hl, Hdates, Hm.
  pose proof (Permutation_length Hp) as Hlen.
  assert (consistencyScore
            (commitDates (base_pass Date_getTime Date_getHours WORK_START WORK_END
                            allCommits1))
          = consistencyScore
              (commitDates (base_pass Date_getTime Date_getHours WORK_START WORK_END
                              allCommits2))) as Hc.
  { unfold consistencyScore, avgInterval.
    rewrite (ConsistencyFacts.sortedDates_unique _ _
               (ConsistencyFacts.sortedDates_sorted
                  (commitDates (base_pass Date_getTime Date_getHours WORK_START
                                  WORK_END allCommits2)))
               (transitivity (ConsistencyFacts.sortedDates_perm _)
                  (symmetry Hdates))).
    reflexivity. }
  unfold derive, onTimePercentage, messageQualityScore.
  rewrite Hc, Ho, Hl, Hm, Ha, Hd, Hlen.
  rewrite (Zsum_perm _ _ Hs), (Permutation_length Hs).
  assert (match commitSizes p1 with [] => true | _ => false end
          = match commitSizes p2 with [] => true | _ => false end) as Hnil.
  { pose proof (Permutation_length Hs).
    destruct (commitSizes p1), (commitSizes p2); try reflexivity; discriminate. }
  destruct (commitSizes p1), (commitSizes p2); try discriminate Hnil; reflexivity.
Qed.

(** Two commits listed in either order. *)
Lemma derive_order_free_witness :
  derive (fun _ => Some 0) (fun _ => 10) 1 24 [dated_commit; third_commit]
    (pool_start 2 1)
  = derive (fun _ => Some 0) (fun _ => 10) 1 24 [third_commit; dated_commit]
      (pool_start 2 1).
Proof.
  apply derive_order_free.
  - apply Permutation_swap.
  - repeat split; reflexivity.
Defined.

(** The record of three commits seven seconds and some 33 days apart
    holds the consistency score 16, the rounding of 16.499999999999986, in
    whatever order they are listed. *)
Example derive_consistency_rounded :
  let parse := fun s : str =>
    match s with
    | [c] =>
        if Ascii.eqb c "1" then Some 1706952960000
        else if Ascii.eqb c "2" then Some 1704067207000
        else Some 1704067200000
    | _ => None
    end in
  let item := fun date : string =>
    mkCommit (Some (lit date)) (Some (lit date)) (Some (lit "fix: a")) [] in
  res_consistencyScore
    (derive parse (fun _ => 10) 1 24 [item "1"; item "2"; item "3"]%string
       (pool_start 3 1)) = Fin 16
  /\ res_consistencyScore
       (derive parse (fun _ => 10) 1 24 [item "3"; item "1"; item "2"]%string
          (pool_start 3 1)) = Fin 16.
Proof. split; vm_compute; reflexivity. Qed.

(** ** The score of a message *)

Module ScoreFacts.

Lemma to_lower_idem c : to_lower (to_lower c) = to_lower c.
Proof. destruct c as [[] [] [] [] [] [] [] []]; reflexivity. Qed.

Lemma to_lower_hash c : Ascii.eqb (to_lower c) "#" = Ascii.eqb c "#".
Proof. destruct c as [[] [] [] [] [] [] [] []]; reflexivity. Qed.

Lemma to_lower_digit c : is_digit (to_lower c) = is_digit c.
Proof. destruct c as [[] [] [] [] [] [] [] []]; reflexivity. Qed.

Lemma starts_with_ci_lower p m :
  starts_with_ci p (map to_lower m) = starts_with_ci p m.
Proof.
  revert m. induction p as [|a p IH]; intros [|b m]; cbn [map starts_with_ci];
    try reflexivity.
  rewrite to_lower_idem, IH. reflexivity.
Qed.

Lemma test_issue_ref_lower m : test_issue_ref (map to_lower m) = test_issue_ref m.
Proof.
  induction m as [|c m IH]; [reflexivity|]. cbn [map test_issue_ref].
  rewrite IH, to_lower_hash. destruct m as [|d m]; [reflexivity|].
  cbn [map]. rewrite to_lower_digit. reflexivity.
Qed.

Lemma starts_with_ci_app p m t :
  starts_with_ci p m = true -> starts_with_ci p (m ++ t) = true.
Proof.
  revert m. induction p as [|a p IH]; intros [|b m]; cbn [app starts_with_ci];
    try reflexivity; try discriminate.
  intros [-> H]%andb_true_iff. rewrite (IH m H). reflexivity.
Qed.

Lemma test_issue_ref_app m t :
  test_issue_ref m = true -> test_issue_ref (m ++ t) = true.
Proof.
  induction m as [|c m IH]; [discriminate|]. cbn [app test_issue_ref].
  intros [H|H]%orb_true_iff.
  - destruct m as [|d m]; [rewrite andb_false_r in H; discriminate H|].
    cbn [app]. rewrite H. reflexivity.
  - rewrite (IH H). apply orb_true_r.
Qed.

Lemma test_conventional_app m t :
  test_conventional m = true -> test_conventional (m ++ t) = true.
Proof.
  unfold test_conventional. rewrite !existsb_exists.
  intros (ty & Hin & H). exists ty. split; [exact Hin|].
  apply starts_with_ci_app. exact H.
Qed.

Lemma test_conventional_lower m :
  test_conventional (map to_lower m) = test_conventional m.
Proof.
  unfold test_conventional.
  induction conventional_types as [|ty tys IH]; [reflexivity|].
  cbn [existsb]. rewrite IH, starts_with_ci_lower. reflexivity.
Qed.

End ScoreFacts.

(** X17. The score of a message is one of 0, 25, 50, 75 and 100; it does
    not change when the capital letters of the message are turned into
    small ones; and text added at the end of a message never lowers it. *)
Theorem messageScore_stable (m t : str) :
  In (messageScore m) [0; 25; 50; 75; 100]
  /\ messageScore (map to_lower m) = messageScore m
  /\ messageScore m <= messageScore (m ++ t).
Proof.
  split; [|split].
  - unfold messageScore.
    destruct (10 <? Z.of_nat (length m)) eqn:E1, (30 <? Z.of_nat (length m)) eqn:E2,
      (test_conventional m), (test_issue_ref m); cbn; try tauto; lia.
  - unfold messageScore. rewrite length_map, ScoreFacts.test_issue_ref_lower.
    rewrite ScoreFacts.test_conventional_lower. reflexivity.
  - rewrite !MessageFacts.messageScore_sum. rewrite length_app.
    pose proof (ScoreFacts.test_conventional_app m t) as Hc.
    pose proof (ScoreFacts.test_issue_ref_app m t) as Hi.
    unfold indicator.
    destruct (Z.ltb_spec 10 (Z.of_nat (length m))),
      (Z.ltb_spec 30 (Z.of_nat (length m))),
      (Z.ltb_spec 10 (Z.of_nat (length m + length t))),
      (Z.ltb_spec 30 (Z.of_nat (length m + length t))); try lia;
      (destruct (test_conventional m); [rewrite (Hc eq_refl)|]);
      (destruct (test_issue_ref m); [rewrite (Hi eq_refl)|]);
      repeat case_match; lia.
Qed.

(** ** The experience scorer: order *)

Module OrderFacts.

Import Experience.

Lemma gt_mono (t t' : Q) k :
  (t <= t')%Q -> js_gt (Fin t) k = true -> js_gt (Fin t') k = true.
Proof.
  cbn [js_gt]. intros Hle H. apply negb_true_iff in H. apply negb_true_iff.
  destruct (Qle_bool t' (inject_Z k)) eqn:E; [|reflexivity].
  apply Qle_bool_iff in E.
  assert (Qle_bool t (inject_Z k) = true) as E'
    by (apply Qle_bool_iff; eapply Qle_trans; eassumption).
  congruence.
Qed.

Lemma ge_mono (t t' : Q) k :
  (t <= t')%Q -> js_ge (Fin t) k = true -> js_ge (Fin t') k = true.
Proof.
  cbn [js_ge]. intros Hle H. apply Qle_bool_iff in H. apply Qle_bool_iff.
  eapply Qle_trans; eassumption.
Qed.

(** A number above a threshold is above every lower one. *)
Lemma gt_lower t k1 k2 : k1 <= k2 -> js_gt t k2 = true -> js_gt t k1 = true.
Proof.
  intros Hk. destruct t as [| |q|]; cbn [js_gt]; try (intros; assumption).
  intros H. apply negb_true_iff in H. apply negb_true_iff.
  destruct (Qle_bool q (inject_Z k1)) eqn:E; [|reflexivity].
  apply Qle_bool_iff in E.
  assert (Qle_bool q (inject_Z k2) = true) as E'.
  { apply Qle_bool_iff. eapply Qle_trans; [exact E|]. rewrite <- Zle_Qle. exact Hk. }
  congruence.
Qed.

Ltac by_threshold f x x' k H :=
  let E := fresh "E" in
  destruct (f x k) eqn:E;
  [rewrite ?(H k E) | destruct (f x' k)].

Lemma volume_mono (t t' : Q) : (t <= t')%Q -> volume (Fin t) <= volume (Fin t').
Proof.
  intros Hle. pose proof (fun k => gt_mono t t' k Hle) as H. unfold volume.
  by_threshold js_gt (Fin t) (Fin t') 200 H; try lia;
    (by_threshold js_gt (Fin t) (Fin t') 150 H; try lia);
    (by_threshold js_gt (Fin t) (Fin t') 100 H; try lia);
    (by_threshold js_gt (Fin t) (Fin t') 50 H; lia).
Qed.

Lemma pattern_mono (p p' : Q) : (p <= p')%Q -> pattern (Fin p) <= pattern (Fin p').
Proof.
  intros Hle. pose proof (fun k => ge_mono p p' k Hle) as H. unfold pattern.
  by_threshold js_ge (Fin p) (Fin p') 60 H; try lia;
    (by_threshold js_ge (Fin p) (Fin p') 50 H; try lia);
    (by_threshold js_ge (Fin p) (Fin p') 30 H; lia).
Qed.

Lemma quality_mono (q q' : Q) : (q <= q')%Q -> quality (Fin q) <= quality (Fin q').
Proof.
  intros Hle. pose proof (fun k => ge_mono q q' k Hle) as H. unfold quality.
  by_threshold js_ge (Fin q) (Fin q') 50 H; try lia;
    (by_threshold js_ge (Fin q) (Fin q') 40 H; try lia);
    (by_threshold js_ge (Fin q) (Fin q') 30 H; lia).
Qed.

Lemma steadiness_mono (c c' t t' : Q) :
  (c <= c')%Q -> (t <= t')%Q ->
  steadiness (Fin c) (Fin t) <= steadiness (Fin c') (Fin t').
Proof.
  intros Hc Ht.
  pose proof (fun k => ge_mono c c' k Hc) as H.
  pose proof (fun k => gt_mono t t' k Ht) as G.
  unfold steadiness.
  by_threshold js_ge (Fin c) (Fin c') 70 H;
    (by_threshold js_gt (Fin t) (Fin t') 100 G);
    cbn [andb]; try lia;
    (by_threshold js_ge (Fin c) (Fin c') 60 H);
    (by_threshold js_gt (Fin t) (Fin t') 50 G);
    cbn [andb]; try lia;
    (by_threshold js_ge (Fin c) (Fin c') 40 H);
    (by_threshold js_gt (Fin t) (Fin t') 20 G);
    cbn [andb]; lia.
Qed.

Lemma gt_upper t k1 k2 : k1 <= k2 -> js_gt t k1 = false -> js_gt t k2 = false.
Proof.
  intros Hk H. destruct (js_gt t k2) eqn:E; [|reflexivity].
  rewrite (gt_lower t k1 k2 Hk E) in H. discriminate H.
Qed.

Lemma volume_gate t : js_gt t 50 = false -> volume t = 10.
Proof.
  intros H. unfold volume.
  rewrite (gt_upper t 50 200), (gt_upper t 50 150), (gt_upper t 50 100), H
    by first [lia | exact H].
  reflexivity.
Qed.

Lemma alt_volume t :
  ExperienceAlt.volume t = volume t - (if js_gt t 50 then 5 else 0).
Proof.
  unfold ExperienceAlt.volume, volume.
  destruct (js_gt t 50) eqn:E50.
  - repeat case_match; reflexivity.
  - rewrite (gt_upper t 50 200), (gt_upper t 50 150), (gt_upper t 50 100)
      by first [lia | exact E50].
    reflexivity.
Qed.

Lemma alt_quality q : ExperienceAlt.quality q = quality q + 5.
Proof. unfold ExperienceAlt.quality, quality. repeat case_match; reflexivity. Qed.

Lemma steadiness_gate c t :
  steadiness c t
  <= (if js_gt t 50 then 20 else if js_gt t 20 then 10 else 5).
Proof.
  unfold steadiness.
  destruct (js_gt t 50) eqn:E50.
  - repeat case_match; lia.
  - rewrite (gt_upper t 50 100) by first [lia | exact E50].
    rewrite !andb_false_r.
    destruct (js_gt t 20); [repeat case_match; lia|].
    rewrite andb_false_r. lia.
Qed.

End OrderFacts.

(** X18. On finite inputs the experience score is monotone: more
    commits, a higher on-time percentage, a higher message quality or a
    higher consistency never lower it. *)
Theorem experience_monotone (t t' p p' q q' c c' : Q) :
  (t <= t')%Q -> (p <= p')%Q -> (q <= q')%Q -> (c <= c')%Q ->
  score (Experience.calculateExperienceLevel (Fin t) (Fin p) (Fin q) (Fin c))
  <= score (Experience.calculateExperienceLevel (Fin t') (Fin p') (Fin q') (Fin c')).
Proof.
  intros Ht Hp Hq Hc. rewrite !ExperienceFacts.score_sum.
  pose proof (OrderFacts.volume_mono t t' Ht).
  pose proof (OrderFacts.pattern_mono p p' Hp).
  pose proof (OrderFacts.quality_mono q q' Hq).
  pose proof (OrderFacts.steadiness_mono c c' t t' Hc Ht).
  lia.
Qed.

(** From 40 commits at 45% to 120 commits at 62%. *)
Lemma experience_monotone_witness :
  score (Experience.calculateExperienceLevel
           (jsnum_of_Z 40) (jsnum_of_Z 45) (jsnum_of_Z 35) (jsnum_of_Z 50))
  <= score (Experience.calculateExperienceLevel
              (jsnum_of_Z 120) (jsnum_of_Z 62) (jsnum_of_Z 35) (jsnum_of_Z 80)).
Proof.
  apply experience_monotone; discriminate.
Defined.

(** X19. The number of commits caps the experience score: with 50 commits
    or fewer the score is at most 60, with 20 or fewer at most 55, so the
    level Senior needs more than 50 commits whatever the other inputs are.
    The table of the earlier revision gives the same score above 50
    commits, and five points more otherwise. *)
Theorem experience_volume_gate (t p q c : jsnum) :
  let e := Experience.calculateExperienceLevel t p q c in
  score e <= (if js_gt t 50 then 100 else if js_gt t 20 then 60 else 55)
  /\ (level e = "Senior"%string -> js_gt t 50 = true)
  /\ score (ExperienceAlt.calculateExperienceLevel t p q c)
     = score e + (if js_gt t 50 then 0 else 5).
Proof.
  intros e. subst e.
  pose proof (ExperienceFacts.volume_bounds t) as Hv.
  pose proof (ExperienceFacts.pattern_bounds p) as Hp.
  pose proof (ExperienceFacts.quality_bounds q) as Hq.
  pose proof (OrderFacts.steadiness_gate c t) as Hs.
  pose proof (OrderFacts.volume_gate t) as Hg.
  assert (score (Experience.calculateExperienceLevel t p q c)
          <= (if js_gt t 50 then 100 else if js_gt t 20 then 60 else 55)) as Hcap.
  { rewrite ExperienceFacts.score_sum.
    destruct (js_gt t 50); [lia|]. rewrite (Hg eq_refl).
    destruct (js_gt t 20); lia. }
  split; [exact Hcap|]. split.
  - intros Hl.
    assert (level (Experience.calculateExperienceLevel t p q c)
            = level (Experience.classify
                       (score (Experience.calculateExperienceLevel t p q c)))) as E0
      by (unfold Experience.calculateExperienceLevel;
          rewrite ExperienceFacts.classify_score; reflexivity).
    rewrite E0, ExperienceFacts.classify_level in Hl.
    destruct (js_gt t 50); [reflexivity|].
    destruct (80 <=? score (Experience.calculateExperienceLevel t p q c)) eqn:E.
    + apply Z.leb_le in E. destruct (js_gt t 20); lia.
    + repeat case_match; discriminate Hl.
  - rewrite ExperienceFacts.alt_score_sum, ExperienceFacts.score_sum.
    rewrite OrderFacts.alt_volume, OrderFacts.alt_quality.
    destruct (js_gt t 50); lia.
Qed.

(** A Senior profile has more than 50 commits. *)
Lemma experience_volume_gate_witness : js_gt (jsnum_of_Z 250) 50 = true.
Proof.
  apply (experience_volume_gate (jsnum_of_Z 250) (jsnum_of_Z 65) (jsnum_of_Z 55)
           (jsnum_of_Z 75)).
  reflexivity.
Defined.

(** ** Analyses started in bulk *)

Module TrimFacts.

Lemma trimStart_head s :
  trimStart s = [] \/ exists c r, trimStart s = c :: r /\ is_space c = false.
Proof.
  induction s as [|c s IH]; [left; reflexivity|]. cbn [trimStart].
  destruct (is_space c) eqn:E; [exact IH|]. right. exists c, s. split; [reflexivity | exact E].
Qed.

Lemma trimStart_snoc l c :
  is_space c = false -> trimStart (l ++ [c]) = trimStart l ++ [c].
Proof.
  intros Hc. induction l as [|x l IH]; cbn [app trimStart].
  - rewrite Hc. reflexivity.
  - destruct (is_space x); [exact IH | reflexivity].
Qed.

Lemma trimEnd_cons c r : is_space c = false -> trimEnd (c :: r) = c :: trimEnd r.
Proof.
  intros Hc. unfold trimEnd. cbn [rev]. rewrite (trimStart_snoc _ _ Hc).
  rewrite rev_app_distr. reflexivity.
Qed.

Lemma trimEnd_idem s : trimEnd (trimEnd s) = trimEnd s.
Proof.
  unfold trimEnd. rewrite rev_involutive. f_equal.
  destruct (trimStart_head (rev s)) as [->|(c & r & -> & Hc)]; [reflexivity|].
  cbn [trimStart]. rewrite Hc. reflexivity.
Qed.

(** Trimming a trimmed string changes nothing. *)
Lemma trim_idem s : trim (trim s) = trim s.
Proof.
  unfold trim.
  destruct (trimStart_head s) as [->|(c & r & -> & Hc)]; [reflexivity|].
  rewrite (trimEnd_cons _ _ Hc). cbn [trimStart]. rewrite Hc.
  rewrite <- (trimEnd_cons _ _ Hc). apply trimEnd_idem.
Qed.

End TrimFacts.

Module BulkFacts.

Lemma newDevelopers_length next ms : length (newDevelopers next ms) = length ms.
Proof.
  revert next. induction ms as [|m ms IH]; intros next; [reflexivity|].
  cbn [newDevelopers length]. rewrite IH. reflexivity.
Qed.

Lemma newDevelopers_ids next ms :
  map id (newDevelopers next ms)
  = map (fun i => next + Z.of_nat i) (seq 0 (length ms)).
Proof.
  revert next. induction ms as [|m ms IH]; intros next; [reflexivity|].
  cbn [newDevelopers length seq map id]. f_equal; [lia|].
  rewrite IH, <- seq_shift, map_map. apply map_ext. intros i. lia.
Qed.

Lemma newDevelopers_fields next ms d :
  In d (newDevelopers next ms) ->
  exists m, In m ms
    /\ username d = trim (member_owner m) /\ repo d = trim (member_repo m)
    /\ token d = trim (member_token m).
Proof.
  revert next. induction ms as [|m ms IH]; intros next; cbn [newDevelopers]; [intros []|].
  intros [<-|H].
  - exists m. repeat split. left. reflexivity.
  - destruct (IH _ H) as (m' & Hin & He). exists m'. split; [right; exact Hin | exact He].
Qed.

Lemma newDevelopers_usernames next ms :
  map username (newDevelopers next ms) = map (fun m => trim (member_owner m)) ms.
Proof.
  revert next. induction ms as [|m ms IH]; intros next; [reflexivity|].
  cbn [newDevelopers map username]. rewrite IH. reflexivity.
Qed.

Lemma newDevelopers_repos next ms :
  map repo (newDevelopers next ms) = map (fun m => trim (member_repo m)) ms.
Proof.
  revert next. induction ms as [|m ms IH]; intros next; [reflexivity|].
  cbn [newDevelopers map repo]. rewrite IH. reflexivity.
Qed.

End BulkFacts.

(** X20. The developers that the manual team form creates are one for
    each member that has an owner and a repository, in the order of the
    form; their fields are trimmed, and trimming them again changes
    nothing, so each of them passes the check of owner and repository that
    [analyzeCommits] makes; their identifiers are fresh and distinct.
    With no such member the roster stays as it was. *)
Theorem applyManualMembers_developers
    (Date_getTime : str -> option Z) (Date_getHours : Z -> Z)
    (WORK_START WORK_END : Z) (reset_text encodeURIComponent : str -> str)
    (fetch_details : list commit -> exn + pool)
    (metadata : developer -> meta_fetched) (pages : developer -> list fetched)
    (manualMembers : list member) (r : roster) (a : store) :
  let validMembers :=
    List.filter (fun m => has_repository (member_owner m) (member_repo m))
      manualMembers in
  let r' :=
    (applyManualMembersToDevelopers Date_getTime Date_getHours WORK_START WORK_END
       reset_text encodeURIComponent fetch_details metadata pages
       manualMembers r a).1 in
  (validMembers = [] -> r' = r)
  /\ (validMembers <> [] ->
      map username (developers r') = map (fun m => trim (member_owner m)) validMembers
      /\ map repo (developers r') = map (fun m => trim (member_repo m)) validMembers
      /\ map id (developers r')
         = map (fun i => nextId r + Z.of_nat i) (seq 0 (length validMembers))
      /\ NoDup (map id (developers r'))
      /\ Forall (fun d => nextId r <= id d < nextId r'
                          /\ has_repository (username d) (repo d) = true
                          /\ trim (username d) = username d
                          /\ trim (repo d) = repo d
                          /\ trim (token d) = token d) (developers r')).
Proof.
  intros validMembers r'. subst r'. unfold applyManualMembersToDevelopers.
  assert (Forall (fun m => has_repository (member_owner m) (member_repo m) = true)
            validMembers) as Hvalid.
  { apply List.Forall_forall. intros m Hm. apply filter_In in Hm. apply Hm. }
  change (List.filter (fun m => has_repository (member_owner m) (member_repo m))
            manualMembers) with validMembers.
  clearbody validMembers.
  destruct validMembers as [|m0 ms] eqn:E; [split; [reflexivity | congruence]|].
  split; [discriminate|]. intros _. cbv iota. cbn [fst developers nextId].
  rewrite <- E in *. clear E m0 ms.
  pose proof (BulkFacts.newDevelopers_ids (nextId r) validMembers) as Hids.
  split; [|split; [|split; [exact Hids|split]]].
  - apply BulkFacts.newDevelopers_usernames.
  - apply BulkFacts.newDevelopers_repos.
  - rewrite Hids.
    assert (Inj eq eq (fun i : nat => nextId r + Z.of_nat i)) as Hinj
      by (intros i j Hij; lia).
    apply (NoDup_fmap_2 (fun i : nat => nextId r + Z.of_nat i)). apply NoDup_seq.
  - apply List.Forall_forall. intros d Hd.
    assert (In (id d) (map id (newDevelopers (nextId r) validMembers))) as Hid
      by (apply in_map; exact Hd).
    rewrite Hids in Hid. apply in_map_iff in Hid as (i & Hi & Hseq).
    apply in_seq in Hseq.
    destruct (BulkFacts.newDevelopers_fields _ _ _ Hd) as (m & Hm & -> & -> & ->).
    rewrite List.Forall_forall in Hvalid. specialize (Hvalid m Hm).
    unfold has_repository in *. rewrite !TrimFacts.trim_idem.
    split; [lia|]. repeat split; assumption.
Qed.

(** A form with a blank row between two members. *)
Lemma applyManualMembers_developers_witness :
  map username
    (developers
       (applyManualMembersToDevelopers (fun _ => None) (fun _ => 0) 1 24
          (fun s => s) (fun s => s) (fun _ => inl AbortError)
          (fun _ => MetaRejected AbortError) (fun _ => [])
          [mkMember 1 (lit "Ann") [] (lit " ann ") (lit "site") [];
           mkMember 2 [] [] (lit "  ") (lit "tool") [];
           mkMember 3 (lit "Bo") [] (lit "bo") (lit "lib ") []]
          (roster_start 4) empty_store).1)
  = [lit "ann"; lit "bo"].
Proof.
  apply (applyManualMembers_developers (fun _ => None) (fun _ => 0) 1 24
           (fun s => s) (fun s => s) (fun _ => inl AbortError)
           (fun _ => MetaRejected AbortError) (fun _ => [])
           [mkMember 1 (lit "Ann") [] (lit " ann ") (lit "site") [];
            mkMember 2 [] [] (lit "  ") (lit "tool") [];
            mkMember 3 (lit "Bo") [] (lit "bo") (lit "lib ") []]
           (roster_start 4) empty_store).
  vm_compute. discriminate.
Defined.

Section EachFacts.

Variable Date_getTime : str -> option Z.
Variable Date_getHours : Z -> Z.
Variable WORK_START WORK_END : Z.
Variable reset_text encodeURIComponent : str -> str.
Variable fetch_details : list commit -> exn + pool.
Variable metadata : developer -> meta_fetched.
Variable pages : developer -> list fetched.

Lemma analyze_frame dev a a' j :
  analyze Date_getTime Date_getHours WORK_START WORK_END reset_text
    encodeURIComponent fetch_details metadata pages dev a = Some a' ->
  j <> id dev -> slot j a' = slot j a.
Proof.
  intros H Hj. unfold slot.
  destruct (analyzeCommits_frame _ _ _ _ _ _ _ _ _ _ _ _ j H Hj) as (-> & -> & -> & ->).
  reflexivity.
Qed.

Lemma analyze_each_frame devs a a' j :
  analyze_each Date_getTime Date_getHours WORK_START WORK_END reset_text
    encodeURIComponent fetch_details metadata pages devs a = Some a' ->
  ~ In j (map id devs) -> slot j a' = slot j a.
Proof.
  revert a. induction devs as [|d devs IH]; intros a; cbn [analyze_each].
  - intros [= <-] _. reflexivity.
  - destruct (analyze Date_getTime Date_getHours WORK_START WORK_END reset_text
                encodeURIComponent fetch_details metadata pages d a) as [a1|] eqn:E;
      [|discriminate].
    intros H Hj. cbn [map In] in Hj.
    rewrite (IH a1 H) by tauto. apply (analyze_frame d a a1 j E).
    intros ->. tauto.
Qed.

(** In a run over developers whose identifiers differ, each analysis
    leaves what it would have left alone. *)
Lemma analyze_each_slots devs a a' d :
  NoDup (map id devs) ->
  analyze_each Date_getTime Date_getHours WORK_START WORK_END reset_text
    encodeURIComponent fetch_details metadata pages devs a = Some a' ->
  In d devs ->
  exists a1,
    analyze Date_getTime Date_getHours WORK_START WORK_END reset_text
      encodeURIComponent fetch_details metadata pages d a = Some a1
    /\ slot (id d) a' = slot (id d) a1.
Proof.
  revert a.
  induction devs as [|d0 devs IH]; intros a Hnd; cbn [analyze_each]; [intros _ []|].
  destruct (analyze Date_getTime Date_getHours WORK_START WORK_END reset_text
              encodeURIComponent fetch_details metadata pages d0 a) as [a0|] eqn:E;
    [|discriminate].
  cbn [map] in Hnd. apply NoDup_cons in Hnd as [Hd0 Hnd].
  intros H [<-|Hin].
  - exists a0. split; [exact E|].
    apply (analyze_each_frame devs a0 a' (id d0) H).
    intros Hin. apply Hd0. apply list_elem_of_In. exact Hin.
  - destruct (IH a0 Hnd H Hin) as (a1 & H1 & Hs).
    assert (id d <> id d0) as Hne.
    { intros Heq. apply Hd0. rewrite <- Heq. apply list_elem_of_In.
      apply in_map. exact Hin. }
    assert (slot (id d) a0 = slot (id d) a) as Hsame
      by (apply (analyze_frame d0 a a0 (id d) E); exact Hne).
    destruct (analyzeCommits_local _ _ _ _ _ _ _ _ _ _ _ _ a H1 Hsame)
      as (a2 & H2 & Hs2).
    exists a2. split; [exact H2|]. rewrite Hs. exact Hs2.
Qed.

Lemma store_eq (a b : store) : (forall j, slot j a = slot j b) -> a = b.
Proof.
  intros H. destruct a as [l1 p1 e1 r1], b as [l2 p2 e2 r2].
  f_equal; apply map_eq; intros j; specialize (H j); unfold slot in H; cbn in H;
    congruence.
Qed.

Lemma find_own (devs : list developer) d :
  NoDup (map id devs) -> In d devs ->
  List.find (fun d' => id d' =? id d) devs = Some d.
Proof.
  induction devs as [|d0 devs IH]; [intros _ []|].
  cbn [map List.find]. intros [Hd0 Hnd]%NoDup_cons [->|Hin].
  - rewrite Z.eqb_refl. reflexivity.
  - destruct (Z.eqb_spec (id d0) (id d)) as [Heq|_]; [|apply IH; assumption].
    exfalso. apply Hd0. rewrite Heq. apply list_elem_of_In. apply in_map. exact Hin.
Qed.

Variable clock : developer -> Z * str.

(** The bags after a run with the history are those after the run
    without it. *)
Lemma each_recorded_bags devs s s' :
  analyze_each_recorded Date_getTime Date_getHours WORK_START WORK_END reset_text
    encodeURIComponent fetch_details metadata pages clock devs s = Some s' ->
  analyze_each Date_getTime Date_getHours WORK_START WORK_END reset_text
    encodeURIComponent fetch_details metadata pages devs (bags s) = Some (bags s').
Proof.
  revert s. induction devs as [|d devs IH]; intros s; cbn [analyze_each_recorded].
  - intros [= <-]. reflexivity.
  - destruct (analyze_recorded Date_getTime Date_getHours WORK_START WORK_END
                reset_text encodeURIComponent fetch_details metadata pages clock d s)
      as [s1|] eqn:E; [|discriminate].
    intros H. cbn [analyze_each]. unfold analyze.
    unfold analyze_recorded in E. apply recorded_bags in E. rewrite E.
    apply IH. exact H.
Qed.

(** The history after a run: each analysis that ended with a result has
    added its entry, in the order of the run. *)
Lemma each_recorded_history devs s s' :
  NoDup (map id devs) ->
  analyze_each_recorded Date_getTime Date_getHours WORK_START WORK_END reset_text
    encodeURIComponent fetch_details metadata pages clock devs s = Some s' ->
  searchHistory s' = fold_left (recorded clock (bags s')) devs (searchHistory s).
Proof.
  revert s. induction devs as [|d devs IH]; intros s Hnd; cbn [analyze_each_recorded].
  - intros [= <-]. reflexivity.
  - destruct (analyze_recorded Date_getTime Date_getHours WORK_START WORK_END
                reset_text encodeURIComponent fetch_details metadata pages clock d s)
      as [s1|] eqn:E; [|discriminate].
    cbn [map] in Hnd. apply NoDup_cons in Hnd as [Hd Hnd].
    intros H. rewrite (IH s1 Hnd H). cbn [fold_left]. f_equal.
    unfold analyze_recorded in E. apply recorded_history in E. rewrite E.
    unfold recorded.
    assert (slot (id d) (bags s') = slot (id d) (bags s1)) as Hslot.
    { apply (analyze_each_frame devs (bags s1) (bags s') (id d)).
      - apply each_recorded_bags. exact H.
      - intros Hin. apply Hd. apply list_elem_of_In. exact Hin. }
    unfold slot in Hslot. injection Hslot as _ _ _ ->. reflexivity.
Qed.

End EachFacts.

(** X21. Analyses of developers with distinct identifiers do not
    interfere in the four bags: after they have run together, each up to
    the settling of its promise, the slots of each developer hold what its
    analysis would have left had it run alone, and the slots of every other
    identifier are as before; so the bags they leave do not depend on the
    order in which the analyses settle.  The search history does: each
    analysis that ends with a result adds its entry when it settles, so the
    history is the one that [addToHistory] builds from these results in the
    order of settling, for this order and for any other. *)
Theorem analyze_each_independent
    (Date_getTime : str -> option Z) (Date_getHours : Z -> Z)
    (WORK_START WORK_END : Z) (reset_text encodeURIComponent : str -> str)
    (fetch_details : list commit -> exn + pool)
    (metadata : developer -> meta_fetched) (pages : developer -> list fetched)
    (clock : developer -> Z * str)
    (devs : list developer) (s s' : session) :
  NoDup (map id devs) ->
  analyze_each_recorded Date_getTime Date_getHours WORK_START WORK_END reset_text
    encodeURIComponent fetch_details metadata pages clock devs s = Some s' ->
  (forall d, In d devs ->
     exists s1,
       analyze_recorded Date_getTime Date_getHours WORK_START WORK_END reset_text
         encodeURIComponent fetch_details metadata pages clock d s = Some s1
       /\ slot (id d) (bags s') = slot (id d) (bags s1))
  /\ (forall j, ~ In j (map id devs) -> slot j (bags s') = slot j (bags s))
  /\ searchHistory s' = fold_left (recorded clock (bags s')) devs (searchHistory s)
  /\ (forall devs' s'',
        devs' ≡ₚ devs ->
        analyze_each_recorded Date_getTime Date_getHours WORK_START WORK_END reset_text
          encodeURIComponent fetch_details metadata pages clock devs' s = Some s'' ->
        bags s'' = bags s'
        /\ searchHistory s''
           = fold_left (recorded clock (bags s')) devs' (searchHistory s)).
Proof.
  intros Hnd H.
  pose proof (each_recorded_bags _ _ _ _ _ _ _ _ _ _ _ _ _ H) as Hb.
  assert (forall devs' s'',
            devs' ≡ₚ devs ->
            analyze_each_recorded Date_getTime Date_getHours WORK_START WORK_END
              reset_text encodeURIComponent fetch_details metadata pages clock
              devs' s = Some s'' ->
            bags s'' = bags s') as Hsame.
  { intros devs' s'' Hp H'.
    pose proof (each_recorded_bags _ _ _ _ _ _ _ _ _ _ _ _ _ H') as Hb'.
    apply store_eq. intros j.
    assert (NoDup (map id devs')) as Hnd' by (rewrite Hp; exact Hnd).
    destruct (in_dec Z.eq_dec j (map id devs)) as [Hin|Hout].
    + apply in_map_iff in Hin as (d & <- & Hd).
      assert (In d devs') as Hd'.
      { apply list_elem_of_In. rewrite Hp. apply list_elem_of_In. exact Hd. }
      destruct (analyze_each_slots _ _ _ _ _ _ _ _ _ _ _ _ d Hnd Hb Hd)
        as (a1 & E1 & ->).
      destruct (analyze_each_slots _ _ _ _ _ _ _ _ _ _ _ _ d Hnd' Hb' Hd')
        as (a2 & E2 & ->).
      congruence.
    + rewrite (analyze_each_frame _ _ _ _ _ _ _ _ _ _ _ _ j Hb Hout).
      apply (analyze_each_frame _ _ _ _ _ _ _ _ _ devs' (bags s) (bags s'') j Hb').
      intros Hin. apply Hout.
      apply list_elem_of_In. rewrite <- Hp. apply list_elem_of_In. exact Hin. }
  split; [|split; [|split]].
  - intros d Hd.
    destruct (analyze_each_slots _ _ _ _ _ _ _ _ _ _ _ _ d Hnd Hb Hd) as (a1 & E1 & Hs).
    destruct (recorded_settles _ _ _ _ _ _ _ (clock d).1 (clock d).2 _ _ _ _ _ E1)
      as (s1 & E & <-).
    exists s1. split; [exact E | exact Hs].
  - intros j Hj. apply (analyze_each_frame _ _ _ _ _ _ _ _ _ _ _ _ j Hb Hj).
  - apply (each_recorded_history _ _ _ _ _ _ _ _ _ _ _ _ _ Hnd H).
  - intros devs' s'' Hp H'. split; [apply (Hsame devs' s'' Hp H')|].
    rewrite <- (Hsame devs' s'' Hp H').
    assert (NoDup (map id devs')) as Hnd' by (rewrite Hp; exact Hnd).
    apply (each_recorded_history _ _ _ _ _ _ _ _ _ _ _ _ _ Hnd' H').
Qed.

(** Two analyses that both end with a result: the bags are the same in
    either order of settling, and the history has the entry of the one that
    settled last in front. *)
Example history_follows_settling :
  let run devs :=
    analyze_each_recorded (fun _ => None) (fun _ => 0) 1 24 (fun s => s) (fun s => s)
      (fun _ => inr finished_pool) (fun _ => MetaRejected (Error []))
      (fun _ => shared_pages) (fun d => (1704200000000 + id d, []))
      devs (mkSession empty_store []) in
  option_map (fun s => map entry_repo (searchHistory s))
    (run [some_developer; other_developer]) = Some [lit "q"; lit "r"]
  /\ option_map (fun s => map entry_repo (searchHistory s))
       (run [other_developer; some_developer]) = Some [lit "r"; lit "q"].
Proof. split; vm_compute; reflexivity. Qed.

(** X22. [analyzeAllDevelopers] analyses the developers that have an
    owner and a repository, and only them: in a roster whose identifiers
    differ, the slots of a developer without one of the two are left as
    they were, and the loading flag of each of the others is down at the
    end. *)
Theorem analyzeAllDevelopers_valid_only
    (Date_getTime : str -> option Z) (Date_getHours : Z -> Z)
    (WORK_START WORK_END : Z) (reset_text encodeURIComponent : str -> str)
    (fetch_details : list commit -> exn + pool)
    (metadata : developer -> meta_fetched) (pages : developer -> list fetched)
    (r : roster) (a a' : store) :
  roster_ok r ->
  analyzeAllDevelopers Date_getTime Date_getHours WORK_START WORK_END reset_text
    encodeURIComponent fetch_details metadata pages r a = Some a' ->
  analyze_each Date_getTime Date_getHours WORK_START WORK_END reset_text
    encodeURIComponent fetch_details metadata pages
    (List.filter (fun d => has_repository (username d) (repo d)) (developers r)) a
  = Some a'
  /\ (forall d, In d (developers r) ->
        if has_repository (username d) (repo d)
        then loadingStates a' !! id d = Some false
        else slot (id d) a' = slot (id d) a).
Proof.
  intros (_ & Hnd & _) H.
  assert (forall devs o,
             (forall d, In d devs -> In d (developers r)) ->
             fold_left
               (analyze_by_id Date_getTime Date_getHours WORK_START WORK_END reset_text
                  encodeURIComponent fetch_details metadata pages r)
               (map id devs) o
             = match o with
               | Some a0 =>
                   analyze_each Date_getTime Date_getHours WORK_START WORK_END
                     reset_text encodeURIComponent fetch_details metadata pages devs a0
               | None => None
               end) as Hfold.
  { induction devs as [|d devs IH]; intros o Hsub; cbn [map fold_left analyze_each].
    - destruct o; reflexivity.
    - rewrite IH by (intros d' Hd'; apply Hsub; right; exact Hd').
      destruct o as [a0|]; [|reflexivity]. cbn [analyze_by_id].
      rewrite (find_own _ d Hnd) by (apply Hsub; left; reflexivity).
      destruct (analyze _ _ _ _ _ _ _ _ _ d a0); reflexivity. }
  unfold analyzeAllDevelopers in H. rewrite Hfold in H.
  2: { intros d Hd. apply filter_In in Hd. apply Hd. }
  split; [exact H|].
  assert (NoDup (map id (List.filter (fun d => has_repository (username d) (repo d))
                           (developers r)))) as Hnd'.
  { eapply sublist_NoDup; [exact Hnd|]. apply fmap_sublist.
    clear. induction (developers r) as [|d l IH]; [constructor|].
    cbn [List.filter]. destruct (has_repository _ _); constructor; exact IH. }
  intros d Hd. destruct (has_repository (username d) (repo d)) eqn:Hv.
  - destruct (analyze_each_slots _ _ _ _ _ _ _ _ _ _ _ _ d Hnd' H) as (a1 & E1 & Hs).
    { apply filter_In. split; assumption. }
    injection Hs as Hl _ _ _. rewrite Hl.
    unfold analyze in E1.
    unfold has_repository in Hv.
    unfold analyzeCommits in E1.
    apply andb_true_iff in Hv as [Hu Hr]. rewrite Hu, Hr in E1. cbn [negb orb] in E1.
    destruct (pipeline _ _ _ _ _ _ _ _ _ _ _) as [[a2 outcome]|]; [|discriminate E1].
    injection E1 as <-. cbn. apply lookup_insert_eq.
  - apply (analyze_each_frame _ _ _ _ _ _ _ _ _ _ _ _ (id d) H).
    intros Hin. apply in_map_iff in Hin as (d' & Hid & Hd').
    apply filter_In in Hd' as [Hd' Hv'].
    assert (d' = d) as ->; [|congruence].
    clear -Hnd Hid Hd Hd'.
    induction (developers r) as [|d0 l IH]; [destruct Hd|].
    cbn [map] in Hnd. apply NoDup_cons in Hnd as [Hd0 Hnd].
    destruct Hd as [->|Hd], Hd' as [->|Hd'].
    + reflexivity.
    + exfalso. apply Hd0. rewrite <- Hid. apply list_elem_of_In. apply in_map. exact Hd'.
    + exfalso. apply Hd0. rewrite Hid. apply list_elem_of_In. apply in_map. exact Hd.
    + apply IH; assumption.
Qed.

(** Two developers whose analyses both end with a result, the second
    settling last: its entry is in front. *)
Lemma analyze_each_independent_witness :
  exists s',
    analyze_each_recorded (fun _ => None) (fun _ => 0) 1 24 (fun s => s) (fun s => s)
      (fun _ => inr finished_pool) (fun _ => MetaRejected (Error []))
      (fun _ => shared_pages) (fun d => (1704200000000 + id d, []))
      [some_developer; other_developer] (mkSession empty_store []) = Some s'
    /\ slot 7 (bags s') = slot 7 empty_store
    /\ map entry_id (searchHistory s') = [1704200000002; 1704200000001].
Proof.
  destruct (analyze_each_recorded (fun _ => None) (fun _ => 0) 1 24 (fun s => s)
              (fun s => s) (fun _ => inr finished_pool)
              (fun _ => MetaRejected (Error [])) (fun _ => shared_pages)
              (fun d => (1704200000000 + id d, []))
              [some_developer; other_developer] (mkSession empty_store []))
    as [s'|] eqn:E; [|vm_compute in E; discriminate E].
  exists s'. split; [reflexivity|].
  assert (NoDup (map id [some_developer; other_developer]))
    as Hnd by (apply (bool_decide_unpack _); vm_compute; exact I).
  destruct (analyze_each_independent _ _ _ _ _ _ _ _ _ _ _ _ _ Hnd E)
    as (_ & H & _ & _).
  split.
  - apply H. vm_compute. intros [H1|[H2|[]]]; discriminate.
  - vm_compute in E. injection E as <-. reflexivity.
Defined.

(** A roster with one developer to analyse and one blank card. *)
Lemma analyzeAllDevelopers_valid_only_witness :
  exists a',
    analyzeAllDevelopers (fun _ => None) (fun _ => 0) 1 24 (fun s => s) (fun s => s)
      (fun _ => inl AbortError) (fun _ => MetaRejected AbortError) (fun _ => [])
      (mkRoster [some_developer; blank_developer 2] 3) empty_store = Some a'
    /\ slot 2 a' = slot 2 empty_store.
Proof.
  destruct (analyzeAllDevelopers (fun _ => None) (fun _ => 0) 1 24 (fun s => s)
              (fun s => s) (fun _ => inl AbortError) (fun _ => MetaRejected AbortError)
              (fun _ => []) (mkRoster [some_developer; blank_developer 2] 3) empty_store)
    as [a'|] eqn:E; [|vm_compute in E; discriminate E].
  exists a'. split; [reflexivity|].
  assert (roster_ok (mkRoster [some_developer; blank_developer 2] 3)) as Hok.
  { split; [cbn; unfold MAX_DEVELOPERS; lia|]. split.
    - apply (bool_decide_unpack _). vm_compute. exact I.
    - repeat constructor. }
  destruct (analyzeAllDevelopers_valid_only _ _ _ _ _ _ _ _ _ _ _ _ Hok E) as [_ H].
  apply (H (blank_developer 2)). right. left. reflexivity.
Defined.

(** ** The Jira proxy *)

(** X23. The proxy calls the upstream server exactly when the request
    names a URL that is not empty, and then with that URL.  The call always
    carries the headers [Content-Type] and [Accept]; a header of the
    request is passed on with its own value, also when it is one of these
    two; a call with the method [GET], which is the method of a request
    that names none, has no body. *)
Theorem proxy_call_shape {value : Type} (value_truthy : value -> bool)
    (JSON_stringify : value -> str) (req : proxy_request value) :
  (proxy_call value_truthy JSON_stringify req = None
   <-> req_url req = None \/ req_url req = Some [])
  /\ (forall call,
        proxy_call value_truthy JSON_stringify req = Some call ->
        req_url req = Some (call_url call)
        /\ is_Some (call_headers call !! lit "Content-Type")
        /\ is_Some (call_headers call !! lit "Accept")
        /\ (forall h k v, req_headers req = Some h -> h !! k = Some v ->
              call_headers call !! k = Some v)
        /\ (call_method call = lit "GET" -> call_body call = None)
        /\ (req_method req = None -> call_method call = lit "GET")).
Proof.
  unfold proxy_call. split.
  - destruct (req_url req) as [[|c url]|]; cbn [truthy].
    + split; [right; reflexivity | reflexivity].
    + split; [discriminate | intros [H|H]; discriminate H].
    + split; [left; reflexivity | reflexivity].
  - intros call H.
    destruct (req_url req) as [[|c url]|]; cbn [truthy] in H; try discriminate H.
    injection H as <-. unfold fetchOptions. cbn [call_url call_headers call_method call_body].
    split; [reflexivity|].
    assert (forall k, is_Some (default_headers !! k) ->
              is_Some ((match req_headers req with Some h => h | None => ∅ end
                        ∪ default_headers) !! k)) as Hdef.
    { intros k [v Hv].
      destruct (match req_headers req with Some h => h | None => ∅ end !! k) as [u|] eqn:E.
      - exists u. apply lookup_union_Some_l. exact E.
      - exists v. rewrite lookup_union_r by exact E. exact Hv. }
    split; [apply Hdef; eexists; vm_compute; reflexivity|].
    split; [apply Hdef; eexists; vm_compute; reflexivity|].
    split; [intros h k v -> Hk; apply lookup_union_Some_l; exact Hk|].
    split.
    + intros ->. destruct (req_body req) as [body|]; [|reflexivity].
      rewrite bool_decide_eq_true_2 by reflexivity.
      rewrite andb_false_r. reflexivity.
    + unfold method_of. intros ->. reflexivity.
Qed.

(** A request with a token of its own and a content type of its own. *)
Lemma proxy_call_shape_witness :
  call_headers
    (fetchOptions (fun _ : unit => true) (fun _ => lit "null")
       (lit "https://x.test/rest")
       (mkRequest (Some (lit "https://x.test/rest")) None
          (Some (<[lit "Content-Type" := lit "text/plain"]> ∅)) None))
    !! lit "Content-Type" = Some (lit "text/plain").
Proof.
  destruct (proxy_call_shape (fun _ : unit => true) (fun _ => lit "null")
              (mkRequest (Some (lit "https://x.test/rest")) None
                 (Some (<[lit "Content-Type" := lit "text/plain"]> ∅)) None))
    as [_ H].
  destruct (H _ eq_refl) as (_ & _ & _ & Hh & _).
  apply (Hh _ _ _ eq_refl). apply lookup_insert_eq.
Defined.

(** X24. When the upstream server answers, the second copy of the
    handler always answers 200 with a body that relays the upstream flag
    and status.  The first copy answers 500 for a body announced as JSON
    that does not parse and for an upstream status outside 100..999, which
    the server refuses to send; otherwise it answers under the upstream
    status itself, with a body that relays the flag and the status when the
    server sends a body under that status, and without any body when it
    does not: under 204, 304 and the informational statuses, and under 205
    with an Express that strips it.  For a body announced as JSON that is
    not empty and parses, under a status that is sent with a body, the two
    copies send the same JSON.  When the call fails both answer 500 with a
    message that is not empty, and without a URL both answer 400. *)
Theorem proxy_copies {value : Type} (value_truthy : value -> bool)
    (JSON_stringify : value -> str) (JSON_parse : str -> option value)
    (fetch : fetch_call -> upstream_outcome) (invalid_json : upstream_response -> str)
    (strips_205 : bool) (invalid_status : Z -> str) (req : proxy_request value) :
  let answer :=
    proxy value_truthy JSON_stringify JSON_parse fetch invalid_json
      strips_205 invalid_status req in
  let answer_alt := proxy_alt value_truthy JSON_stringify JSON_parse fetch req in
  match proxy_call value_truthy JSON_stringify req with
  | None => answer = (400, Some UrlRequired) /\ answer_alt = (400, Some UrlRequired)
  | Some call =>
      match fetch call with
      | Failed message =>
          answer = answer_alt /\ answer.1 = 500
          /\ exists error, answer.2 = Some (ProxyError error) /\ truthy error = true
      | Answered r =>
          let parsed := bool_decide (is_Some (JSON_parse (up_text r))) in
          let in_range := (100 <=? up_status r) && (up_status r <=? 999) in
          answer_alt.1 = 200
          /\ (exists data, answer_alt.2 = Some (Relayed (up_ok r) (up_status r) data))
          /\ (if json_content_type r && negb parsed
              then answer = proxy_failure (invalid_json r)
              else if negb in_range
              then answer = proxy_failure (invalid_status (up_status r))
              else answer.1 = up_status r
                   /\ if sends_body strips_205 (up_status r)
                      then exists data,
                             answer.2 = Some (Relayed (up_ok r) (up_status r) data)
                      else answer.2 = None)
          /\ (if json_content_type r && truthy (up_text r) && parsed
                 && in_range && sends_body strips_205 (up_status r)
              then answer.2 = answer_alt.2
              else True)
          /\ sends_body strips_205 204 = false
          /\ sends_body strips_205 304 = false
          /\ sends_body strips_205 205 = negb strips_205
          /\ (100 <= up_status r <= 199 -> sends_body strips_205 (up_status r) = false)
          /\ (200 <= up_status r <= 599 ->
              up_status r <> 204 -> up_status r <> 205 -> up_status r <> 304 ->
              sends_body strips_205 (up_status r) = true)
      end
  end.
Proof.
  intros answer answer_alt. subst answer answer_alt. unfold proxy, proxy_alt.
  destruct (proxy_call value_truthy JSON_stringify req) as [call|];
    [|split; reflexivity].
  destruct (fetch call) as [r|message].
  - set (parsed := bool_decide (is_Some (JSON_parse (up_text r)))).
    set (in_range := (100 <=? up_status r) && (up_status r <=? 999)).
    split; [reflexivity|]. split; [eexists; reflexivity|].
    assert (forall data : proxy_data value,
              let reply := relay strips_205 invalid_status r data in
              if negb in_range
              then reply = proxy_failure (invalid_status (up_status r))
              else reply.1 = up_status r
                   /\ if sends_body strips_205 (up_status r)
                      then reply.2 = Some (Relayed (up_ok r) (up_status r) data)
                      else reply.2 = None) as Hrelay.
    { intros data. unfold relay, status_json. fold in_range.
      destruct in_range; cbn [negb]; [|reflexivity].
      cbn [fst snd]. split; [reflexivity|].
      destruct (sends_body strips_205 (up_status r)); reflexivity. }
    assert (forall data : proxy_data value,
              in_range && sends_body strips_205 (up_status r) = true ->
              (relay strips_205 invalid_status r data).2
              = Some (Relayed (up_ok r) (up_status r) data)) as Hsame.
    { intros data [Hr Hs]%andb_true_iff. specialize (Hrelay data).
      rewrite Hr, Hs in Hrelay. cbn [negb] in Hrelay. apply Hrelay. }
    assert (forall data : proxy_data value,
              if negb in_range
              then relay strips_205 invalid_status r data
                   = proxy_failure (invalid_status (up_status r))
              else (relay strips_205 invalid_status r data).1 = up_status r
                   /\ if sends_body strips_205 (up_status r)
                      then exists data',
                          (relay strips_205 invalid_status r data).2
                          = Some (Relayed (up_ok r) (up_status r) data')
                      else (relay strips_205 invalid_status r data).2 = None)
      as Hshape.
    { intros data. specialize (Hrelay data). cbv zeta in Hrelay.
      destruct (negb in_range); [exact Hrelay|].
      destruct Hrelay as [H1 H2]. split; [exact H1|].
      destruct (sends_body strips_205 (up_status r)); [eexists; exact H2 | exact H2]. }
    clear Hrelay. clearbody in_range.
    split; [|split].
    + destruct (json_content_type r); cbn [andb].
      * subst parsed. destruct (JSON_parse (up_text r)) as [v|].
        -- rewrite bool_decide_eq_true_2 by (eexists; reflexivity). cbn [negb].
           apply Hshape.
        -- rewrite bool_decide_eq_false_2 by (intros [? ?]; discriminate).
           reflexivity.
      * apply Hshape.
    + destruct (json_content_type r); [|exact I].
      destruct (truthy (up_text r)); [|exact I].
      subst parsed. destruct (JSON_parse (up_text r)) as [v|].
      * rewrite bool_decide_eq_true_2 by (eexists; reflexivity).
        destruct in_range; [|exact I].
        destruct (sends_body strips_205 (up_status r)) eqn:E; [|exact I].
        cbn [andb snd]. apply Hsame. reflexivity.
      * rewrite bool_decide_eq_false_2 by (intros [? ?]; discriminate). exact I.
    + unfold sends_body. repeat split; try (destruct strips_205; reflexivity).
      { intros [H1 H2]. apply Z.leb_le in H1, H2. rewrite H1, H2. reflexivity. }
      intros Hr H204 H205 H304.
      destruct (Z.eqb_spec (up_status r) 204), (Z.eqb_spec (up_status r) 304),
        (Z.eqb_spec (up_status r) 205); try contradiction.
      rewrite andb_false_r. cbn [negb andb].
      destruct (Z.leb_spec (up_status r) 199); [lia|].
      rewrite andb_false_r. reflexivity.
  - split; [reflexivity|]. split; [reflexivity|].
    unfold proxy_failure. cbn [snd]. eexists. split; [reflexivity|].
    destruct message; reflexivity.
Qed.

(** An upstream answer 404 with a JSON body, an upstream answer 204 with
    neither a body nor a content type and an upstream answer 304, as the
    copies relay them. *)
Example proxy_copies_cases :
  let request := mkRequest (value := unit) (Some (lit "https://x.test/rest")) None None None in
  let parse := fun s : str => if truthy s then Some tt else None in
  let upstream status ok text :=
    fun _ : fetch_call =>
      Answered (mkUpstream status ok
                  (if truthy text then Some (lit "application/json") else None) text) in
  let first status ok text :=
    proxy (fun _ => true) (fun _ => lit "null") parse (upstream status ok text)
      (fun _ => lit "Unexpected end of JSON input") true (fun _ => lit "Invalid status code")
      request in
  let second status ok text :=
    proxy_alt (fun _ => true) (fun _ => lit "null") parse (upstream status ok text)
      request in
  first 404 false (lit "{}") = (404, Some (Relayed false 404 (DataJson tt)))
  /\ second 404 false (lit "{}") = (200, Some (Relayed false 404 (DataJson tt)))
  /\ first 204 true [] = (204, None)
  /\ second 204 true [] = (200, Some (Relayed true 204 DataNull))
  /\ first 304 false (lit "{}") = (304, None).
Proof. repeat split; reflexivity. Qed.

(** ** How a listing can end *)

Section FreshFacts.

Lemma keep_first_fresh seen l :
  NoDup (omap identifier (keep_first seen l))
  /\ forall s, s ∈ omap identifier (keep_first seen l) -> s ∉ seen.
Proof.
  revert seen. induction l as [|c l IH]; intros seen; cbn [keep_first].
  - split; [constructor | intros s Hs; inversion Hs].
  - destruct (identifier c) as [s|] eqn:E.
    + destruct (decide (s ∈ seen)) as [Hin|Hout]; [apply IH|].
      destruct (IH ({[s]} ∪ seen)) as [Hnd Hfresh].
      change (omap identifier (c :: keep_first ({[s]} ∪ seen) l))
        with (match identifier c with
              | Some y => y :: omap identifier (keep_first ({[s]} ∪ seen) l)
              | None => omap identifier (keep_first ({[s]} ∪ seen) l)
              end).
      rewrite E. split.
      * constructor; [|exact Hnd]. intros Hs. apply Hfresh in Hs. set_solver.
      * intros s' [->|Hs']%elem_of_cons; [exact Hout|].
        apply Hfresh in Hs'. set_solver.
    + change (omap identifier (c :: keep_first seen l))
        with (match identifier c with
              | Some y => y :: omap identifier (keep_first seen l)
              | None => omap identifier (keep_first seen l)
              end).
      rewrite E. apply IH.
Qed.

Lemma truthy_app a b : truthy a = true -> truthy (a ++ b) = true.
Proof. destruct a; [discriminate | reflexivity]. Qed.

End FreshFacts.

Section OutcomeFacts.

Variable reset_text : str -> str.

(** The loop throws what a fetch rejected with, or the error of a response
    that is not ok. *)
Lemma list_pages_raised responses st e :
  list_pages reset_text responses st = Raised e ->
  In (Rejected e) responses
  \/ exists r, In (Resolved r) responses /\ ok r = false /\ e = http_error reset_text r.
Proof.
  revert st. induction responses as [|f responses IH]; intros st; cbn [list_pages].
  - destruct (negb (truthy (nextUrl st))); [|destruct (decide _)]; discriminate.
  - destruct (negb (truthy (nextUrl st))); [discriminate|].
    destruct (decide (nextUrl st ∈ seenPageUrls st)); [discriminate|].
    destruct f as [resp|e']; [|intros [= ->]; left; left; reflexivity].
    destruct (ok resp) eqn:Hok; cbn [negb].
    + destruct (body resp) as [[|c items]|]; try discriminate.
      destruct (fold_left collect (c :: items) (allCommits st, seenShas st)).
      intros H. destruct (IH _ H) as [Hin|(r & Hin & Hr)].
      * left. right. exact Hin.
      * right. exists r. split; [right; exact Hin | exact Hr].
    + intros [= <-]. right. exists resp. split; [left; reflexivity|].
      split; [exact Hok | reflexivity].
Qed.

Lemma http_error_message r :
  exists msg, http_error reset_text r = Error msg /\ truthy msg = true.
Proof.
  unfold http_error.
  destruct (status r =? 404); [eexists; split; reflexivity|].
  destruct (status r =? 401); [eexists; split; reflexivity|].
  destruct (status r =? 403); [|eexists; split; reflexivity].
  eexists. split; [reflexivity|]. unfold forbidden_message.
  apply truthy_app.
  destruct (json_message r) as [m|]; [destruct (truthy m) eqn:Hm; [exact Hm|]|];
    (destruct (truthy (rawText r)) eqn:Hraw; [exact Hraw | reflexivity]).
Qed.

End OutcomeFacts.

(** X25. A listing that ends gives either a list of commits that is not
    empty and in which no identifier occurs twice, or one of three errors:
    [No commits found], what a fetch was rejected with, or the error of a
    response of the sequence that is not ok.  The error of a response has a
    message that is not empty whatever its status is. *)
Theorem fetch_all_outcomes
    (reset_text : str -> str) (url : str) (responses : list fetched)
    (outcome : exn + list commit) :
  fetch_all reset_text url responses = Some outcome ->
  match outcome with
  | inr commits => commits <> [] /\ NoDup (omap identifier commits)
  | inl e =>
      (e = Error (lit "No commits found")
       \/ In (Rejected e) responses
       \/ exists r, In (Resolved r) responses /\ ok r = false
                    /\ e = http_error reset_text r)
      /\ forall r, e = http_error reset_text r ->
           exists msg, e = Error msg /\ truthy msg = true
  end.
Proof.
  unfold fetch_all.
  destruct (list_pages reset_text responses (lister_start url)) as [st rest|e|st] eqn:H;
    [| |discriminate].
  - apply list_pages_listed in H as (pages & _ & Ha & _).
    cbn [lister_start allCommits seenShas app] in Ha.
    destruct (allCommits st) as [|c l] eqn:E.
    + intros [= <-]. split; [left; reflexivity|].
      intros r _. eexists. split; reflexivity.
    + intros [= <-]. split; [discriminate|]. rewrite Ha.
      apply (proj1 (keep_first_fresh _ _)).
  - intros [= <-]. split.
    + right. apply list_pages_raised in H. exact H.
    + intros r ->. apply http_error_message.
Qed.

(** The listing of a repository whose first page holds no commit. *)
Lemma fetch_all_outcomes_witness :
  Error (lit "No commits found") = Error (lit "No commits found")
  \/ In (Rejected (Error (lit "No commits found"))) empty_listing
  \/ exists r, In (Resolved r) empty_listing /\ ok r = false
               /\ Error (lit "No commits found") = http_error (fun s => s) r.
Proof.
  apply (fetch_all_outcomes (fun s => s) page_one_url empty_listing
           (inl (Error (lit "No commits found")))).
  vm_compute. reflexivity.
Defined.

(** ** Exact quotients and doubles *)

Module DoubleFacts.

Local Open Scope Q_scope.

Lemma two_pos k : 0 < Qpower 2 k.
Proof. apply Qpower_0_lt. reflexivity. Qed.

Lemma two_nonzero : ~ (2 : Q) == 0.
Proof. discriminate. Qed.

Lemma pow2_int k : (0 <= k)%Z -> inject_Z (2 ^ k) == Qpower 2 k.
Proof. intros H. apply (Zpower_Qpower 2 k H). Qed.

Lemma pow2_add a b : Qpower 2 (a + b) == Qpower 2 a * Qpower 2 b.
Proof. apply Qpower_plus, two_nonzero. Qed.

Lemma pow2_le a b : (a <= b)%Z -> Qpower 2 a <= Qpower 2 b.
Proof. intros H. apply Qpower_le_compat_l; [exact H | discriminate]. Qed.

Lemma pow2_lt_inv a b : Qpower 2 a < Qpower 2 b -> (a < b)%Z.
Proof. intros H. apply (Qpower_lt_compat_l_inv 2); [exact H | reflexivity]. Qed.

(** Dividing by a power of two. *)
Lemma div_pow2 x a b : x <= Qpower 2 a -> x / Qpower 2 b <= Qpower 2 (a - b).
Proof.
  intros H. unfold Zminus. rewrite pow2_add, Qpower_opp.
  unfold Qdiv. apply Qmult_le_compat_r; [exact H|].
  apply Qlt_le_weak, Qinv_lt_0_compat, two_pos.
Qed.

Lemma pow2_div x a b : Qpower 2 a <= x -> Qpower 2 (a - b) <= x / Qpower 2 b.
Proof.
  intros H. unfold Zminus. rewrite pow2_add, Qpower_opp.
  unfold Qdiv. apply Qmult_le_compat_r; [exact H|].
  apply Qlt_le_weak, Qinv_lt_0_compat, two_pos.
Qed.

Lemma log2_bounds (n : Z) :
  (0 < n)%Z ->
  Qpower 2 (Z.log2 n) <= inject_Z n /\ inject_Z n < Qpower 2 (Z.log2 n + 1).
Proof.
  intros H. destruct (Z.log2_spec n H) as [H1 H2].
  pose proof (Z.log2_nonneg n) as H0.
  split.
  - rewrite <- pow2_int by exact H0. rewrite <- Zle_Qle. exact H1.
  - rewrite <- pow2_int by lia. rewrite <- Zlt_Qlt. exact H2.
Qed.

(** [Qlog2] is the integer part of the binary logarithm. *)
Lemma Qlog2_spec q :
  0 < q -> Qpower 2 (Qlog2 q) <= q /\ q < Qpower 2 (Qlog2 q + 1).
Proof.
  intros Hq. destruct q as [n d].
  assert (0 < n)%Z as Hn by (unfold Qlt in Hq; cbn in Hq; lia).
  destruct (log2_bounds n Hn) as [Hn1 Hn2].
  destruct (log2_bounds (Zpos d) eq_refl) as [Hd1 Hd2].
  assert (0 < inject_Z (Zpos d)) as Hd0 by reflexivity.
  assert (Qpower 2 (Z.log2 n - Z.log2 (Zpos d) - 1) < n # d
          /\ n # d < Qpower 2 (Z.log2 n - Z.log2 (Zpos d) + 1)) as [Hlow Hup].
  { rewrite (Qmake_Qdiv n d). split.
    - apply Qlt_shift_div_l; [exact Hd0|].
      apply Qlt_le_trans with (Qpower 2 (Z.log2 n)); [|exact Hn1].
      replace (Z.log2 n) with (Z.log2 n - Z.log2 (Zpos d) - 1 + (Z.log2 (Zpos d) + 1))%Z
        at 2 by lia.
      rewrite pow2_add. apply Qmult_lt_l; [apply two_pos | exact Hd2].
    - apply Qlt_shift_div_r; [exact Hd0|].
      apply Qlt_le_trans with (Qpower 2 (Z.log2 n + 1)); [exact Hn2|].
      replace (Z.log2 n + 1)%Z
        with (Z.log2 n - Z.log2 (Zpos d) + 1 + Z.log2 (Zpos d))%Z at 1 by lia.
      rewrite pow2_add. apply Qmult_le_l; [apply two_pos | exact Hd1]. }
  unfold Qlog2. cbn [Qnum Qden].
  destruct (Qle_bool (Qpower 2 (Z.log2 n - Z.log2 (Zpos d))) (n # d)) eqn:E.
  - split; [apply Qle_bool_iff; exact E | exact Hup].
  - split; [apply Qlt_le_weak; exact Hlow|].
    replace (Z.log2 n - Z.log2 (Zpos d) - 1 + 1)%Z
      with (Z.log2 n - Z.log2 (Zpos d))%Z by lia.
    apply Qnot_le_lt. intros H. apply Qle_bool_iff in H. congruence.
Qed.

Lemma Qlog2_mono p q : 0 < p -> p <= q -> (Qlog2 p <= Qlog2 q)%Z.
Proof.
  intros Hp Hpq.
  assert (0 < q) as Hq by (apply Qlt_le_trans with p; assumption).
  destruct (Qlog2_spec p Hp) as [H1 _]. destruct (Qlog2_spec q Hq) as [_ H2].
  assert (Qlog2 p < Qlog2 q + 1)%Z; [|lia].
  apply pow2_lt_inv. apply Qle_lt_trans with p; [exact H1|].
  apply Qle_lt_trans with q; assumption.
Qed.

Lemma round_half_even_cases x :
  round_half_even x = Qfloor x \/ round_half_even x = (Qfloor x + 1)%Z.
Proof.
  unfold round_half_even.
  destruct (x - inject_Z (Qfloor x) ?= 1 # 2); [|left; reflexivity|right; reflexivity].
  destruct (Z.even (Qfloor x)); [left | right]; reflexivity.
Qed.

Lemma round_half_even_int k : round_half_even (inject_Z k) = k.
Proof.
  unfold round_half_even. rewrite Qfloor_Z.
  destruct (Qcompare_spec (inject_Z k - inject_Z k) (1 # 2)) as [H|H|H];
    [exfalso; lra | reflexivity | exfalso; lra].
Qed.

Lemma round_half_even_mono x y :
  x <= y -> (round_half_even x <= round_half_even y)%Z.
Proof.
  intros Hxy. pose proof (Qfloor_resp_le x y Hxy) as Hf.
  destruct (Z.eq_dec (Qfloor x) (Qfloor y)) as [E|E].
  - unfold round_half_even. rewrite <- E.
    destruct (Qcompare_spec (x - inject_Z (Qfloor x)) (1 # 2)) as [Cx|Cx|Cx];
      destruct (Qcompare_spec (y - inject_Z (Qfloor x)) (1 # 2)) as [Cy|Cy|Cy];
      try (exfalso; lra); try lia;
      destruct (Z.even (Qfloor x)); lia.
  - destruct (round_half_even_cases x) as [-> | ->];
      destruct (round_half_even_cases y) as [-> | ->]; lia.
Qed.

Lemma round_half_even_le x k : x <= inject_Z k -> (round_half_even x <= k)%Z.
Proof.
  intros H. rewrite <- (round_half_even_int k). apply round_half_even_mono, H.
Qed.

Lemma round_half_even_ge x k : inject_Z k <= x -> (k <= round_half_even x)%Z.
Proof.
  intros H. rewrite <- (round_half_even_int k). apply round_half_even_mono, H.
Qed.

(** Rounding to the nearest double keeps the order. *)
Lemma nearest_mono p q : 0 < p -> p <= q -> nearest p <= nearest q.
Proof.
  intros Hp Hpq.
  assert (0 < q) as Hq by (apply Qlt_le_trans with p; assumption).
  pose proof (Qlog2_mono p q Hp Hpq) as HL.
  destruct (Qlog2_spec p Hp) as [_ Hp2]. destruct (Qlog2_spec q Hq) as [Hq1 _].
  unfold nearest. cbv zeta.
  set (e1 := Z.max (Qlog2 p - 52) (-1074)).
  set (e2 := Z.max (Qlog2 q - 52) (-1074)).
  destruct (Z.eq_dec e1 e2) as [E|E].
  - rewrite <- E. apply Qmult_le_compat_r; [|apply Qlt_le_weak, two_pos].
    rewrite <- Zle_Qle. apply round_half_even_mono.
    unfold Qdiv. apply Qmult_le_compat_r; [exact Hpq|].
    apply Qlt_le_weak, Qinv_lt_0_compat, two_pos.
  - assert (e1 < e2)%Z as He by lia.
    assert (e2 = Qlog2 q - 52)%Z as He2 by lia.
    assert (Qlog2 p + 1 <= Qlog2 q)%Z as Hlt by lia.
    apply Qle_trans with (Qpower 2 (Qlog2 q)).
    + assert (round_half_even (p / Qpower 2 e1) <= 2 ^ (Qlog2 q - e1))%Z as Hm.
      { apply round_half_even_le. rewrite pow2_int by lia. apply div_pow2.
        apply Qle_trans with (Qpower 2 (Qlog2 p + 1));
          [apply Qlt_le_weak; exact Hp2 | apply pow2_le; lia]. }
      apply Qle_trans with (inject_Z (2 ^ (Qlog2 q - e1)) * Qpower 2 e1).
      * apply Qmult_le_compat_r; [rewrite <- Zle_Qle; exact Hm|].
        apply Qlt_le_weak, two_pos.
      * rewrite pow2_int by lia. rewrite <- pow2_add.
        replace (Qlog2 q - e1 + e1)%Z with (Qlog2 q) by lia. apply Qle_refl.
    + assert (2 ^ 52 <= round_half_even (q / Qpower 2 e2))%Z as Hm.
      { apply round_half_even_ge. rewrite pow2_int by lia.
        replace 52%Z with (Qlog2 q - e2)%Z by lia. apply pow2_div. exact Hq1. }
      apply Qle_trans with (inject_Z (2 ^ 52) * Qpower 2 e2).
      * rewrite pow2_int by lia. rewrite <- pow2_add.
        replace (52 + e2)%Z with (Qlog2 q) by lia. apply Qle_refl.
      * apply Qmult_le_compat_r; [rewrite <- Zle_Qle; exact Hm|].
        apply Qlt_le_weak, two_pos.
Qed.

(** The nearest double depends on the value only. *)
Lemma nearest_value p q : 0 < p -> p == q -> nearest p == nearest q.
Proof.
  intros Hp E. apply Qle_antisym.
  - apply nearest_mono; [exact Hp | rewrite E; apply Qle_refl].
  - apply nearest_mono; [rewrite <- E; exact Hp | rewrite E; apply Qle_refl].
Qed.

Lemma to_double_zero x : x == 0 -> to_double x = Fin 0.
Proof.
  intros H. unfold to_double. rewrite (Qred_complete x 0 H). reflexivity.
Qed.

Lemma to_double_positive q :
  0 < q ->
  to_double q
  = if Qle_bool (Qpower 2 1024) (Qred (nearest (Qred q))) then PosInf
    else Fin (Qred (nearest (Qred q))).
Proof.
  intros Hq. unfold to_double. cbv zeta.
  assert (0 < Qred q) as Hr by (rewrite Qred_correct; exact Hq).
  destruct (Qred q) as [n d] eqn:E. unfold Qlt in Hr. cbn in Hr.
  cbn [Qnum]. destruct n as [|n|n]; try lia.
  reflexivity.
Qed.

(** Below a bound that rounds to a finite double, a positive rational
    rounds to its nearest double. *)
Lemma to_double_below q bound :
  0 < q -> q <= bound -> nearest bound < Qpower 2 1024 ->
  exists r, to_double q = Fin r /\ r == nearest q.
Proof.
  intros Hq Hb Hfin. rewrite (to_double_positive q Hq).
  assert (Qred (nearest (Qred q)) == nearest q) as E.
  { rewrite Qred_correct. apply nearest_value.
    - rewrite Qred_correct. exact Hq.
    - apply Qred_correct. }
  destruct (Qle_bool (Qpower 2 1024) (Qred (nearest (Qred q)))) eqn:C.
  - exfalso. apply Qle_bool_iff in C. rewrite E in C.
    pose proof (nearest_mono q bound Hq Hb). lra.
  - eexists. split; [reflexivity | exact E].
Qed.

Lemma js_ge_true q T : inject_Z T <= q -> js_ge (Fin q) T = true.
Proof. intros H. apply Qle_bool_iff. exact H. Qed.

Lemma js_ge_false q T : q < inject_Z T -> js_ge (Fin q) T = false.
Proof.
  intros H. cbn [js_ge]. destruct (Qle_bool (inject_Z T) q) eqn:C; [|reflexivity].
  apply Qle_bool_iff in C. lra.
Qed.

Lemma inject_pos z : (0 < z)%Z -> 0 < inject_Z z.
Proof. intros H. rewrite Zlt_Qlt in H. exact H. Qed.

(** The quotient of two counts, as a double. *)
Lemma count_quotient (a n : Z) (bound : Q) :
  (0 < a)%Z -> (0 < n)%Z -> inject_Z a / inject_Z n <= bound ->
  nearest bound < Qpower 2 1024 ->
  exists r,
    jsdiv (jsnum_of_Z a) (jsnum_of_Z n) = Fin r
    /\ r == nearest (inject_Z a / inject_Z n)
    /\ 0 < inject_Z a / inject_Z n.
Proof.
  intros Ha Hn Hb Hfin. unfold jsnum_of_Z, jsdiv.
  assert (0 < inject_Z n) as Hn' by (rewrite Zlt_Qlt in Hn; exact Hn).
  assert (0 < inject_Z a) as Ha' by (rewrite Zlt_Qlt in Ha; exact Ha).
  assert (Qeq_bool (inject_Z n) 0 = false) as ->.
  { destruct (Qeq_bool (inject_Z n) 0) eqn:C; [|reflexivity].
    apply Qeq_bool_iff in C. lra. }
  assert (0 < inject_Z a / inject_Z n) as Hx.
  { apply Qlt_shift_div_l; [exact Hn' | lra]. }
  destruct (to_double_below _ bound Hx Hb Hfin) as (r & E & Hr).
  exists r. repeat split; assumption.
Qed.

(** A comparison of the on-time percentage with a threshold comes out in
    doubles as it does exactly, for fewer than 2^40 commits, once the
    threshold is seen to be reached by the doubles at the exact ratio and
    missed at the ratio less 2^-47. *)
Lemma threshold_exact (a n T : Z) :
  (0 <= a <= n)%Z -> (0 < n < 2 ^ 40)%Z -> (0 < T <= 100)%Z ->
  Qle_bool (inject_Z T) (nearest (nearest (inject_Z T * (1 # 100)) * 100)) = true ->
  Qle_bool (inject_Z T)
    (nearest (nearest (inject_Z T * (1 # 100) - (1 # 140737488355328)) * 100)) = false ->
  js_ge (jsmul (jsdiv (jsnum_of_Z a) (jsnum_of_Z n)) (Fin 100)) T
  = js_ge (Fin (inject_Z a / inject_Z n * 100)) T.
Proof.
  intros Ha Hn HT Hreach Hmiss.
  assert (0 < inject_Z n) as Hn' by (apply inject_pos; lia).
  assert (inject_Z n < 1099511627776) as Hn2.
  { change 1099511627776 with (inject_Z (2 ^ 40)). rewrite <- Zlt_Qlt. lia. }
  assert (0 < inject_Z T) as HT' by (apply inject_pos; lia).
  assert (1 <= inject_Z T) as HT1.
  { change 1 with (inject_Z 1). rewrite <- Zle_Qle. lia. }
  assert (inject_Z T <= 100) as HT2.
  { change 100 with (inject_Z 100). rewrite <- Zle_Qle. lia. }
  destruct (Z.eq_dec a 0%Z) as [->|Ha0].
  - unfold jsnum_of_Z, jsdiv.
    assert (Qeq_bool (inject_Z n) 0 = false) as ->.
    { destruct (Qeq_bool (inject_Z n) 0) eqn:C; [|reflexivity].
      apply Qeq_bool_iff in C. lra. }
    rewrite (to_double_zero (inject_Z 0 / inject_Z n)) by (unfold Qdiv; ring).
    cbn [jsmul]. rewrite (to_double_zero (0 * 100)) by reflexivity.
    rewrite js_ge_false by lra.
    symmetry. apply js_ge_false.
    assert (inject_Z 0 / inject_Z n * 100 == 0) as -> by (unfold Qdiv; ring).
    exact HT'.
  - assert (0 < inject_Z a) as Ha' by (apply inject_pos; lia).
    assert (1 <= inject_Z a) as Ha1.
    { change 1 with (inject_Z 1). rewrite <- Zle_Qle. lia. }
    assert (inject_Z a <= inject_Z n) as Han by (rewrite <- Zle_Qle; lia).
    assert (inject_Z a / inject_Z n <= 1) as Hx1.
    { apply Qle_shift_div_r; [exact Hn' | lra]. }
    destruct (count_quotient a n 1) as (r1 & -> & Hr1 & Hx); try lia;
      [exact Hx1 | vm_compute; reflexivity |].
    set (x := inject_Z a / inject_Z n) in *.
    assert (nearest (1 # 1099511627776) <= r1) as Hlow.
    { rewrite Hr1. apply nearest_mono; [reflexivity|].
      apply Qle_shift_div_l; [exact Hn'|]. lra. }
    assert (0 < r1) as Hr1pos.
    { apply Qlt_le_trans with (nearest (1 # 1099511627776)); [|exact Hlow].
      vm_compute. reflexivity. }
    assert (r1 <= nearest 1) as Hr1up.
    { rewrite Hr1. apply nearest_mono; assumption. }
    cbn [jsmul].
    destruct (to_double_below (r1 * 100) (nearest 1 * 100)) as (r2 & -> & Hr2);
      [lra | lra | vm_compute; reflexivity |].
    destruct (Z_le_gt_dec (T * n)%Z (100 * a)%Z) as [Hge|Hlt].
    + assert (inject_Z T * inject_Z n <= 100 * inject_Z a) as Hq.
      { rewrite Zle_Qle, !inject_Z_mult in Hge.
        change (inject_Z 100) with 100 in Hge. exact Hge. }
      assert (inject_Z T * (1 # 100) <= x) as Hc.
      { apply Qle_shift_div_l; [exact Hn'|]. lra. }
      apply Qle_bool_iff in Hreach.
      assert (0 < nearest (inject_Z T * (1 # 100))) as Hcpos.
      { apply Qlt_le_trans with (nearest (1 # 1099511627776));
          [vm_compute; reflexivity|].
        apply nearest_mono; [reflexivity|]. lra. }
      assert (nearest (inject_Z T * (1 # 100)) <= r1) as Hc1.
      { rewrite Hr1. apply nearest_mono; [lra | exact Hc]. }
      assert (nearest (nearest (inject_Z T * (1 # 100)) * 100) <= r2) as Hc2.
      { rewrite Hr2. apply nearest_mono; lra. }
      rewrite js_ge_true by lra.
      symmetry. apply js_ge_true. lra.
    + assert (100 * inject_Z a <= inject_Z T * inject_Z n - 1) as Hq.
      { assert (100 * a + 1 <= T * n)%Z as Hz by lia.
        rewrite Zle_Qle, inject_Z_plus, !inject_Z_mult in Hz.
        change (inject_Z 100) with 100 in Hz. change (inject_Z 1) with 1 in Hz.
        lra. }
      assert (x <= inject_Z T * (1 # 100) - (1 # 140737488355328)) as Hc.
      { apply Qle_shift_div_r; [exact Hn'|]. lra. }
      assert (r1 <= nearest (inject_Z T * (1 # 100) - (1 # 140737488355328))) as Hc1.
      { rewrite Hr1. apply nearest_mono; assumption. }
      assert (r2 <= nearest (nearest (inject_Z T * (1 # 100) - (1 # 140737488355328))
                             * 100)) as Hc2.
      { rewrite Hr2. apply nearest_mono; lra. }
      assert (nearest (nearest (inject_Z T * (1 # 100) - (1 # 140737488355328)) * 100) < inject_Z T)
        as Hm.
      { apply Qnot_le_lt. intros C. apply Qle_bool_iff in C. congruence. }
      rewrite js_ge_false by lra.
      symmetry. apply js_ge_false. lra.
Qed.

(** The comparisons the scorer makes of the on-time percentage. *)
Lemma on_time_thresholds (a n T : Z) :
  (0 <= a <= n)%Z -> (0 < n < 2 ^ 40)%Z -> In T [30; 50; 60]%Z ->
  js_ge (jsmul (jsdiv (jsnum_of_Z a) (jsnum_of_Z n)) (Fin 100)) T
  = js_ge (Fin (inject_Z a / inject_Z n * 100)) T.
Proof.
  intros Ha Hn [<-|[<-|[<-|[]]]]; apply threshold_exact;
    first [assumption | lia | vm_compute; reflexivity].
Qed.

Lemma Qfloor_between y k :
  inject_Z k <= y -> y < inject_Z (k + 1) -> Qfloor y = k.
Proof.
  intros H1 H2.
  pose proof (Qfloor_resp_le _ _ H1) as Hl. rewrite Qfloor_Z in Hl.
  pose proof (Qfloor_le y) as Hf.
  assert (inject_Z (Qfloor y) < inject_Z (k + 1)) as Hu by lra.
  rewrite <- Zlt_Qlt in Hu. lia.
Qed.

Lemma half_below k :
  (1 <= k <= 100)%Z ->
  inject_Z k - (1 # 2) <= nearest (inject_Z k - (1 # 2)).
Proof.
  intros Hk.
  assert (forallb
            (fun i => Qle_bool (inject_Z (Z.of_nat i) - (1 # 2))
                        (nearest (inject_Z (Z.of_nat i) - (1 # 2))))
            (seq 1 100) = true) as H by (vm_compute; reflexivity).
  rewrite forallb_forall in H.
  specialize (H (Z.to_nat k)). rewrite Z2Nat.id in H by lia.
  apply Qle_bool_iff, H, in_seq. lia.
Qed.

Lemma half_above k :
  (0 <= k <= 100)%Z ->
  nearest (inject_Z k + (1 # 2) - (1 # 2199023255552)) < inject_Z k + (1 # 2).
Proof.
  intros Hk.
  assert (forallb
            (fun i => negb (Qle_bool (inject_Z (Z.of_nat i) + (1 # 2))
                              (nearest (inject_Z (Z.of_nat i) + (1 # 2)
                                        - (1 # 2199023255552)))))
            (seq 0 101) = true) as H by (vm_compute; reflexivity).
  rewrite forallb_forall in H.
  specialize (H (Z.to_nat k)). rewrite Z2Nat.id in H by lia.
  apply Qnot_le_lt. intros C. apply Qle_bool_iff in C.
  rewrite C in H. discriminate H. apply in_seq. lia.
Qed.

(** The rounded mean of the message scores comes out in doubles as it does
    exactly, for fewer than 2^40 commits. *)
Lemma mean_rounding (s n : Z) :
  (0 <= s <= 100 * n)%Z -> (0 < n < 2 ^ 40)%Z ->
  Math_round_num (jsdiv (jsnum_of_Z s) (jsnum_of_Z n))
  = Fin (inject_Z (Math_round (inject_Z s / inject_Z n))).
Proof.
  intros Hs Hn.
  assert (0 < inject_Z n) as Hn' by (apply inject_pos; lia).
  assert (inject_Z n < 1099511627776) as Hn2.
  { change 1099511627776 with (inject_Z (2 ^ 40)). rewrite <- Zlt_Qlt. lia. }
  unfold Math_round.
  destruct (Z.eq_dec s 0%Z) as [->|Hs0].
  - unfold jsnum_of_Z, jsdiv.
    assert (Qeq_bool (inject_Z n) 0 = false) as ->.
    { destruct (Qeq_bool (inject_Z n) 0) eqn:C; [|reflexivity].
      apply Qeq_bool_iff in C. lra. }
    rewrite (to_double_zero (inject_Z 0 / inject_Z n)) by (unfold Qdiv; ring).
    assert (inject_Z 0 / inject_Z n + (1 # 2) == 1 # 2) as -> by (unfold Qdiv; ring).
    reflexivity.
  - assert (0 < inject_Z s) as Hs' by (apply inject_pos; lia).
    assert (inject_Z s <= 100 * inject_Z n) as Hsn.
    { destruct Hs as [_ Hs]. rewrite Zle_Qle, inject_Z_mult in Hs. exact Hs. }
    assert (inject_Z s / inject_Z n <= 100) as Hx100.
    { apply Qle_shift_div_r; [exact Hn' | lra]. }
    destruct (count_quotient s n 100) as (r & -> & Hr & Hx); try lia;
      [exact Hx100 | vm_compute; reflexivity |].
    set (x := inject_Z s / inject_Z n) in *.
    assert (x * inject_Z n == inject_Z s) as Hxn.
    { unfold x. field. lra. }
    cbn [Math_round_num]. do 2 f_equal.
    set (k := Qfloor (x + (1 # 2))).
    pose proof (Qfloor_le (x + (1 # 2))) as Hk1.
    pose proof (Qlt_floor (x + (1 # 2))) as Hk2. fold k in Hk1, Hk2.
    rewrite inject_Z_plus in Hk2. change (inject_Z 1) with 1 in Hk2.
    assert (0 <= k <= 100)%Z as Hk.
    { split.
      - assert (inject_Z 0 < inject_Z (k + 1)) as H.
        { rewrite inject_Z_plus. change (inject_Z 1) with 1. change (inject_Z 0) with 0.
          lra. }
        rewrite <- Zlt_Qlt in H. lia.
      - assert (inject_Z k < inject_Z 101) as H.
        { change (inject_Z 101) with 101. lra. }
        rewrite <- Zlt_Qlt in H. lia. }
    assert (0 < r) as Hrpos.
    { apply Qlt_le_trans with (nearest (1 # 1099511627776)); [vm_compute; reflexivity|].
      rewrite Hr. apply nearest_mono; [reflexivity|].
      apply Qle_shift_div_l; [exact Hn'|].
      assert (1 <= inject_Z s).
      { change 1 with (inject_Z 1). rewrite <- Zle_Qle. lia. }
      lra. }
    apply Qfloor_between.
    + destruct (Z.eq_dec k 0%Z) as [E|E].
      * rewrite E. change (inject_Z 0) with 0. lra.
      * assert (inject_Z k - (1 # 2) <= r); [|lra].
        apply Qle_trans with (nearest (inject_Z k - (1 # 2)));
          [apply half_below; lia|].
        rewrite Hr. apply nearest_mono; [|lra].
        assert (1 <= inject_Z k).
        { change 1 with (inject_Z 1). rewrite <- Zle_Qle. lia. }
        lra.
    + rewrite inject_Z_plus. change (inject_Z 1) with 1.
      assert (r < inject_Z k + (1 # 2)); [|lra].
      apply Qle_lt_trans with (nearest (inject_Z k + (1 # 2) - (1 # 2199023255552)));
        [|apply half_above; exact Hk].
      rewrite Hr. apply nearest_mono; [exact Hx|].
      assert ((x + (1 # 2)) * inject_Z n < (inject_Z k + 1) * inject_Z n) as Hm.
      { apply Qmult_lt_compat_r; assumption. }
      assert (2 * s + n < 2 * (k + 1) * n)%Z as Hz.
      { rewrite Zlt_Qlt, inject_Z_plus, !inject_Z_mult, inject_Z_plus.
        change (inject_Z 2) with 2. change (inject_Z 1) with 1. lra. }
      assert (2 * s + n + 1 <= 2 * (k + 1) * n)%Z as Hz' by lia.
      rewrite Zle_Qle, !inject_Z_plus, !inject_Z_mult, inject_Z_plus in Hz'.
      change (inject_Z 2) with 2 in Hz'. change (inject_Z 1) with 1 in Hz'.
      apply Qle_shift_div_r; [exact Hn'|]. lra.
Qed.

End DoubleFacts.

(** The on-time percentage and the mean message score are quotients of two
    counts, which the code computes in doubles and the embedding exactly.
    For fewer than 2^40 commits nothing that is made of them differs: the
    scorer compares the percentage with 60, 50 and 30 only, and the mean
    is rounded to the same integer. *)
Lemma figures_in_doubles
    (Date_getTime : str -> option Z) (Date_getHours : Z -> Z)
    (WORK_START WORK_END : Z) (allCommits : list commit) :
  Z.of_nat (length allCommits) < 2 ^ 40 ->
  let b := base_pass Date_getTime Date_getHours WORK_START WORK_END allCommits in
  let totalCommits := Z.of_nat (length allCommits) in
  let percentage :=
    if totalCommits =? 0 then Fin 0
    else jsmul (jsdiv (jsnum_of_Z (onTimeCount b)) (jsnum_of_Z totalCommits)) (Fin 100) in
  let mean :=
    if totalCommits =? 0 then Fin 0
    else Math_round_num
           (jsdiv (jsnum_of_Z (totalMessageScore b)) (jsnum_of_Z totalCommits)) in
  let exact :=
    Fin (onTimePercentage Date_getTime Date_getHours WORK_START WORK_END allCommits) in
  (forall T, In T [30; 50; 60] -> js_ge percentage T = js_ge exact T)
  /\ (forall totalCommits messageQuality consistency,
        Experience.calculateExperienceLevel totalCommits percentage messageQuality
          consistency
        = Experience.calculateExperienceLevel totalCommits exact messageQuality
            consistency)
  /\ mean
     = jsnum_of_Z
         (messageQualityScore Date_getTime Date_getHours WORK_START WORK_END allCommits).
Proof.
  intros Hlen b totalCommits percentage mean exact.
  subst percentage mean exact. unfold onTimePercentage, messageQualityScore.
  fold totalCommits. fold b.
  assert (forall T, In T [30; 50; 60] ->
            js_ge (if totalCommits =? 0 then Fin 0
                   else jsmul (jsdiv (jsnum_of_Z (onTimeCount b))
                                 (jsnum_of_Z totalCommits)) (Fin 100)) T
            = js_ge (Fin (if totalCommits =? 0 then 0%Q
                          else (inject_Z (onTimeCount b) / inject_Z totalCommits
                                * 100)%Q)) T) as Hge.
  { intros T HT. destruct (Z.eqb_spec totalCommits 0) as [E|E]; [reflexivity|].
    apply DoubleFacts.on_time_thresholds; [|subst totalCommits; lia|exact HT].
    subst b. unfold base_pass.
    destruct (base_fold Date_getTime Date_getHours WORK_START WORK_END allCommits
                (mkBase 0 0 [] 0)) as (_ & Ho & _).
    cbn zeta in Ho. cbn [onTimeCount] in Ho. rewrite Ho.
    pose proof (times_length Date_getTime allCommits) as Ht.
    pose proof (filter_split (within_hours Date_getHours WORK_START WORK_END)
                  (omap (commit_time Date_getTime) allCommits)) as Hs.
    subst totalCommits. lia. }
  split; [exact Hge|]. split.
  - intros tc mq cs. unfold Experience.calculateExperienceLevel, Experience.pattern.
    rewrite !Hge by (cbn; tauto). reflexivity.
  - destruct (Z.eqb_spec totalCommits 0) as [E|E]; [reflexivity|].
    apply DoubleFacts.mean_rounding; [|subst totalCommits; lia].
    subst b. unfold base_pass. rewrite (totalMessageScore_fold Date_getTime).
    cbn [totalMessageScore].
    pose proof (score_sum_bounds (dated Date_getTime allCommits)) as Hb.
    pose proof (times_dated Date_getTime allCommits) as Ht.
    pose proof (times_length Date_getTime allCommits) as Hl.
    subst totalCommits. lia.
Qed.
